(** * Channel coding of the wireless-comms-suite: a shallow embedding

    This development embeds, from [src/coding.c] and [include/coding.h],
    the rate-1/2 K=7 convolutional encoder ([conv_encode]), the hard- and
    soft-decision Viterbi decoders ([viterbi_decode], [viterbi_decode_soft])
    and the block interleaver ([interleaver_init], [interleaver_free],
    [interleaver_apply], [interleaver_deapply]), then the parity code, the
    Hamming(7,4) code, the three CRCs, the run-length coder and the Huffman
    coder and decoder of the same file, and from [src/comms_utils.c] the
    conversions between bits and bytes and [bit_errors]; and proves
    properties of them.

    Conventions of the embedding.
    - A C [int], [unsigned int] or [uint8_t] value is a [Z].  No arithmetic
      of the embedded functions leaves the range of its C type on the inputs
      the theorems quantify over, so no wrap-around is written out; the CRC
      registers are the exception, and their truncation to 16 and 32 bits
      is part of the definitions.
    - A caller-supplied array is a [list]; every access goes through [load]
      and [store], which fail ([None]) outside the bounds of the list, the
      embedding of C's undefined behaviour.  A function therefore returns an
      [option]: [Some] is a normal return, [None] an undefined execution.
    - A cell of storage that C leaves indeterminate (the automatic array
      [path], a fresh [malloc] block) holds [None] until it is written, and
      reading such a cell is undefined as well.
    - A path metric is a C [double].  Every double that occurs is an integer
      of magnitude far below 2^53 or the constant [VITERBI_INF], on which
      IEEE-754 addition, subtraction and comparison are exact, so metrics
      are [Z] too. *)

From Stdlib Require Import ZArith Lia Bool.
From stdpp Require Import base option list list_numbers.

Local Open Scope Z_scope.

(** ** Memory accesses and loops *)

Definition load {A} (buf : list A) (i : Z) : option A :=
  if decide (0 ≤ i) then buf !! Z.to_nat i else None.

Definition store {A} (buf : list A) (i : Z) (v : A) : option (list A) :=
  if decide (0 ≤ i < Z.of_nat (length buf))
  then Some (<[Z.to_nat i := v]> buf) else None.

(** Reading a cell that may still be indeterminate. *)
Definition load_init {A} (buf : list (option A)) (i : Z) : option A :=
  mjoin (load buf i).

(** [for (i = 0; i < n; i++) body], the body possibly undefined. *)
Definition for_loop {S} (n : Z) (body : Z → S → option S) (s : S) : option S :=
  foldl (λ acc i, acc ≫= body i) (Some s) (seqZ 0 n).

(** [for (t = n - 1; t >= 0; t--) body]. *)
Fixpoint for_down_nat {S} (n : nat) (body : Z → S → option S) (s : S)
  : option S :=
  match n with
  | O => Some s
  | S t => body (Z.of_nat t) s ≫= for_down_nat t body
  end.

Definition for_down {S} (n : Z) (body : Z → S → option S) (s : S) : option S :=
  for_down_nat (Z.to_nat n) body s.

(** ** Constants of [coding.h] *)

Definition CONV_K : Z := 7.
Definition CONV_STATES : Z := Z.shiftl 1 (CONV_K - 1).
Definition CONV_G0 : Z := 91.   (* 0133 octal *)
Definition CONV_G1 : Z := 121.  (* 0171 octal *)

(** [#define VITERBI_INF 1e30]: the value of the double nearest to 10^30. *)
Definition VITERBI_INF : Z := 1000000000000000019884624838656.

(** ** Convolutional encoder *)

(** [while (x) { c += x & 1; x >>= 1; }] on a 32-bit [unsigned int]: the
    loop body runs at most 32 times, which is the fuel [popcount] gives. *)
Fixpoint popcount_loop (fuel : nat) (x c : Z) : Z :=
  match fuel with
  | O => c
  | S f => if x =? 0 then c
           else popcount_loop f (Z.shiftr x 1) (c + Z.land x 1)
  end.

Definition popcount (x : Z) : Z := popcount_loop 32 x 0.

(** [state = ((state << 1) | (in[i] & 1)) & (CONV_STATES * 2 - 1)]. *)
Definition shift_in (state b : Z) : Z :=
  Z.land (Z.lor (Z.shiftl state 1) (Z.land b 1)) (CONV_STATES * 2 - 1).

(** [popcount (full_state & g) & 1], the output bit of generator [g]. *)
Definition expected (g full_state : Z) : Z :=
  Z.land (popcount (Z.land full_state g)) 1.

Definition conv_encode_body (inp : list Z) (i : Z) (st : Z * list Z)
  : option (Z * list Z) :=
  let '(state, out) := st in
  b ← load inp i;
  let state := shift_in state b in
  out ← store out (2 * i) (expected CONV_G0 state);
  out ← store out (2 * i + 1) (expected CONV_G1 state);
  Some (state, out).

(** [conv_encode in n out] returns the contents of [out] after the call. *)
Definition conv_encode (inp : list Z) (n : Z) (out : list Z)
  : option (list Z) :=
  snd <$> for_loop n (conv_encode_body inp) (0, out).

(** ** Viterbi decoders

    The two decoders of [coding.c] differ in the received pair and in the
    metric line only; [metric_hard] and [metric_soft] are those lines, and
    the add-compare-select step, the forward pass, the choice of the final
    state and the traceback are written once over the metric. *)

(** [pm_old], [pm_new]: 64 doubles.  An index is a state, masked to
    [CONV_STATES - 1] or a loop counter below [CONV_STATES], so these
    accesses are in bounds by construction. *)
Definition pm_get (pm : list Z) (s : Z) : Z := pm !!! Z.to_nat s.
Definition pm_set (pm : list Z) (s : Z) (m : Z) : list Z := <[Z.to_nat s := m]> pm.

(** One row [path[t]]: 64 cells, indeterminate until written. *)
Abbreviation path_row := (list (option Z)).

Definition ne_int (a b : Z) : Z := if a =? b then 0 else 1.

(** [bm = (e0 != r0) + (e1 != r1); metric = pm_old[s] + bm]. *)
Definition metric_hard (r : Z * Z) (pm_s e0 e1 : Z) : Z :=
  pm_s + (ne_int e0 (fst r) + ne_int e1 (snd r)).

(** [bm = (e0 ? -l0 : l0) + (e1 ? -l1 : l1); metric = pm_old[s] - bm]. *)
Definition metric_soft (l : Z * Z) (pm_s e0 e1 : Z) : Z :=
  pm_s - ((if e0 =? 0 then fst l else - fst l)
          + (if e1 =? 0 then snd l else - snd l)).

(** [ns = ((s << 1) | bit) & (CONV_STATES - 1)] and
    [full_state = (s << 1) | bit]. *)
Definition next_state (s bit : Z) : Z :=
  Z.land (Z.lor (Z.shiftl s 1) bit) (CONV_STATES - 1).
Definition full_state (s bit : Z) : Z := Z.lor (Z.shiftl s 1) bit.

Section Trellis.
(** The received pair of a time step and the metric line. *)
Context {R : Type} (metric : R → Z → Z → Z → Z).

(** [metric], the candidate cost of leaving state [s] with input [bit]. *)
Definition candidate (r : R) (pm_old : list Z) (s bit : Z) : Z :=
  let e0 := expected CONV_G0 (full_state s bit) in
  let e1 := expected CONV_G1 (full_state s bit) in
  metric r (pm_get pm_old s) e0 e1.

(** Body of [for (bit = 0; bit <= 1; bit++)]. *)
Definition acs_bit (r : R) (pm_old : list Z) (s : Z)
    (acc : list Z * path_row) (bit : Z) : list Z * path_row :=
  let '(pm_new, row) := acc in
  let ns := next_state s bit in
  let m := candidate r pm_old s bit in
  if m <? pm_get pm_new ns
  then (pm_set pm_new ns m, <[Z.to_nat ns := Some s]> row)
  else acc.

(** Body of [for (s = 0; s < CONV_STATES; s++)]. *)
Definition acs_state (r : R) (pm_old : list Z)
    (acc : list Z * path_row) (s : Z) : list Z * path_row :=
  if VITERBI_INF <=? pm_get pm_old s then acc
  else foldl (acs_bit r pm_old s) acc (seqZ 0 2).

(** One time step: [pm_new] is filled with [VITERBI_INF], then the loop
    over the states updates [pm_new] and the row [path[t]]. *)
Definition viterbi_step (r : R) (pm_old : list Z) (row : path_row)
  : list Z * path_row :=
  foldl (acs_state r pm_old)
        (replicate (Z.to_nat CONV_STATES) VITERBI_INF, row)
        (seqZ 0 CONV_STATES).

(** The forward pass; [recv t] reads the received pair of step [t]. *)
Definition forward_body (recv : Z → option R) (t : Z)
    (st : list Z * list path_row) : option (list Z * list path_row) :=
  let '(pm_old, path) := st in
  r ← recv t;
  row ← load path t;
  let '(pm_new, row) := viterbi_step r pm_old row in
  path ← store path t row;
  Some (pm_new, path).

Definition pm_init : list Z :=
  pm_set (replicate (Z.to_nat CONV_STATES) VITERBI_INF) 0 0.

(** [int path[256][CONV_STATES]], an automatic array: indeterminate. *)
Definition path_init : list path_row :=
  replicate 256 (replicate (Z.to_nat CONV_STATES) None).

Definition viterbi_forward (recv : Z → option R) (max_len : Z)
  : option (list Z * list path_row) :=
  for_loop max_len (forward_body recv) (pm_init, path_init).
End Trellis.

(** [best_state = 0; for (s = 1; ...) if (pm_old[s] < pm_old[best_state])
    best_state = s]. *)
Definition best_state (pm : list Z) : Z :=
  foldl (λ best s, if pm_get pm s <? pm_get pm best then s else best)
        0 (seqZ 1 (CONV_STATES - 1)).

Definition traceback_body (path : list path_row) (t : Z) (st : Z * list Z)
  : option (Z * list Z) :=
  let '(state, decoded) := st in
  row ← load path t;
  prev ← load_init row state;
  decoded ← store decoded t (Z.land (Z.shiftr state (CONV_K - 2)) 1);
  Some (prev, decoded).

Definition traceback (path : list path_row) (max_len : Z) (best : Z)
    (decoded : list Z) : option (list Z) :=
  snd <$> for_down max_len (traceback_body path) (best, decoded).

Definition recv_hard (coded : list Z) (t : Z) : option (Z * Z) :=
  c0 ← load coded (2 * t);
  c1 ← load coded (2 * t + 1);
  Some (Z.land c0 1, Z.land c1 1).

Definition recv_soft (llr : list Z) (t : Z) : option (Z * Z) :=
  l0 ← load llr (2 * t);
  l1 ← load llr (2 * t + 1);
  Some (l0, l1).

Definition max_len_of (n_coded : Z) : Z :=
  let n_data := Z.quot n_coded 2 in
  if n_data <? 256 then n_data else 256.

(** [viterbi_decode coded n_coded decoded] returns the value returned and
    the contents of [decoded] after the call. *)
Definition viterbi_decode (coded : list Z) (n_coded : Z) (decoded : list Z)
  : option (Z * list Z) :=
  let n_data := Z.quot n_coded 2 in
  if n_data <? 1 then Some (0, decoded)
  else
    let max_len := max_len_of n_coded in
    '(pm_old, path) ← viterbi_forward metric_hard (recv_hard coded) max_len;
    decoded ← traceback path max_len (best_state pm_old) decoded;
    Some (max_len, decoded).

(** The soft decoder on integer-valued log-likelihood ratios. *)
Definition viterbi_decode_soft (llr : list Z) (n_coded : Z) (decoded : list Z)
  : option (Z * list Z) :=
  let n_data := Z.quot n_coded 2 in
  if n_data <? 1 then Some (0, decoded)
  else
    let max_len := max_len_of n_coded in
    '(pm_old, path) ← viterbi_forward metric_soft (recv_soft llr) max_len;
    decoded ← traceback path max_len (best_state pm_old) decoded;
    Some (max_len, decoded).

(** ** Block interleaver *)

Record Interleaver : Type := mkInterleaver {
  rows : Z;
  cols : Z;
  perm : option (list (option Z));  (* [None] is the null pointer *)
  inv : option (list (option Z))
}.

(** [malloc (size * sizeof (int))].  Whether the allocation succeeds is the
    environment's choice [ok]; a fresh block is indeterminate. *)
Definition malloc (ok : bool) (size : Z) : option (list (option Z)) :=
  if ok then Some (replicate (Z.to_nat size) None) else None.

Definition init_body (rows cols r c : Z)
    (tabs : list (option Z) * list (option Z))
  : option (list (option Z) * list (option Z)) :=
  let '(perm, inv) := tabs in
  let write_idx := r * cols + c in
  let read_idx := c * rows + r in
  perm ← store perm write_idx (Some read_idx);
  inv ← store inv read_idx (Some write_idx);
  Some (perm, inv).

(** [interleaver_init itl rows cols], the two allocations succeeding or not
    as [ok_perm] and [ok_inv] say: the value returned and [*itl]. *)
Definition interleaver_init (ok_perm ok_inv : bool) (rows cols : Z)
  : option (Z * Interleaver) :=
  let size := rows * cols in
  let perm := malloc ok_perm size in
  let inv := malloc ok_inv size in
  match perm, inv with
  | Some p, Some q =>
      '(p, q) ← for_loop rows
                 (λ r, for_loop cols (init_body rows cols r)) (p, q);
      Some (0, mkInterleaver rows cols (Some p) (Some q))
  | _, _ => Some (-1, mkInterleaver rows cols perm inv)
  end.

(** The loop shared by [interleaver_apply] and [interleaver_deapply]:
    [for (i = 0; i < n && i < size; i++) out[table[i]] = in[i]]. *)
Definition scatter_body (table : list (option Z)) (inp : list Z) (i : Z)
    (out : list Z) : option (list Z) :=
  v ← load inp i;
  j ← load_init table i;
  store out j v.

Definition scatter (table : option (list (option Z))) (size : Z)
    (inp out : list Z) (n : Z) : option (list Z) :=
  for_loop (Z.min n size)
    (λ i out, table ← table; scatter_body table inp i out) out.

Definition interleaver_apply (itl : Interleaver) (inp out : list Z) (n : Z)
  : option (list Z) :=
  scatter (perm itl) (rows itl * cols itl) inp out n.

Definition interleaver_deapply (itl : Interleaver) (inp out : list Z) (n : Z)
  : option (list Z) :=
  scatter (inv itl) (rows itl * cols itl) inp out n.

(** ** The encoder as a function on lists

    What [conv_encode] leaves in the first [2 * n] cells of [out], as a
    function of the input bits, and the register after the input. *)

Definition enc_state (x : list Z) : Z := foldl shift_in 0 x.

Fixpoint conv_bits (state : Z) (x : list Z) : list Z :=
  match x with
  | [] => []
  | b :: x =>
      let state := shift_in state b in
      expected CONV_G0 state :: expected CONV_G1 state :: conv_bits state x
  end.

Definition is_bit (b : Z) : Prop := b = 0 ∨ b = 1.

(** ** One cell of a time step

    The add-compare-select loop seen from one destination state [ns]: its
    cell is the pair of [pm_new[ns]] and [path[t][ns]], and a candidate that
    is strictly cheaper replaces it. *)

Definition cell_of (acc : list Z * path_row) (ns : Z) : Z * option Z :=
  (pm_get acc.1 ns, acc.2 !!! Z.to_nat ns).

Definition wf_acc (acc : list Z * path_row) : Prop :=
  length acc.1 = 64%nat ∧ length acc.2 = 64%nat.

Definition relax (m s : Z) (c : Z * option Z) : Z * option Z :=
  if m <? c.1 then (m, Some s) else c.

Section Cell.
Context {R : Type} (metric : R → Z → Z → Z → Z).

Definition cell_bit (r : R) (pm_old : list Z) (ns s : Z)
    (c : Z * option Z) (bit : Z) : Z * option Z :=
  if decide (ns = next_state s bit)
  then relax (candidate metric r pm_old s bit) s c else c.

Definition cell_state (r : R) (pm_old : list Z) (ns : Z)
    (c : Z * option Z) (s : Z) : Z * option Z :=
  if VITERBI_INF <=? pm_get pm_old s then c
  else foldl (cell_bit r pm_old ns s) c (seqZ 0 2).

(** What a predecessor [p] of [ns] does to the cell of [ns]. *)
Definition cell_pred (r : R) (pm_old : list Z) (ns : Z)
    (c : Z * option Z) (p : Z) : Z * option Z :=
  if VITERBI_INF <=? pm_get pm_old p then c
  else relax (candidate metric r pm_old p (ns `mod` 2)) p c.
End Cell.

(** ** Reachability and the survivor path

    A metric array after [t] steps of the hard decoder holds [VITERBI_INF]
    for an unreachable state and a Hamming distance of at most [2 * t]
    otherwise. *)

Definition pm_ok (t : Z) (pm : list Z) : Prop :=
  length pm = 64%nat
  ∧ ∀ s, 0 ≤ s < 64 → pm_get pm s = VITERBI_INF ∨ 0 ≤ pm_get pm s ≤ 2 * t.

(** The survivors of [s] are written in rows [k - 1], ..., [0] of [path]. *)
Fixpoint trace_ok (path : list path_row) (k : nat) (s : Z) : Prop :=
  match k with
  | O => True
  | S t => 0 ≤ s ∧ ∃ row p, path !! t = Some row
                          ∧ row !! Z.to_nat s = Some (Some p)
                          ∧ trace_ok path t p
  end.

(** The predecessor the traceback reads, and the bits it writes into
    [decoded[0 .. k - 1]] when it starts from state [s] at step [k - 1]. *)
Definition survivor (path : list path_row) (t : nat) (s : Z) : Z :=
  default 0 (path !! t ≫= λ row, mjoin (row !! Z.to_nat s)).

Definition out_bit (state : Z) : Z := Z.land (Z.shiftr state (CONV_K - 2)) 1.

Fixpoint trace_bits (path : list path_row) (k : nat) (s : Z) : list Z :=
  match k with
  | O => []
  | S t => trace_bits path t (survivor path t s) ++ [out_bit s]
  end.

Definition fwd_inv (t : Z) (st : list Z * list path_row) : Prop :=
  pm_ok t st.1
  ∧ length st.2 = 256%nat
  ∧ Forall (λ row, length row = 64%nat) st.2
  ∧ (∃ s, 0 ≤ s < 64 ∧ pm_get st.1 s < VITERBI_INF)
  ∧ ∀ s, 0 ≤ s < 64 → pm_get st.1 s < VITERBI_INF →
         trace_ok st.2 (Z.to_nat t) s.

(** ** The noiseless channel

    [sigma x t] is the trellis state of the encoder after [t] input bits:
    the low six bits of its register. *)

Definition sigma (x : list Z) (t : nat) : Z :=
  Z.land (enc_state (take t x)) (CONV_STATES - 1).

(** On the encoder's own output the state of the encoder has metric 0,
    every other state a positive metric, and the survivor of the encoder's
    state at each step is the encoder's previous state. *)
Definition nl_inv (x : list Z) (t : Z) (st : list Z * list path_row) : Prop :=
  pm_get st.1 (sigma x (Z.to_nat t)) = 0
  ∧ (∀ s, 0 ≤ s < 64 → s ≠ sigma x (Z.to_nat t) → 1 ≤ pm_get st.1 s)
  ∧ ∀ t' : nat, (t' < Z.to_nat t)%nat →
      ∃ row, st.2 !! t' = Some row
             ∧ row !! Z.to_nat (sigma x (S t')) = Some (Some (sigma x t')).

(** ** Saturated log-likelihood ratios

    [llr_of_bit c] is the ratio the soft decoder is fed for a hard bit [c]:
    [+10.0] for 0 and [-10.0] for 1. *)

Definition llr_of_bit (c : Z) : Z := if c =? 0 then 10 else -10.

(** The metrics of the two decoders after [t] steps on such an input: the
    same states are unreachable, and a reachable state of Hamming distance
    [h] has soft metric [20 * h - 20 * t]. *)
Definition soft_rel (t : Z) (pmh pms : list Z) : Prop :=
  ∀ s, 0 ≤ s < 64 →
    (pm_get pmh s = VITERBI_INF ∧ pm_get pms s = VITERBI_INF)
    ∨ (0 ≤ pm_get pmh s ≤ 2 * t ∧ pm_get pms s = 20 * pm_get pmh s - 20 * t).

Definition cell_rel (t : Z) (ch cs : Z * option Z) : Prop :=
  ch.2 = cs.2
  ∧ ((ch.1 = VITERBI_INF ∧ cs.1 = VITERBI_INF)
     ∨ (0 ≤ ch.1 ≤ 2 * t ∧ cs.1 = 20 * ch.1 - 20 * t)).

(** ** The encoder as the specification words it

    The generators in octal, the population count of a register value, its
    parity, and the K-bit register updated as
    [register = ((register << 1) | bit) mod 2^K] from 0. *)

Definition G0_octal : Z := 1 * 8 ^ 2 + 3 * 8 + 3.
Definition G1_octal : Z := 1 * 8 ^ 2 + 7 * 8 + 1.

Fixpoint pos_population (p : positive) : Z :=
  match p with
  | xH => 1
  | xO q => pos_population q
  | xI q => 1 + pos_population q
  end.

Definition population_count (v : Z) : Z :=
  match v with
  | Zpos p => pos_population p
  | _ => 0
  end.

Definition parity_spec (v : Z) : Z := population_count v `mod` 2.

Definition register_step_spec (register bit : Z) : Z :=
  Z.lor (Z.shiftl register 1) bit `mod` 2 ^ CONV_K.

Definition register_spec (x : list Z) : Z := foldl register_step_spec 0 x.

(** ** The tables of the interleaver

    The cell [perm[r * cols + c]] written for row [r] and column [c], as a
    function of the index, and likewise [inv[c * rows + r]]. *)

Definition perm_index (rows cols i : Z) : Z := (i `mod` cols) * rows + i / cols.
Definition inv_index (rows cols j : Z) : Z := (j `mod` rows) * cols + j / rows.

(** The tables when the loops of [interleaver_init] are about to run
    column [c] of row [r]. *)
Definition init_inv (rows cols r c : Z)
    (tabs : list (option Z) * list (option Z)) : Prop :=
  length tabs.1 = Z.to_nat (rows * cols)
  ∧ length tabs.2 = Z.to_nat (rows * cols)
  ∧ ∀ r' c', 0 ≤ r' → 0 ≤ c' < cols → r' < r ∨ (r' = r ∧ c' < c) →
      tabs.1 !! Z.to_nat (r' * cols + c') = Some (Some (c' * rows + r'))
      ∧ tabs.2 !! Z.to_nat (c' * rows + r') = Some (Some (r' * cols + c')).

(** Any two positions less than [L] apart in the interleaved domain are
    moved by [interleaver_deapply], which writes [out[inv[i]] = in[i]], to
    distinct positions at least [sep] apart. *)
Definition burst_separated (rows cols L sep : Z) : Prop :=
  ∀ ok_perm ok_inv itl q,
    interleaver_init ok_perm ok_inv rows cols = Some (0, itl) →
    inv itl = Some q →
    ∀ j1 j2 a b,
      0 ≤ j1 → j1 < j2 → j2 < rows * cols → j2 - j1 < L →
      q !! Z.to_nat j1 = Some (Some a) → q !! Z.to_nat j2 = Some (Some b) →
      a ≠ b ∧ sep ≤ Z.abs (a - b).

(** ** Sequences over GF(2) *)

(** The bitwise sum of two bit sequences, as a channel adds an error
    pattern to a codeword. *)
Definition xor_bits (a b : list Z) : list Z := zip_with Z.lxor a b.

(** ** Maximum-likelihood decoding

    The Hamming distance of two bit sequences, the hard bits the decoder
    takes from the received bytes, and the input delayed by K - 2 = 5
    positions that the traceback produces. *)

Definition hamming (a b : list Z) : Z := foldr Z.add 0 (zip_with ne_int a b).

Definition received_bits (coded : list Z) : list Z := (λ c, Z.land c 1) <$> coded.

Definition delayed (u : list Z) (n : nat) : list Z :=
  (λ t : nat, if (t <? 5)%nat then 0 else u !!! (t - 5)%nat) <$> seq 0 n.

(** After [t] steps the metric of a state is the least distance between the
    received bits and the encoder's output on a [t]-bit input that ends in
    the state, and the survivors of such an input are in [path]. *)
Definition ml_inv (coded : list Z) (t : Z) (st : list Z * list path_row)
  : Prop :=
  (∀ u, Forall is_bit u → length u = Z.to_nat t →
        pm_get st.1 (sigma u (length u))
        ≤ hamming (conv_bits 0 u)
                  (take (Z.to_nat (2 * t)) (received_bits coded)))
  ∧ ∀ s, 0 ≤ s < 64 → pm_get st.1 s < VITERBI_INF →
      ∃ u, Forall is_bit u ∧ length u = Z.to_nat t
           ∧ sigma u (length u) = s
           ∧ hamming (conv_bits 0 u)
                     (take (Z.to_nat (2 * t)) (received_bits coded))
             = pm_get st.1 s
           ∧ ∀ t' : nat, (t' < Z.to_nat t)%nat →
               ∃ row, st.2 !! t' = Some row
                      ∧ row !! Z.to_nat (sigma u (S t'))
                        = Some (Some (sigma u t')).

(** [interleaver_free]: both blocks are released and the pointers set to
    null. *)
Definition interleaver_free (itl : Interleaver) : Interleaver :=
  mkInterleaver (rows itl) (cols itl) None None.

(** ** Parity *)

(** [for (i = 0; i < n; i++) p ^= (bits[i] & 1)]. *)
Definition parity_even (bits : list Z) (n : Z) : option Z :=
  for_loop n (λ i p, b ← load bits i; Some (Z.lxor p (Z.land b 1))) 0.

(** [memcpy (dst, src, n)] on arrays that do not overlap; a negative [int]
    converts to a size beyond any array. *)
Definition memcpy (dst src : list Z) (n : Z) : option (list Z) :=
  if decide (0 ≤ n ≤ Z.of_nat (length src) ∧ n ≤ Z.of_nat (length dst))
  then Some (take (Z.to_nat n) src ++ drop (Z.to_nat n) dst) else None.

Definition parity_encode (inp : list Z) (n : Z) (out : list Z)
  : option (list Z) :=
  out ← memcpy out inp n;
  p ← parity_even inp n;
  store out n p.

Definition parity_check (codeword : list Z) (n_plus_1 : Z) : option Z :=
  parity_even codeword n_plus_1.

(** The parity of the low bits of a list of bytes. *)
Definition parity_of (l : list Z) : Z :=
  foldl (λ p b, Z.lxor p (Z.land b 1)) 0 l.

(** ** Hamming(7,4) *)

Definition hamming_G : list (list Z) :=
  [ [1; 0; 0; 0; 1; 1; 0];
    [0; 1; 0; 0; 0; 1; 1];
    [0; 0; 1; 0; 1; 1; 1];
    [0; 0; 0; 1; 1; 0; 1] ].

Definition hamming_H : list (list Z) :=
  [ [1; 0; 1; 1; 1; 0; 0];
    [1; 1; 1; 0; 0; 1; 0];
    [0; 1; 1; 1; 0; 0; 1] ].

(** An entry of a constant table, the indices being loop counters within
    its bounds. *)
Definition entry (m : list (list Z)) (i j : Z) : Z :=
  (m !!! Z.to_nat i) !!! Z.to_nat j.

Definition hamming74_encode (data4 code7 : list Z) : option (list Z) :=
  for_loop 7 (λ j code7,
    code7 ← store code7 j 0;
    for_loop 4 (λ i code7,
      d ← load data4 i;
      c ← load code7 j;
      store code7 j (Z.lxor c (Z.land (Z.land d 1) (entry hamming_G i j))))
      code7) code7.

(** The local array [syndrome]. *)
Definition hamming74_syndrome (code7 : list Z) : option (list Z) :=
  for_loop 3 (λ i syndrome,
    let syndrome := <[Z.to_nat i := 0]> syndrome in
    for_loop 7 (λ j syndrome,
      c ← load code7 j;
      Some (<[Z.to_nat i := Z.lxor (syndrome !!! Z.to_nat i)
                              (Z.land (Z.land c 1) (entry hamming_H i j))]>
              syndrome)) syndrome) [0; 0; 0].

(** [for (j = 0; j < 7; j++) if (col == syn_val) { error_pos = j; break; }]:
    the first matching column, or -1. *)
Definition hamming74_error_pos (syn_val : Z) : Z :=
  foldl (λ error_pos j,
           if error_pos =? -1 then
             let col := Z.lor (Z.lor (Z.shiftl (entry hamming_H 0 j) 2)
                                     (Z.shiftl (entry hamming_H 1 j) 1))
                              (entry hamming_H 2 j) in
             if col =? syn_val then j else error_pos
           else error_pos)
        (-1) (seqZ 0 7).

(** [hamming74_decode code7 data4]: the value returned and [data4]. *)
Definition hamming74_decode (code7 data4 : list Z) : option (Z * list Z) :=
  syndrome ← hamming74_syndrome code7;
  let syn_val := Z.lor (Z.lor (Z.shiftl (syndrome !!! 0%nat) 2)
                              (Z.shiftl (syndrome !!! 1%nat) 1))
                       (syndrome !!! 2%nat) in
  let error_pos := if syn_val =? 0 then -1 else hamming74_error_pos syn_val in
  corrected ← memcpy (replicate 7 0) code7 7;
  let corrected :=
    if 0 <=? error_pos
    then <[Z.to_nat error_pos := Z.lxor (corrected !!! Z.to_nat error_pos) 1]>
           corrected
    else corrected in
  data4 ← for_loop 4 (λ i data4, store data4 i (corrected !!! Z.to_nat i)) data4;
  Some (error_pos, data4).

(** ** CRC

    The registers are [uint16_t] and [uint32_t]; the wrap-around of each
    assignment is written out. *)

(** One turn of [for (b = 0; b < 8; b++)] in [crc16_ccitt]. *)
Definition crc16_bit (crc : Z) : Z :=
  if negb (Z.land crc 0x8000 =? 0)
  then Z.lxor (Z.shiftl crc 1) 0x1021 mod 2 ^ 16
  else Z.shiftl crc 1 mod 2 ^ 16.

Definition crc16_byte (crc d : Z) : Z :=
  foldl (λ crc _, crc16_bit crc)
        (Z.lxor crc (Z.shiftl (d mod 2 ^ 16) 8) mod 2 ^ 16) (seqZ 0 8).

Definition crc16_ccitt (data : list Z) (n : Z) : option Z :=
  for_loop n (λ i crc, d ← load data i; Some (crc16_byte crc d)) 0xFFFF.

Definition crc32_bit (crc : Z) : Z :=
  if negb (Z.land crc 1 =? 0)
  then Z.lxor (Z.shiftr crc 1) 0xEDB88320
  else Z.shiftr crc 1.

Definition crc32_byte (crc d : Z) : Z :=
  foldl (λ crc _, crc32_bit crc) (Z.lxor crc d) (seqZ 0 8).

Definition crc32 (data : list Z) (n : Z) : option Z :=
  crc ← for_loop n (λ i crc, d ← load data i; Some (crc32_byte crc d))
                 0xFFFFFFFF;
  Some (Z.lxor crc 0xFFFFFFFF).

Definition crc24_bit (crc : Z) : Z :=
  Z.land (if negb (Z.land crc 0x800000 =? 0)
          then Z.lxor (Z.shiftl crc 1 mod 2 ^ 32) 0xFFF409
          else Z.shiftl crc 1 mod 2 ^ 32)
         0xFFFFFF.

Definition crc24_byte (crc d : Z) : Z :=
  foldl (λ crc _, crc24_bit crc)
        (Z.lxor crc (Z.shiftl d 16 mod 2 ^ 32)) (seqZ 0 8).

Definition crc24_adsb (data : list Z) (n : Z) : option Z :=
  for_loop n (λ i crc, d ← load data i; Some (crc24_byte crc d)) 0.

(** An array of [uint8_t]. *)
Definition is_byte (b : Z) : Prop := 0 ≤ b < 256.

(** A register of width [w] shifted left once, with the polynomial added
    when the bit shifted out is set. *)
Definition crc_shl (w poly crc : Z) : Z :=
  Z.lxor (Z.shiftl crc 1) (if Z.testbit crc (w - 1) then poly else 0)
    mod 2 ^ w.

(** The same to the right, as the reflected CRC-32 does. *)
Definition crc_shr (poly crc : Z) : Z :=
  Z.lxor (Z.shiftr crc 1) (if Z.testbit crc 0 then poly else 0).

(** ** Run-length encoding *)

(** [while (i + count < n && data[i + count] == val && count < 255) count++]:
    the condition is evaluated at most 255 times. *)
Fixpoint rle_run (fuel : nat) (data : list Z) (n i val count : Z)
  : option Z :=
  match fuel with
  | O => None
  | S fuel =>
      if decide (i + count < n) then
        d ← load data (i + count);
        if decide (d = val) then
          if decide (count < 255)
          then rle_run fuel data n i val (count + 1)
          else Some count
        else Some count
      else Some count
  end.

(** The turns of [while (i < n)], each of which moves [i] forward; the value
    returned and [out]. *)
Fixpoint rle_encode_loop (fuel : nat) (data : list Z) (n max_out : Z)
    (i pos : Z) (out : list Z) : option (Z * list Z) :=
  if decide (i < n) then
    match fuel with
    | O => None
    | S fuel =>
        val ← load data i;
        count ← rle_run 255 data n i val 1;
        if decide (pos + 2 > max_out) then Some (-1, out) else
        out ← store out pos (count mod 256);
        out ← store out (pos + 1) val;
        rle_encode_loop fuel data n max_out (i + count) (pos + 2) out
    end
  else Some (pos, out).

Definition rle_encode (data : list Z) (n : Z) (out : list Z) (max_out : Z)
  : option (Z * list Z) :=
  rle_encode_loop (Z.to_nat n) data n max_out 0 0 out.

(** A loop that a [return] has left, or its state. *)
Inductive flow : Type :=
  | Returned (ret : Z) (out : list Z)
  | Running (pos : Z) (out : list Z).

(** [for (j = 0; j < count; j++)] of [rle_decode]. *)
Definition rle_fill (count val max_out : Z) (st : flow) : option flow :=
  for_loop count (λ _ st,
    match st with
    | Returned _ _ => Some st
    | Running pos out =>
        if decide (pos >= max_out) then Some (Returned (-1) out)
        else out ← store out pos val; Some (Running (pos + 1) out)
    end) st.

(** [for (i = 0; i + 1 < n; i += 2)] runs [n / 2] times, the [k]-th turn
    with [i = 2 * k]. *)
Definition rle_decode (data : list Z) (n : Z) (out : list Z) (max_out : Z)
  : option (Z * list Z) :=
  st ← for_loop (n / 2) (λ k st,
          match st with
          | Returned _ _ => Some st
          | Running pos out =>
              count ← load data (2 * k);
              val ← load data (2 * k + 1);
              rle_fill count val max_out (Running pos out)
          end) (Running 0 out);
  Some (match st with
        | Returned ret out => (ret, out)
        | Running pos out => (pos, out)
        end).

(** The bytes that a sequence of (count, value) pairs stands for. *)
Fixpoint rle_expand_pairs (k : nat) (l : list Z) : list Z :=
  match k with
  | O => []
  | S k =>
      match l with
      | count :: val :: rest =>
          replicate (Z.to_nat count) val ++ rle_expand_pairs k rest
      | _ => []
      end
  end.

Definition rle_expand (l : list Z) : list Z :=
  rle_expand_pairs (length l / 2) l.

(** What [rle_decode] leaves in [out] when the pairs stand for [e]: as much
    of [e] as fits in [max_out] bytes, and the rest of [out] as it was. *)
Definition rle_written (e out : list Z) (max_out : Z) : list Z :=
  take (Z.to_nat max_out) e
  ++ drop (length e `min` Z.to_nat max_out) out.

(** ** Bits and bytes ([comms_utils.c])

    The arrays of one call do not overlap. *)

(** [*bits++ = (bytes[i] >> b) & 1], most significant bit first; the state
    is the offset of [bits] and the array. *)
Definition bits_from_bytes (bytes : list Z) (nbytes : Z) (bits : list Z)
  : option (list Z) :=
  st ← for_loop nbytes (λ i st,
          for_down 8 (λ b '(pos, bits),
            d ← load bytes i;
            bits ← store bits pos (Z.land (Z.shiftr d b) 1);
            Some (pos + 1, bits)) st) (0, bits);
  Some st.2.

(** [memset (buf, c, n)]; a negative [int] converts to a size beyond any
    array. *)
Definition memset (buf : list Z) (c n : Z) : option (list Z) :=
  if decide (0 ≤ n ≤ Z.of_nat (length buf))
  then Some (replicate (Z.to_nat n) c ++ drop (Z.to_nat n) buf) else None.

Definition bytes_from_bits (bits : list Z) (nbits : Z) (bytes : list Z)
  : option (list Z) :=
  let nbytes := (nbits + 7) `quot` 8 in
  bytes ← memset bytes 0 nbytes;
  for_loop nbits (λ i bytes,
    b ← load bits i;
    old ← load bytes (i `quot` 8);
    store bytes (i `quot` 8)
          (Z.lor old (Z.shiftl (Z.land b 1) (7 - i `rem` 8)))) bytes.

Definition bit_errors (a b : list Z) (n : Z) : option Z :=
  for_loop n (λ i count,
    x ← load a i;
    y ← load b i;
    Some (if decide (Z.land x 1 ≠ Z.land y 1) then count + 1 else count)) 0.

(** The eight bits of a byte, most significant first. *)
Definition byte_bits (d : Z) : list Z :=
  (λ b, Z.land (Z.shiftr d b) 1) <$> [7; 6; 5; 4; 3; 2; 1; 0].

(** ** Huffman coding with a given table

    The fields of [HuffmanTable] that the coder and the decoder read. *)

Record HuffmanTable : Type := mkHuffmanTable {
  n_symbols : Z;
  codes : list Z;
  lengths : list Z
}.

(** [(code >> b) & 1] on a [uint32_t]: a shift by 32 or more is undefined. *)
Definition huff_bit (code b : Z) : option Z :=
  if decide (0 ≤ b < 32) then Some (Z.land (Z.shiftr code b) 1) else None.

Definition huff_emit (code max_bits : Z) (b : Z) (st : flow) : option flow :=
  match st with
  | Returned _ _ => Some st
  | Running pos bits =>
      if decide (pos >= max_bits) then Some (Returned (-1) bits)
      else
        v ← huff_bit code b;
        bits ← store bits pos v;
        Some (Running (pos + 1) bits)
  end.

Definition huffman_encode (ht : HuffmanTable) (syms : list Z) (n : Z)
    (bits : list Z) (max_bits : Z) : option (Z * list Z) :=
  st ← for_loop n (λ i st,
          match st with
          | Returned _ _ => Some st
          | Running pos bits =>
              sym ← load syms i;
              if decide (sym >= n_symbols ht) then Some (Returned (-1) bits)
              else
                len ← load (lengths ht) sym;
                code ← load (codes ht) sym;
                for_down len (huff_emit code max_bits) (Running pos bits)
          end) (Running 0 bits);
  Some (match st with
        | Returned ret bits => (ret, bits)
        | Running pos bits => (pos, bits)
        end).

(** [for (b = 0; b < len && match; b++)]: the flag [match]. *)
Definition huff_match (code len : Z) (bits : list Z) (pos : Z) : option bool :=
  for_loop len (λ b m,
    if m : bool then
      c ← huff_bit code (len - 1 - b);
      x ← load bits (pos + b);
      Some (bool_decide (c = Z.land x 1))
    else Some false) true.

(** [for (s = 0; s < ht->n_symbols && !found; s++)]: the flag [found], [pos],
    [nsyms] and [syms]. *)
Definition huff_search (ht : HuffmanTable) (bits : list Z) (nbits : Z)
    (st : bool * Z * Z * list Z) : option (bool * Z * Z * list Z) :=
  for_loop (n_symbols ht) (λ s '(found, pos, nsyms, syms),
    if found : bool then Some (found, pos, nsyms, syms)
    else
      len ← load (lengths ht) s;
      if decide (len = 0 ∨ pos + len > nbits)
      then Some (found, pos, nsyms, syms)
      else
        code ← load (codes ht) s;
        m ← huff_match code len bits pos;
        if m : bool then
          syms ← store syms nsyms (s mod 256);
          Some (true, pos + len, nsyms + 1, syms)
        else Some (found, pos, nsyms, syms)) st.

(** The turns of [while (pos < nbits && nsyms < max_syms)], each of which
    stores a symbol or leaves the loop. *)
Fixpoint huff_decode_loop (fuel : nat) (ht : HuffmanTable) (bits : list Z)
    (nbits max_syms pos nsyms : Z) (syms : list Z) : option (Z * list Z) :=
  if decide (pos < nbits ∧ nsyms < max_syms) then
    match fuel with
    | O => None
    | S fuel =>
        '(found, pos', nsyms', syms') ←
          huff_search ht bits nbits (false, pos, nsyms, syms);
        if found : bool
        then huff_decode_loop fuel ht bits nbits max_syms pos' nsyms' syms'
        else Some (nsyms, syms)
    end
  else Some (nsyms, syms).

Definition huffman_decode (ht : HuffmanTable) (bits : list Z) (nbits : Z)
    (syms : list Z) (max_syms : Z) : option (Z * list Z) :=
  huff_decode_loop (Z.to_nat max_syms) ht bits nbits max_syms 0 0 syms.

(** The bits of a code word, most significant first. *)
Definition code_bits (code len : Z) : list Z :=
  (λ b, Z.land (Z.shiftr code b) 1) <$> reverse (seqZ 0 len).

Definition sym_bits (ht : HuffmanTable) (s : Z) : list Z :=
  code_bits (codes ht !!! Z.to_nat s) (lengths ht !!! Z.to_nat s).

(** A table as [huffman_build] fills it: the arrays of the structure, code
    words of at most 32 bits, and no code word a prefix of another. *)
Definition huff_table_ok (ht : HuffmanTable) : Prop :=
  0 ≤ n_symbols ht ≤ 256
  ∧ length (codes ht) = 256%nat ∧ length (lengths ht) = 256%nat
  ∧ (∀ s, 0 ≤ s < n_symbols ht → 0 ≤ lengths ht !!! Z.to_nat s ≤ 32)
  ∧ (∀ s s', 0 ≤ s < n_symbols ht → 0 ≤ s' < n_symbols ht →
       0 < lengths ht !!! Z.to_nat s → 0 < lengths ht !!! Z.to_nat s' →
       sym_bits ht s `prefix_of` sym_bits ht s' → s = s').

(** A symbol that the table has a code word for. *)
Definition huff_coded (ht : HuffmanTable) (s : Z) : Prop :=
  0 ≤ s < n_symbols ht ∧ 0 < lengths ht !!! Z.to_nat s.

(** * Properties *)

(** ** Loops and memory accesses *)

Arguments popcount : simpl never.
Arguments expected : simpl never.
Arguments shift_in : simpl never.
Arguments next_state : simpl never.
Arguments full_state : simpl never.

Lemma for_loop_end {S} (n : Z) (body : Z → S → option S) (s : S) :
  n ≤ 0 → for_loop n body s = Some s.
Proof. intros Hn. unfold for_loop. by rewrite seqZ_nil. Qed.

Lemma for_loop_snoc {S} (n : Z) (body : Z → S → option S) (s : S) :
  0 ≤ n → for_loop (n + 1) body s = for_loop n body s ≫= body n.
Proof.
  intros Hn. unfold for_loop.
  replace (n + 1) with (Z.of_nat (Datatypes.S (Z.to_nat n))) by lia.
  rewrite seqZ_S, foldl_snoc, Z2Nat.id by lia. done.
Qed.

(** The invariant rule of an ascending loop: a body that keeps the
    invariant and is defined on it runs to the end. *)
Lemma for_loop_inv {S} (P : Z → S → Prop) (n : Z) (body : Z → S → option S)
    (s : S) :
  0 ≤ n → P 0 s →
  (∀ i st, 0 ≤ i < n → P i st → ∃ st', body i st = Some st' ∧ P (i + 1) st') →
  ∃ st', for_loop n body s = Some st' ∧ P n st'.
Proof.
  intros Hn H0 Hstep.
  assert (∀ k : nat, Z.of_nat k ≤ n →
            ∃ st', for_loop (Z.of_nat k) body s = Some st' ∧ P (Z.of_nat k) st')
    as Hall.
  { induction k as [|k IH]; intros Hk.
    - exists s. split; [by apply for_loop_end | done].
    - destruct IH as (st & Hrun & HP); [lia|].
      destruct (Hstep (Z.of_nat k) st) as (st' & Hb & HP'); [lia | done |].
      exists st'. replace (Z.of_nat (Datatypes.S k)) with (Z.of_nat k + 1) by lia.
      rewrite for_loop_snoc, Hrun by lia. done. }
  specialize (Hall (Z.to_nat n)). rewrite Z2Nat.id in Hall by done.
  apply Hall. lia.
Qed.

(** The invariant rule for two loops run side by side. *)
Lemma for_loop_rel {S T} (P : Z → S → T → Prop) (n : Z)
    (f : Z → S → option S) (g : Z → T → option T) (s : S) (t : T) :
  0 ≤ n → P 0 s t →
  (∀ i s t, 0 ≤ i < n → P i s t →
     ∃ s' t', f i s = Some s' ∧ g i t = Some t' ∧ P (i + 1) s' t') →
  ∃ s' t', for_loop n f s = Some s' ∧ for_loop n g t = Some t' ∧ P n s' t'.
Proof.
  intros Hn H0 Hstep.
  assert (∀ k : nat, Z.of_nat k ≤ n →
            ∃ s' t', for_loop (Z.of_nat k) f s = Some s'
                     ∧ for_loop (Z.of_nat k) g t = Some t'
                     ∧ P (Z.of_nat k) s' t') as Hall.
  { induction k as [|k IH]; intros Hk.
    - exists s, t. rewrite !for_loop_end by lia. done.
    - destruct IH as (s1 & t1 & Hf & Hg & HP); [lia|].
      destruct (Hstep (Z.of_nat k) s1 t1) as (s2 & t2 & Hf2 & Hg2 & HP2);
        [lia | done |].
      exists s2, t2.
      replace (Z.of_nat (Datatypes.S k)) with (Z.of_nat k + 1) by lia.
      rewrite !for_loop_snoc, Hf, Hg by lia. done. }
  specialize (Hall (Z.to_nat n)). rewrite Z2Nat.id in Hall by done.
  apply Hall. lia.
Qed.

(** Two loops whose bodies agree below the bound agree. *)
Lemma for_loop_ext {S} (n : Z) (f g : Z → S → option S) (s : S) :
  (∀ i st, 0 ≤ i < n → f i st = g i st) → for_loop n f s = for_loop n g s.
Proof.
  intros Hfg. destruct (decide (0 ≤ n)) as [Hn|Hn].
  - assert (∀ k : nat, Z.of_nat k ≤ n →
              for_loop (Z.of_nat k) f s = for_loop (Z.of_nat k) g s) as Hall.
    { induction k as [|k IH]; intros Hk; [done|].
      replace (Z.of_nat (Datatypes.S k)) with (Z.of_nat k + 1) by lia.
      rewrite !for_loop_snoc, IH by lia.
      destruct (for_loop (Z.of_nat k) g s); simpl; [apply Hfg; lia | done]. }
    specialize (Hall (Z.to_nat n)). rewrite Z2Nat.id in Hall by done.
    apply Hall. lia.
  - rewrite !for_loop_end by lia. done.
Qed.

Lemma load_Some {A} (buf : list A) (i : Z) (v : A) :
  0 ≤ i → buf !! Z.to_nat i = Some v → load buf i = Some v.
Proof. intros Hi Hl. unfold load. by rewrite decide_True. Qed.

Lemma load_inv {A} (buf : list A) (i : Z) (v : A) :
  load buf i = Some v → 0 ≤ i ∧ buf !! Z.to_nat i = Some v.
Proof. unfold load. case_decide; [done | discriminate]. Qed.

Lemma store_Some {A} (buf : list A) (i : Z) (v : A) :
  0 ≤ i < Z.of_nat (length buf) → store buf i v = Some (<[Z.to_nat i := v]> buf).
Proof. intros Hi. unfold store. by rewrite decide_True. Qed.

Lemma store_inv {A} (buf buf' : list A) (i : Z) (v : A) :
  store buf i v = Some buf' →
  0 ≤ i < Z.of_nat (length buf) ∧ buf' = <[Z.to_nat i := v]> buf.
Proof. unfold store. case_decide; [intros [= <-]; done | discriminate]. Qed.

(** Writing the cell that follows a written prefix extends the prefix. *)
Lemma store_next {A} (pre buf : list A) (i : Z) (v : A) :
  i = Z.of_nat (length pre) → i < Z.of_nat (length buf) →
  store (pre ++ drop (Z.to_nat i) buf) i v
  = Some ((pre ++ [v]) ++ drop (Z.to_nat (i + 1)) buf).
Proof.
  intros -> Hlt. rewrite Nat2Z.id.
  rewrite store_Some by (rewrite length_app, length_drop; lia).
  f_equal. rewrite Nat2Z.id.
  replace (Z.to_nat (Z.of_nat (length pre) + 1)) with (Datatypes.S (length pre)) by lia.
  rewrite insert_app_r_alt, Nat.sub_diag, <- app_assoc by lia. f_equal.
  destruct (drop (length pre) buf) as [|w rest] eqn:Hd.
  - apply (f_equal length) in Hd. rewrite length_drop in Hd. simpl in Hd. lia.
  - simpl. f_equal. rewrite <- (drop_drop buf 1 (length pre)) || idtac.
    change (Datatypes.S (length pre)) with (1 + length pre)%nat.
    rewrite Nat.add_comm, <- drop_drop, Hd. done.
Qed.

(** ** The encoder *)

Lemma conv_bits_snoc (state : Z) (x : list Z) (b : Z) :
  conv_bits state (x ++ [b])
  = conv_bits state x
    ++ [expected CONV_G0 (shift_in (foldl shift_in state x) b);
        expected CONV_G1 (shift_in (foldl shift_in state x) b)].
Proof. revert state. induction x as [|a x IH]; intros state; simpl; [done|]. by rewrite IH. Qed.

Lemma length_conv_bits (state : Z) (x : list Z) :
  length (conv_bits state x) = (2 * length x)%nat.
Proof. revert state. induction x as [|a x IH]; intros state; simpl; [done|]. rewrite IH. lia. Qed.

(** [conv_encode] is defined whenever the two arrays are long enough, and
    overwrites exactly the first [2 * n] cells of [out]. *)
Lemma conv_encode_run (x : list Z) (n : Z) (out : list Z) :
  0 ≤ n ≤ Z.of_nat (length x) → 2 * n ≤ Z.of_nat (length out) →
  conv_encode x n out
  = Some (conv_bits 0 (take (Z.to_nat n) x) ++ drop (Z.to_nat (2 * n)) out).
Proof.
  intros Hn Hout. unfold conv_encode.
  destruct (for_loop_inv
    (λ i st, st = (enc_state (take (Z.to_nat i) x),
                   conv_bits 0 (take (Z.to_nat i) x) ++ drop (Z.to_nat (2 * i)) out))
    n (conv_encode_body x) (0, out)) as (st & -> & ->); [lia | done | | done].
  intros i st Hi ->. unfold conv_encode_body.
  destruct (lookup_lt_is_Some_2 x (Z.to_nat i)) as [b Hb]; [lia|].
  rewrite (load_Some _ _ b) by (done || lia). simpl.
  set (pre := conv_bits 0 (take (Z.to_nat i) x)).
  assert (Z.of_nat (length pre) = 2 * i) as Hpre.
  { unfold pre. rewrite length_conv_bits, length_take. lia. }
  rewrite store_next by lia. simpl.
  rewrite store_next by (rewrite ?length_app; simpl; lia). simpl.
  eexists. split; [done|].
  replace (Z.to_nat (i + 1)) with (Datatypes.S (Z.to_nat i)) by lia.
  rewrite (take_S_r _ _ b) by done.
  unfold enc_state. rewrite foldl_snoc, conv_bits_snoc.
  fold pre. rewrite <- !app_assoc. simpl.
  do 5 f_equal. lia.
Qed.

(** ** The trellis: facts checked over the 64 states *)

Lemma CONV_STATES_val : CONV_STATES = 64.
Proof. reflexivity. Qed.

Lemma seqZ_1 (m : Z) : seqZ m 1 = [m].
Proof. rewrite seqZ_cons, seqZ_nil by lia. done. Qed.

Lemma range_forallb (P : Z → bool) (n : Z) :
  forallb P (seqZ 0 n) = true → ∀ s, 0 ≤ s < n → P s = true.
Proof.
  intros Hall s Hs. rewrite forallb_forall in Hall. apply Hall.
  apply list_elem_of_In, elem_of_seqZ. lia.
Qed.

Lemma range2_forallb (P : Z → Z → bool) (n m : Z) :
  forallb (λ s, forallb (P s) (seqZ 0 m)) (seqZ 0 n) = true →
  ∀ s b, 0 ≤ s < n → 0 ≤ b < m → P s b = true.
Proof.
  intros Hall s b Hs Hb.
  apply (range_forallb (P s) m); [|done].
  by apply (range_forallb (λ s, forallb (P s) (seqZ 0 m)) n).
Qed.

Lemma next_state_range (s bit : Z) :
  0 ≤ s < 64 → 0 ≤ bit < 2 → 0 ≤ next_state s bit < 64.
Proof.
  intros Hs Hb.
  pose proof (range2_forallb
    (λ s b, (0 <=? next_state s b) && (next_state s b <? 64)) 64 2
    ltac:(vm_compute; reflexivity) s bit Hs Hb) as H.
  simpl in H. lia.
Qed.

(** The two transitions into [ns] leave [ns / 2] and [ns / 2 + 32], both
    with input bit [ns mod 2]. *)
Lemma next_state_pred (s bit ns : Z) :
  0 ≤ s < 64 → 0 ≤ bit < 2 → 0 ≤ ns < 64 →
  ns = next_state s bit ↔ bit = ns `mod` 2 ∧ (s = ns / 2 ∨ s = ns / 2 + 32).
Proof.
  intros Hs Hb Hns.
  pose proof (range2_forallb
    (λ s b, (next_state s b =? (2 * s + b) `mod` 64)) 64 2
    ltac:(vm_compute; reflexivity) s bit Hs Hb) as H.
  simpl in H. apply Z.eqb_eq in H. rewrite H.
  Z.div_mod_to_equations. lia.
Qed.

(** ** One time step, cell by cell *)

Section CellLemmas.
Context {R : Type} (metric : R → Z → Z → Z → Z).
Implicit Types (r : R) (pm : list Z) (acc : list Z * path_row).

Lemma acs_bit_cell r pm s acc bit ns :
  wf_acc acc → 0 ≤ s < 64 → 0 ≤ bit < 2 → 0 ≤ ns < 64 →
  wf_acc (acs_bit metric r pm s acc bit)
  ∧ cell_of (acs_bit metric r pm s acc bit) ns
    = cell_bit metric r pm ns s (cell_of acc ns) bit.
Proof.
  destruct acc as [pmn row]. intros [Hl1 Hl2] Hs Hb Hns. simpl in *.
  pose proof (next_state_range s bit Hs Hb) as Hnx.
  unfold acs_bit, cell_bit, relax, cell_of, wf_acc. simpl.
  destruct (_ <? pm_get pmn (next_state s bit)) eqn:E; simpl.
  - split; [unfold pm_set; split; rewrite length_insert; done|].
    destruct (decide (ns = next_state s bit)) as [Hd|Hd].
    + subst ns. rewrite E. unfold pm_get, pm_set.
      rewrite !list_lookup_total_insert_eq by lia. done.
    + unfold pm_get, pm_set.
      rewrite !list_lookup_total_insert_ne by lia. done.
  - split; [done|]. destruct (decide (ns = next_state s bit)) as [Hd|Hd]; [|done]. subst ns. by rewrite E.
Qed.

Lemma acs_state_cell r pm acc s ns :
  wf_acc acc → 0 ≤ s < 64 → 0 ≤ ns < 64 →
  wf_acc (acs_state metric r pm acc s)
  ∧ cell_of (acs_state metric r pm acc s) ns
    = cell_state metric r pm ns (cell_of acc ns) s.
Proof.
  intros Hwf Hs Hns. unfold acs_state, cell_state.
  destruct (VITERBI_INF <=? pm_get pm s); [done|].
  change (seqZ 0 2) with [0; 1]. cbn [foldl].
  destruct (acs_bit_cell r pm s acc 0 ns) as [Hwf0 E0]; [done || lia ..|].
  destruct (acs_bit_cell r pm s (acs_bit metric r pm s acc 0) 1 ns)
    as [Hwf1 ->]; [done || lia ..|].
  by rewrite E0.
Qed.

Lemma acs_fold_cell r pm acc (l : list Z) ns :
  wf_acc acc → Forall (λ s, 0 ≤ s < 64) l → 0 ≤ ns < 64 →
  wf_acc (foldl (acs_state metric r pm) acc l)
  ∧ cell_of (foldl (acs_state metric r pm) acc l) ns
    = foldl (cell_state metric r pm ns) (cell_of acc ns) l.
Proof.
  intros Hwf Hl Hns. revert acc Hwf.
  induction Hl as [|s l Hs Hl IH]; intros acc Hwf; simpl; [done|].
  destruct (acs_state_cell r pm acc s ns) as [Hwf' <-]; [done..|].
  by apply IH.
Qed.

(** A state that is no predecessor of [ns] leaves its cell alone. *)
Lemma cell_state_other r pm ns c s :
  0 ≤ s < 64 → 0 ≤ ns < 64 → s ≠ ns / 2 → s ≠ ns / 2 + 32 →
  cell_state metric r pm ns c s = c.
Proof.
  intros Hs Hns H1 H2. unfold cell_state.
  destruct (VITERBI_INF <=? pm_get pm s); [done|].
  change (seqZ 0 2) with [0; 1]. cbn [foldl]. unfold cell_bit.
  rewrite !decide_False; [done | |];
    intros Heq; apply next_state_pred in Heq; lia.
Qed.

Lemma cell_state_pred r pm ns c p :
  0 ≤ ns < 64 → p = ns / 2 ∨ p = ns / 2 + 32 →
  cell_state metric r pm ns c p = cell_pred metric r pm ns c p.
Proof.
  intros Hns Hp. unfold cell_state, cell_pred.
  destruct (VITERBI_INF <=? pm_get pm p); [done|].
  change (seqZ 0 2) with [0; 1]. cbn [foldl]. unfold cell_bit.
  assert (0 ≤ p < 64) as Hpr by (Z.div_mod_to_equations; lia).
  assert (ns `mod` 2 = 0 ∨ ns `mod` 2 = 1) as [Hm|Hm]
    by (Z.div_mod_to_equations; lia); rewrite Hm.
  - rewrite (decide_True (P := ns = next_state p 0))
      by (apply next_state_pred; lia).
    rewrite (decide_False (P := ns = next_state p 1)); [done|].
    intros Heq; apply next_state_pred in Heq; lia.
  - rewrite (decide_False (P := ns = next_state p 0))
      by (intros Heq; apply next_state_pred in Heq; lia).
    rewrite (decide_True (P := ns = next_state p 1)); [done|].
    apply next_state_pred; lia.
Qed.

Lemma cell_fold_other r pm ns c (l : list Z) :
  0 ≤ ns < 64 →
  Forall (λ s, 0 ≤ s < 64 ∧ s ≠ ns / 2 ∧ s ≠ ns / 2 + 32) l →
  foldl (cell_state metric r pm ns) c l = c.
Proof.
  intros Hns Hl. induction Hl as [|s l (Hs & H1 & H2) Hl IH]; simpl; [done|].
  by rewrite cell_state_other.
Qed.

(** The cell of [ns] after a time step: only its two predecessors count,
    the lower-numbered one first. *)
Lemma viterbi_step_cell r pm (row : path_row) ns :
  length row = 64%nat → 0 ≤ ns < 64 →
  wf_acc (viterbi_step metric r pm row)
  ∧ cell_of (viterbi_step metric r pm row) ns
    = cell_pred metric r pm ns
        (cell_pred metric r pm ns (VITERBI_INF, row !!! Z.to_nat ns) (ns / 2))
        (ns / 2 + 32).
Proof.
  intros Hrow Hns. unfold viterbi_step.
  destruct (acs_fold_cell r pm
    (replicate (Z.to_nat CONV_STATES) VITERBI_INF, row)
    (seqZ 0 CONV_STATES) ns) as [Hwf ->]; [| |done|].
  { split; [reflexivity | exact Hrow]. }
  { apply Forall_seqZ. intros s. rewrite CONV_STATES_val. lia. }
  split; [done|].
  assert (cell_of (replicate (Z.to_nat CONV_STATES) VITERBI_INF, row) ns
          = (VITERBI_INF, row !!! Z.to_nat ns)) as ->.
  { unfold cell_of, pm_get. cbn [fst snd]. f_equal.
    rewrite list_lookup_total_alt, lookup_replicate_2; [done|].
    rewrite CONV_STATES_val. lia. }
  set (p := ns / 2).
  assert (0 ≤ p < 32) as Hp by (unfold p; Z.div_mod_to_equations; lia).
  rewrite CONV_STATES_val.
  replace 64 with (p + (1 + (31 + (1 + (31 - p))))) at 1 by lia.
  rewrite (seqZ_app 0 p) by lia.
  rewrite (seqZ_app (0 + p) 1) by lia.
  rewrite (seqZ_app (0 + p + 1) 31) by lia.
  rewrite (seqZ_app (0 + p + 1 + 31) 1) by lia.
  rewrite !foldl_app, !seqZ_1. cbn [foldl].
  rewrite (cell_fold_other r pm ns _ (seqZ 0 p));
    [|done | apply Forall_seqZ; fold p; lia].
  rewrite (cell_state_pred r pm ns _ (0 + p)) by (fold p; lia).
  rewrite (cell_fold_other r pm ns _ (seqZ (0 + p + 1) 31));
    [|done | apply Forall_seqZ; fold p; lia].
  rewrite (cell_state_pred r pm ns _ (0 + p + 1 + 31)) by (fold p; lia).
  rewrite (cell_fold_other r pm ns _ (seqZ _ (31 - p)));
    [|done | apply Forall_seqZ; fold p; lia].
  replace (0 + p) with p by lia.
  replace (p + 1 + 31) with (p + 32) by lia. done.
Qed.
End CellLemmas.

(** ** The final state *)

Lemma best_state_prefix (pm : list Z) (k : nat) :
  let b := foldl (λ best s, if pm_get pm s <? pm_get pm best then s else best)
                 0 (seqZ 1 (Z.of_nat k)) in
  0 ≤ b ≤ Z.of_nat k
  ∧ (∀ s, 0 ≤ s ≤ Z.of_nat k → pm_get pm b ≤ pm_get pm s)
  ∧ (∀ s, 0 ≤ s < b → pm_get pm b < pm_get pm s).
Proof.
  induction k as [|k IH].
  - simpl. split; [lia|]. split; [|lia].
    intros s Hs. replace s with 0 by lia. lia.
  - rewrite seqZ_S, foldl_snoc. cbv zeta in *.
    set (b := foldl _ 0 (seqZ 1 (Z.of_nat k))) in *.
    destruct IH as (Hb & Hmin & Hfirst).
    destruct (pm_get pm (1 + Z.of_nat k) <? pm_get pm b) eqn:E.
    + apply Z.ltb_lt in E. split; [lia|]. split.
      * intros s Hs. destruct (decide (s = 1 + Z.of_nat k)) as [->|Hne]; [lia|].
        specialize (Hmin s). lia.
      * intros s Hs. specialize (Hmin s). lia.
    + apply Z.ltb_ge in E. split; [lia|]. split; [|done].
      intros s Hs. destruct (decide (s = 1 + Z.of_nat k)) as [->|Hne]; [lia|].
      apply Hmin. lia.
Qed.

(** [best_state] is a state of minimum metric, and the lowest-numbered
    such state. *)
Lemma best_state_spec (pm : list Z) :
  0 ≤ best_state pm < 64
  ∧ (∀ s, 0 ≤ s < 64 → pm_get pm (best_state pm) ≤ pm_get pm s)
  ∧ (∀ s, 0 ≤ s < best_state pm → pm_get pm (best_state pm) < pm_get pm s).
Proof.
  unfold best_state. change (CONV_STATES - 1) with (Z.of_nat 63).
  destruct (best_state_prefix pm 63) as (Hb & Hmin & Hfirst).
  split; [lia|]. split; [|done]. intros s Hs. apply Hmin. lia.
Qed.

(** ** One time step of the hard decoder *)

Lemma ne_int_range (a b : Z) : 0 ≤ ne_int a b ≤ 1.
Proof. unfold ne_int. destruct (a =? b); lia. Qed.

Lemma candidate_hard_range (r : Z * Z) (pm : list Z) (s bit : Z) :
  pm_get pm s ≤ candidate metric_hard r pm s bit ≤ pm_get pm s + 2.
Proof.
  unfold candidate, metric_hard.
  pose proof (ne_int_range (expected CONV_G0 (full_state s bit)) r.1).
  pose proof (ne_int_range (expected CONV_G1 (full_state s bit)) r.2).
  lia.
Qed.

Lemma VITERBI_INF_big : 2 ^ 64 < VITERBI_INF.
Proof. reflexivity. Qed.

(** Splits the comparisons of a cell equation into cases. *)
Ltac cell_cases H :=
  unfold cell_pred, relax in H; cbn [fst snd] in H;
  repeat first
    [ match type of H with
      | context [fst (if ?a <=? ?b then _ else _)] =>
          destruct (Z.leb_spec a b); cbn [fst snd] in H
      | context [fst (if ?a <? ?b then _ else _)] =>
          destruct (Z.ltb_spec a b); cbn [fst snd] in H
      end
    | match type of H with
      | context [?a <=? ?b] => destruct (Z.leb_spec a b); cbn [fst snd] in H
      | context [?a <? ?b] => destruct (Z.ltb_spec a b); cbn [fst snd] in H
      end ].

Lemma hard_step_ok (r : Z * Z) (pm : list Z) (row : path_row) (t : Z)
    (pm' : list Z) (row' : path_row) :
  0 ≤ t ≤ 256 → pm_ok t pm → length row = 64%nat →
  viterbi_step metric_hard r pm row = (pm', row') →
  pm_ok (t + 1) pm' ∧ length row' = 64%nat
  ∧ (∀ ns, 0 ≤ ns < 64 → pm_get pm' ns < VITERBI_INF →
       ∃ p, row' !! Z.to_nat ns = Some (Some p) ∧ 0 ≤ p < 64
            ∧ pm_get pm p < VITERBI_INF)
  ∧ (∀ s, 0 ≤ s < 64 → pm_get pm s < VITERBI_INF →
       pm_get pm' (next_state s 0) < VITERBI_INF).
Proof.
  intros Ht [Hlen Hpm] Hrow Hstep.
  pose proof VITERBI_INF_big as Hbig. change (2 ^ 64) with 18446744073709551616 in Hbig.
  assert (∀ ns, 0 ≤ ns < 64 →
    (length pm' = 64%nat ∧ length row' = 64%nat)
    ∧ (pm_get pm' ns, row' !!! Z.to_nat ns)
      = cell_pred metric_hard r pm ns
          (cell_pred metric_hard r pm ns (VITERBI_INF, row !!! Z.to_nat ns) (ns / 2))
          (ns / 2 + 32)) as Hcell.
  { intros ns Hns.
    pose proof (viterbi_step_cell metric_hard r pm row ns Hrow Hns) as H.
    by rewrite Hstep in H. }
  assert (∀ ns, 0 ≤ ns < 64 → 0 ≤ ns / 2 < 64 ∧ 0 ≤ ns / 2 + 32 < 64) as Hpred
    by (intros; Z.div_mod_to_equations; lia).
  destruct (Hcell 0) as [[Hl1 Hl2] _]; [lia|].
  split; [|split; [done|split]].
  - split; [done|]. intros ns Hns.
    destruct (Hcell ns Hns) as [_ Hc]. destruct (Hpred ns Hns) as [H0 H1].
    pose proof (Hpm _ H0). pose proof (Hpm _ H1).
    pose proof (candidate_hard_range r pm (ns / 2) (ns `mod` 2)).
    pose proof (candidate_hard_range r pm (ns / 2 + 32) (ns `mod` 2)).
    cell_cases Hc; injection Hc as -> _; lia.
  - intros ns Hns Hfin.
    destruct (Hcell ns Hns) as [_ Hc]. destruct (Hpred ns Hns) as [H0 H1].
    pose proof (Hpm _ H0). pose proof (Hpm _ H1).
    pose proof (candidate_hard_range r pm (ns / 2) (ns `mod` 2)).
    pose proof (candidate_hard_range r pm (ns / 2 + 32) (ns `mod` 2)).
    assert (∀ p, row' !!! Z.to_nat ns = Some p →
                 row' !! Z.to_nat ns = Some (Some p)) as Hlk.
    { intros p <-. apply list_lookup_lookup_total_lt. lia. }
    cell_cases Hc; injection Hc as Hm Hr; try lia;
      (eexists; split; [apply Hlk; exact Hr | lia]).
  - intros s Hs Hfin.
    pose proof (next_state_range s 0 Hs ltac:(lia)) as Hns.
    destruct (Hcell _ Hns) as [_ Hc]. destruct (Hpred _ Hns) as [H0 H1].
    pose proof (Hpm _ H0). pose proof (Hpm _ H1).
    pose proof (candidate_hard_range r pm (next_state s 0 / 2) (next_state s 0 `mod` 2)).
    pose proof (candidate_hard_range r pm (next_state s 0 / 2 + 32) (next_state s 0 `mod` 2)).
    assert (0 = next_state s 0 `mod` 2
            ∧ (s = next_state s 0 / 2 ∨ s = next_state s 0 / 2 + 32)) as [_ Hsp]
      by (apply next_state_pred; lia).
    set (ns := next_state s 0) in *. clearbody ns.
    destruct Hsp as [-> | ->]; cell_cases Hc; injection Hc as Hm Hr; lia.
Qed.

(** ** The forward pass of the hard decoder *)

Lemma trace_ok_insert (path : list path_row) (k t : nat) (row : path_row) (s : Z) :
  (k ≤ t)%nat → trace_ok path k s → trace_ok (<[t := row]> path) k s.
Proof.
  intros Hk. revert s. induction k as [|k IH]; intros s; simpl; [done|].
  intros (Hs & row0 & p & Hl & Hr & Htr). split; [done|].
  exists row0, p. rewrite list_lookup_insert_ne by lia.
  split; [done|]. split; [done|]. apply IH; [lia | done].
Qed.

Lemma pm_init_get (s : Z) :
  0 ≤ s < 64 → pm_get pm_init s = if s =? 0 then 0 else VITERBI_INF.
Proof.
  intros Hs. apply Z.eqb_eq.
  apply (range_forallb
    (λ s, pm_get pm_init s =? if s =? 0 then 0 else VITERBI_INF) 64);
    [vm_compute; reflexivity | done].
Qed.

Lemma fwd_inv_init : fwd_inv 0 (pm_init, path_init).
Proof.
  unfold fwd_inv. cbn [fst snd]. split; [|split; [|split; [|split]]].
  - split; [reflexivity|]. intros s Hs. rewrite pm_init_get by done.
    destruct (s =? 0); lia.
  - unfold path_init. by rewrite length_replicate.
  - unfold path_init. apply Forall_replicate. by rewrite length_replicate.
  - exists 0. split; [lia|]. rewrite pm_init_get by lia. reflexivity.
  - intros; exact I.
Qed.

(** A step of the forward pass is defined on a received pair and keeps
    [fwd_inv]. *)
Lemma forward_body_hard (recv : Z → option (Z * Z)) (r : Z * Z) (t : Z)
    (pm : list Z) (path : list path_row) :
  0 ≤ t < 256 → recv t = Some r → fwd_inv t (pm, path) →
  ∃ row pm' row',
    path !! Z.to_nat t = Some row ∧ length row = 64%nat
    ∧ viterbi_step metric_hard r pm row = (pm', row')
    ∧ forward_body metric_hard recv t (pm, path)
      = Some (pm', <[Z.to_nat t := row']> path)
    ∧ fwd_inv (t + 1) (pm', <[Z.to_nat t := row']> path).
Proof.
  intros Ht Hr (Hpm & Hlen & Hrows & (s0 & Hs0 & Hfin0) & Htr). cbn [fst snd] in *.
  destruct (lookup_lt_is_Some_2 path (Z.to_nat t)) as [row Hrow]; [lia|].
  assert (length row = 64%nat) as Hrl
    by (eapply (Forall_lookup_1 _ _ _ _ Hrows); done).
  destruct (viterbi_step metric_hard r pm row) as [pm' row'] eqn:Hstep.
  destruct (hard_step_ok r pm row t pm' row') as (Hpm' & Hrl' & Hsurv & Hnext);
    [lia | done..|].
  exists row, pm', row'. split; [done|]. split; [done|]. split; [done|]. split.
  - unfold forward_body. rewrite Hr. simpl.
    rewrite (load_Some _ _ row) by (lia || done). simpl.
    rewrite Hstep. rewrite store_Some by lia. done.
  - unfold fwd_inv. cbn [fst snd]. split; [done|].
    split; [by rewrite length_insert|].
    split; [by apply Forall_insert|].
    split.
    + exists (next_state s0 0). split; [apply next_state_range; lia|].
      by apply Hnext.
    + intros ns Hns Hfin.
      destruct (Hsurv ns Hns Hfin) as (p & Hp & Hpr & Hpfin).
      replace (Z.to_nat (t + 1)) with (S (Z.to_nat t)) by lia.
      simpl. split; [lia|]. exists row', p.
      rewrite list_lookup_insert_eq by lia.
      split; [done|]. split; [done|].
      apply trace_ok_insert; [lia|]. by apply Htr.
Qed.

Lemma recv_hard_Some (coded : list Z) (t : Z) :
  0 ≤ t → 2 * t + 2 ≤ Z.of_nat (length coded) →
  ∃ c0 c1, coded !! Z.to_nat (2 * t) = Some c0
           ∧ coded !! Z.to_nat (2 * t + 1) = Some c1
           ∧ recv_hard coded t = Some (Z.land c0 1, Z.land c1 1).
Proof.
  intros Ht Hlen.
  destruct (lookup_lt_is_Some_2 coded (Z.to_nat (2 * t))) as [c0 H0]; [lia|].
  destruct (lookup_lt_is_Some_2 coded (Z.to_nat (2 * t + 1))) as [c1 H1]; [lia|].
  exists c0, c1. split; [done|]. split; [done|].
  unfold recv_hard. rewrite (load_Some coded (2 * t) c0) by (lia || done).
  rewrite (load_Some coded (2 * t + 1) c1) by (lia || done). done.
Qed.

Lemma viterbi_forward_hard (coded : list Z) (max_len : Z) :
  0 ≤ max_len ≤ 256 → 2 * max_len ≤ Z.of_nat (length coded) →
  ∃ pm path,
    viterbi_forward metric_hard (recv_hard coded) max_len = Some (pm, path)
    ∧ fwd_inv max_len (pm, path).
Proof.
  intros Hm Hlen. unfold viterbi_forward.
  destruct (for_loop_inv fwd_inv max_len
              (forward_body metric_hard (recv_hard coded)) (pm_init, path_init))
    as ([pm path] & Hrun & Hinv); [lia | apply fwd_inv_init | | by exists pm, path].
  intros t [pm path] Ht Hinv.
  destruct (recv_hard_Some coded t) as (c0 & c1 & _ & _ & Hr); [lia..|].
  destruct (forward_body_hard _ _ t pm path ltac:(lia) Hr Hinv)
    as (row & pm' & row' & _ & _ & _ & Hbody & Hinv').
  eauto.
Qed.

(** ** Traceback *)

Lemma length_trace_bits (path : list path_row) (k : nat) (s : Z) :
  length (trace_bits path k s) = k.
Proof.
  revert s. induction k as [|k IH]; intros s; simpl; [done|].
  rewrite length_app, IH. simpl. lia.
Qed.

Lemma traceback_body_run (path : list path_row) (t s : Z) (decoded : list Z)
    (row : path_row) (p : Z) :
  0 ≤ t < Z.of_nat (length decoded) → 0 ≤ s →
  path !! Z.to_nat t = Some row → row !! Z.to_nat s = Some (Some p) →
  traceback_body path t (s, decoded)
  = Some (p, <[Z.to_nat t := out_bit s]> decoded).
Proof.
  intros Ht Hs Hrow Hp. unfold traceback_body, load_init.
  rewrite (load_Some path t row) by (lia || done). cbn [mbind option_bind].
  rewrite (load_Some row s (Some p)) by (lia || done).
  cbn [mjoin option_join mbind option_bind].
  rewrite store_Some by lia. done.
Qed.

(** From a state whose survivors are written the traceback is defined; it
    overwrites [decoded[0 .. k - 1]] and nothing else. *)
Lemma traceback_loop_run (path : list path_row) (k : nat) (s : Z)
    (decoded : list Z) :
  trace_ok path k s → (k ≤ length decoded)%nat →
  ∃ s0, for_down_nat k (traceback_body path) (s, decoded)
        = Some (s0, trace_bits path k s ++ drop k decoded).
Proof.
  revert s decoded. induction k as [|k IH]; intros s decoded Htr Hlen.
  - exists s. simpl. by rewrite drop_0.
  - destruct Htr as (Hs & row & p & Hl & Hr & Htr).
    cbn [for_down_nat].
    rewrite (traceback_body_run path (Z.of_nat k) s decoded row p)
      by (lia || done || by rewrite Nat2Z.id).
    cbn [mbind option_bind]. rewrite Nat2Z.id.
    destruct (IH p (<[k := out_bit s]> decoded) Htr) as (s0 & ->);
      [rewrite length_insert; lia|].
    exists s0. do 2 f_equal. cbn [trace_bits].
    assert (survivor path k s = p) as ->.
    { unfold survivor. rewrite Hl. simpl. by rewrite Hr. }
    rewrite (drop_S _ (out_bit s) k) by (apply list_lookup_insert_eq; lia).
    rewrite drop_insert_lt by lia. rewrite <- app_assoc. done.
Qed.

Lemma traceback_run (path : list path_row) (max_len best : Z) (decoded : list Z) :
  trace_ok path (Z.to_nat max_len) best →
  max_len ≤ Z.of_nat (length decoded) →
  traceback path max_len best decoded
  = Some (trace_bits path (Z.to_nat max_len) best
          ++ drop (Z.to_nat max_len) decoded).
Proof.
  intros Htr Hlen. unfold traceback, for_down.
  destruct (traceback_loop_run path (Z.to_nat max_len) best decoded)
    as (s0 & ->); [done | lia | done].
Qed.

(** ** The hard decoder on any received sequence *)

Lemma max_len_of_range (n_coded : Z) :
  1 ≤ Z.quot n_coded 2 →
  max_len_of n_coded = Z.min (Z.quot n_coded 2) 256
  ∧ 1 ≤ max_len_of n_coded ≤ 256.
Proof.
  intros Hn. unfold max_len_of. cbv zeta.
  destruct (Z.ltb_spec (Z.quot n_coded 2) 256); lia.
Qed.

Lemma best_state_reachable (t : Z) (pm : list Z) (path : list path_row) :
  fwd_inv t (pm, path) →
  0 ≤ best_state pm < 64 ∧ trace_ok path (Z.to_nat t) (best_state pm).
Proof.
  intros (_ & _ & _ & (s & Hs & Hfin) & Htr). cbn [fst snd] in *.
  destruct (best_state_spec pm) as (Hb & Hmin & _).
  split; [done|]. apply Htr; [done|]. specialize (Hmin s Hs). lia.
Qed.

(** The decoder is defined whenever the arrays are long enough for the
    [max_len] steps it runs; it returns [max_len] and overwrites exactly
    [decoded[0 .. max_len - 1]]. *)
Lemma viterbi_decode_run (coded : list Z) (n_coded : Z) (decoded : list Z) :
  1 ≤ Z.quot n_coded 2 →
  2 * max_len_of n_coded ≤ Z.of_nat (length coded) →
  max_len_of n_coded ≤ Z.of_nat (length decoded) →
  ∃ pm path,
    viterbi_forward metric_hard (recv_hard coded) (max_len_of n_coded)
    = Some (pm, path)
    ∧ viterbi_decode coded n_coded decoded
      = Some (max_len_of n_coded,
              trace_bits path (Z.to_nat (max_len_of n_coded)) (best_state pm)
              ++ drop (Z.to_nat (max_len_of n_coded)) decoded).
Proof.
  intros Hn Hc Hd. destruct (max_len_of_range n_coded Hn) as [_ Hm].
  destruct (viterbi_forward_hard coded (max_len_of n_coded))
    as (pm & path & Hfwd & Hinv); [lia | done |].
  exists pm, path. split; [done|].
  unfold viterbi_decode. cbv zeta.
  destruct (Z.ltb_spec (Z.quot n_coded 2) 1); [lia|].
  rewrite Hfwd. simpl.
  destruct (best_state_reachable _ _ _ Hinv) as [_ Htr].
  rewrite traceback_run by done. done.
Qed.

(** ** The encoder register and the trellis *)

Lemma shift_in_range (state b : Z) : 0 ≤ shift_in state b < 128.
Proof.
  unfold shift_in. change (CONV_STATES * 2 - 1) with (Z.ones 7).
  rewrite Z.land_ones by lia. apply Z.mod_pos_bound. lia.
Qed.

Lemma enc_state_range (x : list Z) : 0 ≤ enc_state x < 128.
Proof.
  unfold enc_state. destruct x as [|b x] using rev_ind; [simpl; lia|].
  rewrite foldl_snoc. apply shift_in_range.
Qed.

Lemma land_1_range (b : Z) : 0 ≤ Z.land b 1 < 2.
Proof.
  change 1 with (Z.ones 1). rewrite Z.land_ones by lia.
  apply Z.mod_pos_bound. lia.
Qed.

Lemma expected_range (g full : Z) : 0 ≤ expected g full < 2.
Proof. apply land_1_range. Qed.

(** The encoder register is the decoder's [full_state] of the state it
    leaves and the bit it shifts in; its low six bits are [next_state]. *)
Lemma shift_in_full_state (reg b : Z) :
  0 ≤ reg < 128 →
  shift_in reg b = full_state (Z.land reg 63) (Z.land b 1)
  ∧ Z.land (shift_in reg b) 63 = next_state (Z.land reg 63) (Z.land b 1).
Proof.
  intros Hreg. pose proof (land_1_range b) as Hb.
  unfold shift_in. generalize dependent (Z.land b 1). intros bit Hb.
  pose proof (range2_forallb
    (λ reg bit,
       (Z.land (Z.lor (Z.shiftl reg 1) bit) (CONV_STATES * 2 - 1)
          =? full_state (Z.land reg 63) bit)
       && (Z.land (Z.land (Z.lor (Z.shiftl reg 1) bit) (CONV_STATES * 2 - 1)) 63
          =? next_state (Z.land reg 63) bit)) 128 2
    ltac:(vm_compute; reflexivity) reg bit Hreg Hb) as H.
  cbv beta in H. apply andb_true_iff in H as [H1 H2].
  apply Z.eqb_eq in H1, H2. done.
Qed.

Lemma land_63_range (reg : Z) : 0 ≤ Z.land reg 63 < 64.
Proof.
  change 63 with (Z.ones 6). rewrite Z.land_ones by lia.
  apply Z.mod_pos_bound. lia.
Qed.

(** Both generators have their low bit set: the two transitions that
    leave a state expect complementary pairs. *)
Lemma expected_complement (s : Z) :
  0 ≤ s < 64 →
  expected CONV_G0 (full_state s 0) ≠ expected CONV_G0 (full_state s 1)
  ∧ expected CONV_G1 (full_state s 0) ≠ expected CONV_G1 (full_state s 1).
Proof.
  intros Hs.
  pose proof (range_forallb
    (λ s, negb (expected CONV_G0 (full_state s 0) =? expected CONV_G0 (full_state s 1))
          && negb (expected CONV_G1 (full_state s 0) =? expected CONV_G1 (full_state s 1)))
    64 ltac:(vm_compute; reflexivity) s Hs) as H.
  cbv beta in H. apply andb_true_iff in H as [H1 H2].
  apply negb_true_iff, Z.eqb_neq in H1, H2. split; assumption.
Qed.

Lemma conv_bits_lookup (state : Z) (x : list Z) (t : nat) :
  (t < length x)%nat →
  conv_bits state x !! (2 * t)%nat
  = Some (expected CONV_G0 (foldl shift_in state (take (S t) x)))
  ∧ conv_bits state x !! (2 * t + 1)%nat
    = Some (expected CONV_G1 (foldl shift_in state (take (S t) x))).
Proof.
  revert state t. induction x as [|b x IH]; intros state t Ht; simpl in Ht; [lia|].
  destruct t as [|t]; [done|].
  replace (2 * S t)%nat with (S (S (2 * t))) by lia.
  replace (S (S (2 * t)) + 1)%nat with (S (S (2 * t + 1))) by lia.
  cbn [conv_bits]. cbv zeta. rewrite !lookup_cons.
  change (take (S (S t)) (b :: x)) with (b :: take (S t) x).
  cbn [foldl]. apply IH. lia.
Qed.

(** ** The bit the traceback writes *)

Lemma out_bit_testbit (s : Z) : out_bit s = Z.b2z (Z.testbit s 5).
Proof.
  unfold out_bit. change (CONV_K - 2) with 5.
  change 1 with (Z.ones 1). rewrite Z.land_ones by lia.
  change (2 ^ 1) with 2. rewrite Zmod_odd, <- Z.bit0_odd, Z.shiftr_spec by lia.
  simpl. by destruct (Z.testbit s 5).
Qed.

Lemma shift_in_testbit (state b k : Z) :
  0 ≤ k →
  Z.testbit (shift_in state b) k
  = (k <? 7) && (if k =? 0 then Z.testbit b 0 else Z.testbit state (k - 1)).
Proof.
  intros Hk. unfold shift_in. change (CONV_STATES * 2 - 1) with (Z.ones 7).
  rewrite Z.land_spec, Z.lor_spec.
  rewrite (Z.testbit_ones_nonneg 7 k) by lia.
  change (Z.land b 1) with (Z.land b (Z.ones 1)).
  rewrite Z.land_spec, (Z.testbit_ones_nonneg 1 k) by lia.
  rewrite andb_comm. f_equal.
  destruct (Z.eqb_spec k 0) as [->|Hk0].
  - rewrite Z.shiftl_spec_low by lia. simpl. by rewrite andb_true_r.
  - rewrite Z.shiftl_spec by lia.
    destruct (Z.ltb_spec k 1); [lia|]. by rewrite andb_false_r, orb_false_r.
Qed.

(** Bit [k] of the register is the input bit shifted in [k] steps ago. *)
Lemma enc_state_testbit (x : list Z) (k : nat) :
  Z.testbit (enc_state x) (Z.of_nat k)
  = (Z.of_nat k <? 7) && bool_decide (k < length x)%nat
    && Z.testbit (x !!! (length x - 1 - k)%nat) 0.
Proof.
  revert k. induction x as [|b x IH] using rev_ind; intros k.
  - simpl. rewrite Z.testbit_0_l. by rewrite andb_false_r.
  - unfold enc_state in *. rewrite foldl_snoc, shift_in_testbit by lia.
    rewrite length_app. simpl.
    destruct k as [|k].
    + simpl. rewrite bool_decide_true by lia. simpl.
      replace (length x + 1 - 1 - 0)%nat with (length x) by lia.
      rewrite list_lookup_total_middle by done. done.
    + destruct (Z.eqb_spec (Z.of_nat (S k)) 0); [lia|].
      replace (Z.of_nat (S k) - 1) with (Z.of_nat k) by lia.
      rewrite IH.
      destruct (Z.ltb_spec (Z.of_nat (S k)) 7); simpl; [|done].
      destruct (Z.ltb_spec (Z.of_nat k) 7); [|lia]. simpl.
      destruct (decide (k < length x)%nat) as [Hlt|Hge].
      * rewrite !bool_decide_true by lia. simpl.
        replace (length x + 1 - 1 - S k)%nat with (length x - 1 - k)%nat by lia.
        rewrite lookup_total_app_l by lia. done.
      * rewrite !bool_decide_false by lia. done.
Qed.

(** ** The hard decoder on the encoder's output *)

Lemma ne_int_ne (a b : Z) : a ≠ b → ne_int a b = 1.
Proof. intros H. unfold ne_int. by destruct (Z.eqb_spec a b). Qed.

Lemma hard_step_noiseless (r : Z * Z) (pm : list Z) (row : path_row)
    (σ β : Z) (pm' : list Z) (row' : path_row) :
  0 ≤ σ < 64 → 0 ≤ β < 2 → length row = 64%nat →
  pm_get pm σ = 0 →
  (∀ s, 0 ≤ s < 64 → s ≠ σ → 1 ≤ pm_get pm s) →
  r = (expected CONV_G0 (full_state σ β), expected CONV_G1 (full_state σ β)) →
  viterbi_step metric_hard r pm row = (pm', row') →
  pm_get pm' (next_state σ β) = 0
  ∧ row' !! Z.to_nat (next_state σ β) = Some (Some σ)
  ∧ ∀ ns, 0 ≤ ns < 64 → ns ≠ next_state σ β → 1 ≤ pm_get pm' ns.
Proof.
  intros Hσ Hβ Hrow Hzero Hpos -> Hstep.
  pose proof VITERBI_INF_big as Hbig. change (2 ^ 64) with 18446744073709551616 in Hbig.
  set (r := (expected CONV_G0 (full_state σ β), expected CONV_G1 (full_state σ β))) in *.
  assert (∀ ns, 0 ≤ ns < 64 →
    length row' = 64%nat
    ∧ (pm_get pm' ns, row' !!! Z.to_nat ns)
      = cell_pred metric_hard r pm ns
          (cell_pred metric_hard r pm ns (VITERBI_INF, row !!! Z.to_nat ns) (ns / 2))
          (ns / 2 + 32)) as Hcell.
  { intros ns Hns.
    pose proof (viterbi_step_cell metric_hard r pm row ns Hrow Hns) as [[_ H1] H2].
    by rewrite Hstep in H1, H2. }
  assert (candidate metric_hard r pm σ β = 0) as Htrue.
  { unfold candidate, metric_hard, r, ne_int. cbn [fst snd].
    rewrite Hzero, !Z.eqb_refl. done. }
  assert (∀ p bit, 0 ≤ p < 64 → 0 ≤ bit < 2 → p ≠ σ ∨ bit ≠ β →
                   1 ≤ candidate metric_hard r pm p bit) as Hother.
  { intros p bit Hp Hbit Hne.
    destruct (decide (p = σ)) as [->|Hpσ].
    - destruct (expected_complement σ Hσ) as [Hc _].
      unfold candidate, metric_hard, r. cbn [fst snd]. rewrite Hzero.
      pose proof (ne_int_range (expected CONV_G1 (full_state σ bit))
                               (expected CONV_G1 (full_state σ β))).
      rewrite (ne_int_ne (expected CONV_G0 (full_state σ bit))).
      + lia.
      + assert (bit = 0 ∧ β = 1 ∨ bit = 1 ∧ β = 0) as [[-> ->]|[-> ->]] by lia;
          congruence.
    - pose proof (candidate_hard_range r pm p bit).
      specialize (Hpos p Hp Hpσ). lia. }
  assert (∀ ns, 0 ≤ ns < 64 →
            0 ≤ ns / 2 < 64 ∧ 0 ≤ ns / 2 + 32 < 64 ∧ 0 ≤ ns `mod` 2 < 2) as Hpred
    by (intros; Z.div_mod_to_equations; lia).
  pose proof (next_state_range σ β Hσ Hβ) as Hnx.
  assert (pm_get pm' (next_state σ β) = 0
          ∧ row' !!! Z.to_nat (next_state σ β) = Some σ) as [Hz Hsv].
  { destruct (Hcell _ Hnx) as [_ Hc]. destruct (Hpred _ Hnx) as (H0 & H1 & H2).
    assert (β = next_state σ β `mod` 2
            ∧ (σ = next_state σ β / 2 ∨ σ = next_state σ β / 2 + 32)) as [Hb Hs]
      by (apply next_state_pred; lia).
    set (ns := next_state σ β) in *. clearbody ns.
    unfold cell_pred in Hc. rewrite <- Hb in Hc.
    destruct Hs as [Hs|Hs]; subst σ; rewrite Htrue, Hzero in Hc.
    - pose proof (Hother (ns / 2 + 32) β H1 Hβ ltac:(lia)).
      cell_cases Hc; injection Hc as Hm Hr;
        first [split; [lia | congruence] | exfalso; lia].
    - pose proof (Hother (ns / 2) β H0 Hβ ltac:(lia)).
      pose proof (Hpos (ns / 2) H0 ltac:(lia)).
      cell_cases Hc; injection Hc as Hm Hr;
        first [split; [lia | congruence] | exfalso; lia]. }
  split; [done|]. split.
  { rewrite <- Hsv. apply list_lookup_lookup_total_lt.
    destruct (Hcell _ Hnx) as [Hl _]. lia. }
  intros ns Hns Hne.
    destruct (Hcell _ Hns) as [_ Hc]. destruct (Hpred _ Hns) as (H0 & H1 & H2).
    assert (∀ p, p = ns / 2 ∨ p = ns / 2 + 32 →
                 1 ≤ candidate metric_hard r pm p (ns `mod` 2)) as Hc1.
    { intros p Hp. apply Hother; [lia | done |].
      destruct (decide (p = σ ∧ ns `mod` 2 = β)) as [[-> <-]|Hn]; [|lia].
      exfalso. apply Hne. apply next_state_pred; [done..|]. lia. }
    pose proof (Hc1 (ns / 2) ltac:(lia)).
    pose proof (Hc1 (ns / 2 + 32) ltac:(lia)).
    cell_cases Hc; injection Hc as Hm Hr; lia.
Qed.

Lemma sigma_range (x : list Z) (t : nat) : 0 ≤ sigma x t < 64.
Proof. apply land_63_range. Qed.

Lemma sigma_S (x : list Z) (t : nat) (b : Z) :
  x !! t = Some b →
  enc_state (take (S t) x) = full_state (sigma x t) (Z.land b 1)
  ∧ sigma x (S t) = next_state (sigma x t) (Z.land b 1).
Proof.
  intros Hb. unfold sigma. rewrite (take_S_r _ _ b) by done.
  unfold enc_state. rewrite foldl_snoc.
  apply shift_in_full_state, enc_state_range.
Qed.

Lemma land_1_idemp (a : Z) : Z.land (Z.land a 1) 1 = Z.land a 1.
Proof. by rewrite <- Z.land_assoc, Z.land_diag. Qed.

(** The forward pass on a sequence whose first [2 * max_len] cells are the
    encoder's output for [x]. *)
Lemma viterbi_forward_noiseless (x coded : list Z) (max_len : Z) :
  0 ≤ max_len ≤ 256 → max_len ≤ Z.of_nat (length x) →
  take (Z.to_nat (2 * max_len)) coded
  = conv_bits 0 (take (Z.to_nat max_len) x) →
  ∃ pm path,
    viterbi_forward metric_hard (recv_hard coded) max_len = Some (pm, path)
    ∧ fwd_inv max_len (pm, path) ∧ nl_inv x max_len (pm, path).
Proof.
  intros Hm Hx Hcoded. unfold viterbi_forward.
  destruct (for_loop_inv (λ t st, fwd_inv t st ∧ nl_inv x t st) max_len
              (forward_body metric_hard (recv_hard coded)) (pm_init, path_init))
    as ([pm path] & Hrun & Hinv & Hnl); [lia | | | by exists pm, path].
  { split; [apply fwd_inv_init|]. unfold nl_inv. cbn [fst snd].
    change (Z.to_nat 0) with 0%nat.
    assert (sigma x 0 = 0) as -> by (by unfold sigma; rewrite take_0).
    split; [done|]. split; [|lia].
    intros s Hs Hne. rewrite pm_init_get by done.
    destruct (Z.eqb_spec s 0); [done|]. unfold VITERBI_INF. lia. }
  intros t [pm path] Ht [Hinv (Hzero & Hpos & Hsurv)]. cbn [fst snd] in *.
  destruct (lookup_lt_is_Some_2 x (Z.to_nat t)) as [b Hb]; [lia|].
  destruct (sigma_S x (Z.to_nat t) b Hb) as [Hfull Hnext].
  destruct (conv_bits_lookup 0 (take (Z.to_nat max_len) x) (Z.to_nat t))
    as [Hc0 Hc1]; [rewrite length_take; lia|].
  rewrite <- Hcoded, lookup_take_lt in Hc0 by lia.
  rewrite <- Hcoded, lookup_take_lt in Hc1 by lia.
  rewrite take_take, Nat.min_l in Hc0, Hc1 by lia.
  fold (enc_state (take (S (Z.to_nat t)) x)) in Hc0, Hc1.
  assert (recv_hard coded t
          = Some (expected CONV_G0 (full_state (sigma x (Z.to_nat t)) (Z.land b 1)),
                  expected CONV_G1 (full_state (sigma x (Z.to_nat t)) (Z.land b 1))))
    as Hr.
  { destruct (recv_hard_Some coded t) as (c0 & c1 & H0 & H1 & ->).
    - lia.
    - apply (f_equal length) in Hcoded.
      rewrite length_take, length_conv_bits, length_take in Hcoded. lia.
    - replace (Z.to_nat (2 * t)) with (2 * Z.to_nat t)%nat in H0 by lia.
      replace (Z.to_nat (2 * t + 1)) with (2 * Z.to_nat t + 1)%nat in H1 by lia.
      rewrite H0 in Hc0. rewrite H1 in Hc1.
      injection Hc0 as ->. injection Hc1 as ->.
      unfold expected. rewrite !land_1_idemp, Hfull. reflexivity. }
  destruct (forward_body_hard _ _ t pm path ltac:(lia) Hr Hinv)
    as (row & pm' & row' & Hrow & Hrl & Hstep & Hbody & Hinv').
  destruct (hard_step_noiseless _ pm row (sigma x (Z.to_nat t)) (Z.land b 1)
              pm' row' (sigma_range _ _) (land_1_range b) Hrl Hzero Hpos eq_refl Hstep)
    as (Hzero' & Hrow' & Hpos').
  eexists. split; [exact Hbody|]. split; [done|].
  unfold nl_inv. cbn [fst snd].
  replace (Z.to_nat (t + 1)) with (S (Z.to_nat t)) by lia.
  rewrite Hnext. split; [done|]. split; [done|].
  destruct Hinv as (_ & Hlen & _). cbn [fst snd] in Hlen.
  intros t' Ht'. destruct (decide (t' = Z.to_nat t)) as [->|Hne].
  - exists row'. rewrite list_lookup_insert_eq by lia. by rewrite Hnext.
  - destruct (Hsurv t' ltac:(lia)) as (row0 & H0 & H1).
    exists row0. by rewrite list_lookup_insert_ne.
Qed.

Lemma trace_bits_along (path : list path_row) (σ : nat → Z) (k : nat) :
  (∀ t, (t < k)%nat →
     ∃ row, path !! t = Some row
            ∧ row !! Z.to_nat (σ (S t)) = Some (Some (σ t))) →
  trace_bits path k (σ k) = (λ t, out_bit (σ (S t))) <$> seq 0 k.
Proof.
  intros Hpath. induction k as [|k IH]; [done|].
  rewrite seq_S, fmap_app. cbn [trace_bits].
  destruct (Hpath k ltac:(lia)) as (row & Hr & Hp).
  assert (survivor path k (σ (S k)) = σ k) as ->.
  { unfold survivor. rewrite Hr. simpl. by rewrite Hp. }
  rewrite IH; [done|]. intros t Ht. apply Hpath. lia.
Qed.

(** The bit written at [t] when the traceback follows the encoder. *)
Lemma out_bit_sigma (x : list Z) (t : nat) :
  (t < length x)%nat →
  out_bit (sigma x (S t))
  = if (t <? 5)%nat then 0 else Z.land (x !!! (t - 5)%nat) 1.
Proof.
  intros Ht. rewrite out_bit_testbit. unfold sigma.
  change (CONV_STATES - 1) with (Z.ones 6).
  rewrite Z.land_spec, (Z.testbit_ones_nonneg 6 5), andb_true_r by lia.
  rewrite (enc_state_testbit _ 5), length_take, Nat.min_l by lia.
  change (Z.of_nat 5 <? 7) with true. rewrite andb_true_l.
  destruct (Nat.ltb_spec t 5) as [Hlt|Hge].
  - rewrite bool_decide_false by lia. done.
  - rewrite bool_decide_true by lia. rewrite andb_true_l.
    replace (S t - 1 - 5)%nat with (t - 5)%nat by lia.
    rewrite lookup_total_take, decide_True by lia.
    change (Z.land (x !!! (t - 5)%nat) 1)
      with (Z.land (x !!! (t - 5)%nat) (Z.ones 1)).
    rewrite Z.land_ones by lia. change (2 ^ 1) with 2.
    rewrite Zmod_odd, <- Z.bit0_odd. by destruct (Z.testbit _ 0).
Qed.

(** The decoder on the encoder's output returns the input delayed by five
    positions: [viterbi_decode] run on [conv_encode]'s result for [n]
    input bits, [n] at most 256. *)
Lemma viterbi_decode_noiseless (x : list Z) (n : Z) (out decoded : list Z) :
  n = Z.of_nat (length x) → 1 ≤ n ≤ 256 →
  2 * n ≤ Z.of_nat (length out) → n ≤ Z.of_nat (length decoded) →
  ∃ coded,
    conv_encode x n out = Some coded
    ∧ viterbi_decode coded (2 * n) decoded
      = Some (n, ((λ t : nat, if (t <? 5)%nat then 0
                              else Z.land (x !!! (t - 5)%nat) 1)
                  <$> seq 0 (Z.to_nat n))
                 ++ drop (Z.to_nat n) decoded).
Proof.
  intros Hn Hr Hout Hdec.
  eexists. split; [apply conv_encode_run; lia|].
  set (coded := conv_bits 0 (take (Z.to_nat n) x) ++ drop (Z.to_nat (2 * n)) out).
  assert (Z.quot (2 * n) 2 = n) as Hq by (rewrite Z.mul_comm, Z.quot_mul; lia).
  assert (max_len_of (2 * n) = n) as Hmax.
  { unfold max_len_of. cbv zeta. rewrite Hq.
    destruct (Z.ltb_spec n 256); lia. }
  destruct (viterbi_forward_noiseless x coded n) as
    (pm & path & Hfwd & Hinv & Hzero & Hpos & Hsurv); [lia | lia | |].
  { unfold coded. rewrite take_app_length'; [done|].
    rewrite length_conv_bits, length_take. lia. }
  cbn [fst snd] in *.
  unfold viterbi_decode. cbv zeta. rewrite Hq, Hmax.
  destruct (Z.ltb_spec n 1); [lia|].
  rewrite Hfwd. simpl.
  assert (best_state pm = sigma x (Z.to_nat n)) as Hbest.
  { destruct (best_state_spec pm) as (Hb & Hmin & _).
    destruct (decide (best_state pm = sigma x (Z.to_nat n))) as [|Hne]; [done|].
    specialize (Hpos _ Hb Hne).
    specialize (Hmin _ (sigma_range x (Z.to_nat n))). lia. }
  destruct (best_state_reachable _ _ _ Hinv) as [_ Htr].
  rewrite traceback_run by (done || lia). simpl.
  rewrite Hbest, (trace_bits_along path (sigma x)) by done.
  do 3 f_equal. apply list_fmap_ext. intros i t Hi.
  apply lookup_seq in Hi as [-> Hi]. simpl. apply out_bit_sigma. lia.
Qed.

(** ** Soft and hard decisions on a saturated input *)

Lemma candidate_soft_hard (r : Z * Z) (pmh pms : list Z) (s bit : Z) :
  0 ≤ r.1 < 2 → 0 ≤ r.2 < 2 →
  candidate metric_soft (llr_of_bit r.1, llr_of_bit r.2) pms s bit
  = pm_get pms s - 20
    + 20 * (candidate metric_hard r pmh s bit - pm_get pmh s).
Proof.
  intros H1 H2. unfold candidate, metric_soft, metric_hard, ne_int, llr_of_bit.
  cbn [fst snd].
  pose proof (expected_range CONV_G0 (full_state s bit)).
  pose proof (expected_range CONV_G1 (full_state s bit)).
  repeat match goal with
         | |- context [?a =? ?b] => destruct (Z.eqb_spec a b)
         end; lia.
Qed.

Lemma cell_pred_rel (r : Z * Z) (pmh pms : list Z) (t ns p : Z)
    (ch cs : Z * option Z) :
  0 ≤ r.1 < 2 → 0 ≤ r.2 < 2 → 0 ≤ t ≤ 256 → 0 ≤ p < 64 →
  soft_rel t pmh pms → cell_rel (t + 1) ch cs →
  cell_rel (t + 1)
    (cell_pred metric_hard r pmh ns ch p)
    (cell_pred metric_soft (llr_of_bit r.1, llr_of_bit r.2) pms ns cs p).
Proof.
  intros H1 H2 Ht Hp Hrel [Hsv Hc].
  pose proof VITERBI_INF_big as Hbig. change (2 ^ 64) with 18446744073709551616 in Hbig.
  pose proof (candidate_soft_hard r pmh pms p (ns `mod` 2) H1 H2) as Hcs.
  pose proof (candidate_hard_range r pmh p (ns `mod` 2)) as Hch.
  specialize (Hrel p Hp).
  destruct ch as [mh ph], cs as [ms ps]. cbn [fst snd] in *. subst ps.
  unfold cell_pred, relax, cell_rel. cbn [fst snd].
  set (kh := candidate metric_hard r pmh p (ns `mod` 2)) in *.
  set (ks := candidate metric_soft _ pms p (ns `mod` 2)) in *.
  clearbody kh ks.
  destruct (Z.leb_spec VITERBI_INF (pm_get pmh p)),
           (Z.leb_spec VITERBI_INF (pm_get pms p)),
           (Z.ltb_spec kh mh), (Z.ltb_spec ks ms);
    cbn [fst snd]; first [split; [reflexivity | lia] | exfalso; lia].
Qed.

(** One time step keeps the two decoders in step: related metrics and the
    same survivors. *)
Lemma soft_hard_step (r : Z * Z) (pmh pms : list Z) (row : path_row) (t : Z)
    (pmh' pms' : list Z) (rowh' rows' : path_row) :
  0 ≤ r.1 < 2 → 0 ≤ r.2 < 2 → 0 ≤ t ≤ 256 → length row = 64%nat →
  soft_rel t pmh pms →
  viterbi_step metric_hard r pmh row = (pmh', rowh') →
  viterbi_step metric_soft (llr_of_bit r.1, llr_of_bit r.2) pms row
  = (pms', rows') →
  soft_rel (t + 1) pmh' pms' ∧ rowh' = rows'.
Proof.
  intros H1 H2 Ht Hrow Hrel Hh Hs.
  assert (∀ ns, 0 ≤ ns < 64 →
            length rowh' = 64%nat ∧ length rows' = 64%nat
            ∧ cell_rel (t + 1) (pm_get pmh' ns, rowh' !!! Z.to_nat ns)
                               (pm_get pms' ns, rows' !!! Z.to_nat ns)) as Hcell.
  { intros ns Hns.
    destruct (viterbi_step_cell metric_hard r pmh row ns Hrow Hns) as [[_ Hlh] Hch].
    destruct (viterbi_step_cell metric_soft (llr_of_bit r.1, llr_of_bit r.2)
                pms row ns Hrow Hns) as [[_ Hls] Hcs].
    rewrite Hh in Hlh, Hch. rewrite Hs in Hls, Hcs.
    unfold cell_of in Hch, Hcs. cbn [fst snd] in *.
    split; [done|]. split; [done|]. rewrite Hch, Hcs.
    assert (0 ≤ ns / 2 < 64 ∧ 0 ≤ ns / 2 + 32 < 64) as [Hp0 Hp1]
      by (Z.div_mod_to_equations; lia).
    apply cell_pred_rel; [done..|].
    apply cell_pred_rel; [done..|].
    split; [done|]. left. done. }
  split.
  - intros s Hs'. destruct (Hcell s Hs') as (_ & _ & _ & Hc). exact Hc.
  - destruct (Hcell 0 ltac:(lia)) as (Hlh & Hls & _).
    apply (list_eq_same_length _ _ 64); [done..|].
    intros i a b Hi Ha Hb.
    destruct (Hcell (Z.of_nat i) ltac:(lia)) as (_ & _ & Hsv & _).
    cbn [fst snd] in Hsv. rewrite Nat2Z.id in Hsv.
    rewrite (list_lookup_total_correct _ _ _ Ha) in Hsv.
    rewrite (list_lookup_total_correct _ _ _ Hb) in Hsv. done.
Qed.

(** The final state depends on the order of the metrics only. *)
Lemma best_state_order (a b : list Z) :
  (∀ s s', 0 ≤ s < 64 → 0 ≤ s' < 64 →
     (pm_get a s <? pm_get a s') = (pm_get b s <? pm_get b s')) →
  best_state a = best_state b.
Proof.
  intros Hord. unfold best_state. change (CONV_STATES - 1) with (Z.of_nat 63).
  assert (∀ k : nat, (k ≤ 63)%nat →
    foldl (λ best s, if pm_get a s <? pm_get a best then s else best)
          0 (seqZ 1 (Z.of_nat k))
    = foldl (λ best s, if pm_get b s <? pm_get b best then s else best)
            0 (seqZ 1 (Z.of_nat k))) as Hall.
  { induction k as [|k IH]; intros Hk; [done|].
    rewrite seqZ_S, !foldl_snoc, <- IH by lia.
    destruct (best_state_prefix a k) as (Hb & _). cbv zeta in Hb.
    rewrite Hord by lia. done. }
  apply Hall. lia.
Qed.

Lemma soft_rel_best (t : Z) (pmh pms : list Z) :
  0 ≤ t ≤ 256 → soft_rel t pmh pms → best_state pms = best_state pmh.
Proof.
  intros Ht Hrel. apply best_state_order. intros s s' Hs Hs'.
  pose proof VITERBI_INF_big as Hbig. change (2 ^ 64) with 18446744073709551616 in Hbig.
  pose proof (Hrel s Hs). pose proof (Hrel s' Hs').
  destruct (Z.ltb_spec (pm_get pms s) (pm_get pms s')),
           (Z.ltb_spec (pm_get pmh s) (pm_get pmh s')); lia.
Qed.

Lemma is_bit_land (c : Z) : is_bit c → Z.land c 1 = c ∧ 0 ≤ c < 2.
Proof. intros [-> | ->]; (split; [reflexivity | lia]). Qed.

(** The forward passes of the two decoders, the soft one on the saturated
    ratios of the bits the hard one receives. *)
Lemma viterbi_forward_soft_hard (coded : list Z) (max_len : Z) :
  0 ≤ max_len ≤ 256 → 2 * max_len ≤ Z.of_nat (length coded) →
  Forall is_bit coded →
  ∃ pmh pms path,
    viterbi_forward metric_hard (recv_hard coded) max_len = Some (pmh, path)
    ∧ viterbi_forward metric_soft (recv_soft (llr_of_bit <$> coded)) max_len
      = Some (pms, path)
    ∧ fwd_inv max_len (pmh, path) ∧ soft_rel max_len pmh pms.
Proof.
  intros Hm Hlen Hbits. unfold viterbi_forward.
  destruct (for_loop_rel
    (λ t (sh ss : list Z * list path_row),
       fwd_inv t sh ∧ soft_rel t sh.1 ss.1 ∧ sh.2 = ss.2)
    max_len
    (forward_body metric_hard (recv_hard coded))
    (forward_body metric_soft (recv_soft (llr_of_bit <$> coded)))
    (pm_init, path_init) (pm_init, path_init))
    as ([pmh pathh] & [pms paths] & Hh & Hs & Hinv & Hrel & Hp); [lia | | |].
  - split; [apply fwd_inv_init|]. split; [|done]. cbn [fst snd].
    intros s Hs. rewrite pm_init_get by done.
    destruct (Z.eqb_spec s 0); [right; lia | left; done].
  - intros t [pmh pathh] [pms paths] Ht (Hinv & Hrel & Hp).
    cbn [fst snd] in Hrel, Hp. subst paths.
    destruct (recv_hard_Some coded t) as (c0 & c1 & H0 & H1 & Hr); [lia..|].
    destruct (is_bit_land c0) as [E0 B0];
      [eapply (Forall_lookup_1 _ _ _ _ Hbits); exact H0|].
    destruct (is_bit_land c1) as [E1 B1];
      [eapply (Forall_lookup_1 _ _ _ _ Hbits); exact H1|].
    rewrite E0, E1 in Hr.
    destruct (forward_body_hard _ _ t pmh pathh ltac:(lia) Hr Hinv)
      as (row & pmh' & rowh' & Hrow & Hrl & Hstep & Hbody & Hinv').
    destruct (viterbi_step metric_soft (llr_of_bit c0, llr_of_bit c1) pms row)
      as [pms' rows'] eqn:Hsoft.
    destruct (soft_hard_step (c0, c1) pmh pms row t pmh' pms' rowh' rows')
      as [Hrel' ->]; [done || lia ..|].
    exists (pmh', <[Z.to_nat t := rows']> pathh),
           (pms', <[Z.to_nat t := rows']> pathh).
    split; [done|]. split; [|done].
    unfold forward_body, recv_soft.
    rewrite (load_Some (llr_of_bit <$> coded) (2 * t) (llr_of_bit c0))
      by (lia || by rewrite list_lookup_fmap, H0).
    rewrite (load_Some (llr_of_bit <$> coded) (2 * t + 1) (llr_of_bit c1))
      by (lia || by rewrite list_lookup_fmap, H1).
    cbn [mbind option_bind].
    rewrite (load_Some pathh t row) by (lia || done). cbn [mbind option_bind].
    rewrite Hsoft.
    destruct Hinv as (_ & Hpl & _). cbn [fst snd] in Hpl.
    rewrite store_Some by lia. done.
  - cbn [fst snd] in *. subst paths. by exists pmh, pms, pathh.
Qed.

(** On the saturated ratios of any hard bits the soft decoder does what the
    hard decoder does on the bits. *)
Lemma soft_hard_agree (coded : list Z) (n_coded : Z) (decoded : list Z) :
  Forall is_bit coded → 1 ≤ Z.quot n_coded 2 →
  2 * max_len_of n_coded ≤ Z.of_nat (length coded) →
  viterbi_decode_soft (llr_of_bit <$> coded) n_coded decoded
  = viterbi_decode coded n_coded decoded.
Proof.
  intros Hbits Hn Hlen. destruct (max_len_of_range n_coded Hn) as [_ Hm].
  destruct (viterbi_forward_soft_hard coded (max_len_of n_coded))
    as (pmh & pms & path & Hh & Hs & _ & Hrel); [lia | done..|].
  unfold viterbi_decode_soft, viterbi_decode. cbv zeta.
  destruct (Z.ltb_spec (Z.quot n_coded 2) 1); [lia|].
  rewrite Hh, Hs. cbn [mbind option_bind].
  rewrite (soft_rel_best (max_len_of n_coded) pmh pms) by (done || lia). done.
Qed.

(** ** The decoder's capacity *)

Lemma out_bit_is_bit (s : Z) : is_bit (out_bit s).
Proof. pose proof (land_1_range (Z.shiftr s (CONV_K - 2))). unfold is_bit, out_bit. lia. Qed.

Lemma trace_bits_is_bit (path : list path_row) (k : nat) (s : Z) :
  Forall is_bit (trace_bits path k s).
Proof.
  revert s. induction k as [|k IH]; intros s; simpl; [constructor|].
  apply Forall_app. split; [apply IH|].
  apply Forall_cons. split; [apply out_bit_is_bit | constructor].
Qed.

Lemma recv_hard_take (coded : list Z) (k t : Z) :
  0 ≤ t → 2 * t + 2 ≤ k →
  recv_hard (take (Z.to_nat k) coded) t = recv_hard coded t.
Proof.
  intros Ht Hk. unfold recv_hard, load.
  rewrite !decide_True by lia. rewrite !lookup_take_lt by lia. done.
Qed.

(** Only the first [2 * max_len] received bits are read. *)
Lemma viterbi_forward_take (coded : list Z) (max_len : Z) :
  viterbi_forward metric_hard (recv_hard (take (Z.to_nat (2 * max_len)) coded))
                  max_len
  = viterbi_forward metric_hard (recv_hard coded) max_len.
Proof.
  unfold viterbi_forward. apply for_loop_ext. intros t [pm path] Ht.
  unfold forward_body. rewrite recv_hard_take by lia. done.
Qed.

Lemma conv_bits_is_bit (state : Z) (x : list Z) : Forall is_bit (conv_bits state x).
Proof.
  revert state. induction x as [|b x IH]; intros state; simpl; [constructor|].
  assert (∀ g v, is_bit (expected g v)) as Hb
    by (intros g v; pose proof (expected_range g v); unfold is_bit; lia).
  apply Forall_cons. split; [apply Hb|].
  apply Forall_cons. split; [apply Hb | apply IH].
Qed.

Lemma quot_2_even (n : Z) : 0 ≤ n → Z.quot n 2 = n / 2.
Proof. intros Hn. apply Z.quot_div_nonneg; lia. Qed.

(** * The claims on the decoders *)

(** C1 (the code departs from the claim).  The claim is the noiseless round
    trip: decoding the encoder's output returns the input.  On the one-bit
    input [1] the encoder yields the pair 1 1, and [viterbi_decode] on that
    pair returns 1 decoded bit whose value is 0, not 1; on the input
    1 0 1 1 of the specification's scenario it returns 0 0 0 0. *)
Theorem viterbi_roundtrip_loses_input :
  conv_encode [1] 1 [0; 0] = Some [1; 1]
  ∧ viterbi_decode [1; 1] 2 [0] = Some (1, [0])
  ∧ conv_encode [1; 0; 1; 1] 4 (replicate 8 0) = Some [1; 1; 1; 0; 1; 1; 1; 0]
  ∧ viterbi_decode [1; 1; 1; 0; 1; 1; 1; 0] 8 (replicate 4 0)
    = Some (4, [0; 0; 0; 0]).
Proof. vm_compute. done. Qed.

(** C2.  For every bit sequence [x] of length [n] between 1 and 256,
    [viterbi_decode] run on the output of [conv_encode] returns [n] and
    leaves in [decoded] the input delayed by K - 2 = 5 positions:
    [decoded[t] = 0] for [t < 5] and [decoded[t] = x[t - 5]] for
    [5 <= t < n]. *)
Theorem viterbi_noiseless_delay (x out decoded : list Z) (n : Z) :
  n = Z.of_nat (length x) → 1 ≤ n ≤ 256 → Forall is_bit x →
  2 * n ≤ Z.of_nat (length out) → n ≤ Z.of_nat (length decoded) →
  ∃ coded decoded',
    conv_encode x n out = Some coded
    ∧ viterbi_decode coded (2 * n) decoded = Some (n, decoded')
    ∧ ∀ t : nat, Z.of_nat t < n →
        decoded' !! t = Some (if (t <? 5)%nat then 0 else x !!! (t - 5)%nat).
Proof.
  intros Hn Hr Hbits Hout Hdec.
  destruct (viterbi_decode_noiseless x n out decoded Hn Hr Hout Hdec)
    as (coded & Henc & Hdecode).
  eexists coded, _. split; [done|]. split; [exact Hdecode|].
  intros t Ht.
  rewrite lookup_app_l by (rewrite length_fmap, length_seq; lia).
  rewrite list_lookup_fmap, lookup_seq_lt by lia. simpl.
  destruct (t <? 5)%nat; [done|]. f_equal.
  apply is_bit_land.
  eapply (Forall_lookup_1 _ _ (t - 5)%nat _ Hbits).
  apply list_lookup_lookup_total_lt. lia.
Qed.

Lemma viterbi_noiseless_delay_witness :
  ∃ coded decoded',
    conv_encode [1; 0; 1; 1; 0; 1; 1; 1] 8 (replicate 16 0) = Some coded
    ∧ viterbi_decode coded (2 * 8) (replicate 8 0) = Some (8, decoded')
    ∧ ∀ t : nat, Z.of_nat t < 8 →
        decoded' !! t
        = Some (if (t <? 5)%nat then 0
                else [1; 0; 1; 1; 0; 1; 1; 1] !!! (t - 5)%nat).
Proof.
  apply (viterbi_noiseless_delay [1; 0; 1; 1; 0; 1; 1; 1]).
  - reflexivity.
  - lia.
  - repeat (apply Forall_cons_2; [unfold is_bit; lia|]). apply Forall_nil_2.
  - simpl. lia.
  - simpl. lia.
Defined.

(** C3, as the code has it.  For every even [n_coded >= 2] and every coded
    input of that length, [viterbi_decode] returns the smaller of
    [n_coded / 2] and 256 and writes exactly that many decoded bits, the
    first cells of [decoded]; the bits do not depend on what [decoded]
    held before. *)
Theorem viterbi_decode_length (coded : list Z) (n_coded : Z) :
  Z.even n_coded = true → 2 ≤ n_coded → Z.of_nat (length coded) = n_coded →
  ∃ bits,
    Z.of_nat (length bits) = Z.min (n_coded / 2) 256
    ∧ Forall is_bit bits
    ∧ ∀ decoded, Z.min (n_coded / 2) 256 ≤ Z.of_nat (length decoded) →
        viterbi_decode coded n_coded decoded
        = Some (Z.min (n_coded / 2) 256,
                bits ++ drop (Z.to_nat (Z.min (n_coded / 2) 256)) decoded).
Proof.
  intros Heven Hn Hlen.
  assert (1 ≤ Z.quot n_coded 2) as Hq
    by (rewrite quot_2_even by lia; Z.div_mod_to_equations; lia).
  destruct (max_len_of_range n_coded Hq) as [Hmax Hm].
  rewrite quot_2_even in Hmax by lia. rewrite <- Hmax.
  assert (2 * max_len_of n_coded ≤ Z.of_nat (length coded)) as Hc
    by (rewrite Hmax; Z.div_mod_to_equations; lia).
  destruct (viterbi_forward_hard coded (max_len_of n_coded))
    as (pm & path & Hfwd & _); [lia | done |].
  exists (trace_bits path (Z.to_nat (max_len_of n_coded)) (best_state pm)).
  split; [rewrite length_trace_bits; lia|].
  split; [apply trace_bits_is_bit|].
  intros decoded Hd.
  destruct (viterbi_decode_run coded n_coded decoded Hq Hc Hd)
    as (pm' & path' & Hfwd' & Hrun).
  rewrite Hfwd in Hfwd'. injection Hfwd' as <- <-. exact Hrun.
Qed.

Lemma viterbi_decode_length_witness :
  ∃ bits,
    Z.of_nat (length bits) = Z.min (4 / 2) 256
    ∧ Forall is_bit bits
    ∧ ∀ decoded, Z.min (4 / 2) 256 ≤ Z.of_nat (length decoded) →
        viterbi_decode [1; 1; 0; 1] 4 decoded
        = Some (Z.min (4 / 2) 256,
                bits ++ drop (Z.to_nat (Z.min (4 / 2) 256)) decoded).
Proof.
  apply (viterbi_decode_length [1; 1; 0; 1] 4); [reflexivity | lia | reflexivity].
Defined.

(** C3 as stated fails: on 514 coded bits the decoder returns 256, not
    514 / 2 = 257, and leaves [decoded[256]] as it was. *)
Lemma viterbi_decode_length_counterexample :
  Z.even 514 = true ∧ Z.of_nat (length (replicate 514 0)) = 514
  ∧ 514 / 2 = 257
  ∧ viterbi_decode (replicate 514 0) 514 (replicate 257 7)
    = Some (256, replicate 256 0 ++ [7]).
Proof. vm_compute. done. Qed.

(** C4.  When [n_coded / 2] exceeds 256, [viterbi_decode] returns 256 as
    an ordinary result, overwrites [decoded[0 .. 255]] only, and what it
    writes is what it writes for the first 512 coded bits alone. *)
Theorem viterbi_decode_truncates (coded : list Z) (n_coded : Z) :
  256 < Z.quot n_coded 2 → n_coded ≤ Z.of_nat (length coded) →
  ∃ bits,
    length bits = 256%nat
    ∧ ∀ decoded, 256 ≤ Z.of_nat (length decoded) →
        viterbi_decode coded n_coded decoded
        = Some (256, bits ++ drop 256 decoded)
        ∧ viterbi_decode (take 512 coded) 512 decoded
          = Some (256, bits ++ drop 256 decoded).
Proof.
  intros Hq Hlen.
  assert (max_len_of n_coded = 256) as Hmax.
  { unfold max_len_of. cbv zeta. destruct (Z.ltb_spec (Z.quot n_coded 2) 256); lia. }
  assert (512 ≤ n_coded).
  { destruct (Z.le_gt_cases 512 n_coded) as [|Hlt]; [done|].
    assert (Z.quot n_coded 2 ≤ Z.quot 511 2) by (apply Z.quot_le_mono; lia).
    change (Z.quot 511 2) with 255 in *. lia. }
  destruct (viterbi_forward_hard coded 256) as (pm & path & Hfwd & _); [lia..|].
  exists (trace_bits path 256 (best_state pm)).
  split; [apply length_trace_bits|].
  intros decoded Hd.
  destruct (viterbi_decode_run coded n_coded decoded)
    as (pm1 & path1 & Hfwd1 & Hrun1); [lia..|].
  destruct (viterbi_decode_run (take 512 coded) 512 decoded)
    as (pm2 & path2 & Hfwd2 & Hrun2);
    [done | rewrite length_take; change (max_len_of 512) with 256; lia
     | change (max_len_of 512) with 256; lia |].
  rewrite Hmax in *. change (max_len_of 512) with 256 in *.
  change 512%nat with (Z.to_nat (2 * 256)) in Hfwd2.
  rewrite viterbi_forward_take in Hfwd2.
  rewrite Hfwd in Hfwd1, Hfwd2.
  injection Hfwd1 as <- <-. injection Hfwd2 as <- <-.
  change (Z.to_nat 256) with 256%nat in *. done.
Qed.

Lemma viterbi_decode_truncates_witness :
  ∃ bits,
    length bits = 256%nat
    ∧ ∀ decoded, 256 ≤ Z.of_nat (length decoded) →
        viterbi_decode (replicate 514 0) 514 decoded
        = Some (256, bits ++ drop 256 decoded)
        ∧ viterbi_decode (take 512 (replicate 514 0)) 512 decoded
          = Some (256, bits ++ drop 256 decoded).
Proof.
  apply (viterbi_decode_truncates (replicate 514 0) 514).
  - change (Z.quot 514 2) with 257. lia.
  - rewrite length_replicate. lia.
Defined.

(** C7.  For every bit sequence [x] of length between 1 and 256 the soft
    decoder, fed +10 where the encoder's output bit is 0 and -10 where it is
    1, returns what the hard decoder returns on the encoder's output. *)
Theorem soft_agrees_with_hard (x out decoded : list Z) (n : Z) :
  n = Z.of_nat (length x) → 1 ≤ n ≤ 256 → Forall is_bit x →
  Z.of_nat (length out) = 2 * n → n ≤ Z.of_nat (length decoded) →
  ∃ coded res,
    conv_encode x n out = Some coded
    ∧ viterbi_decode coded (2 * n) decoded = Some res
    ∧ viterbi_decode_soft (llr_of_bit <$> coded) (2 * n) decoded = Some res.
Proof.
  intros Hn Hr _ Hout Hdec.
  destruct (viterbi_decode_noiseless x n out decoded Hn Hr ltac:(lia) Hdec)
    as (coded & Henc & Hdecode).
  eexists coded, _. split; [done|]. split; [exact Hdecode|].
  rewrite <- Hdecode.
  assert (Z.quot (2 * n) 2 = n) as Hq by (rewrite Z.mul_comm, Z.quot_mul; lia).
  pose proof Henc as Hrun. rewrite conv_encode_run in Hrun by lia.
  injection Hrun as <-.
  rewrite drop_ge, app_nil_r by lia.
  apply soft_hard_agree.
  - apply conv_bits_is_bit.
  - lia.
  - destruct (max_len_of_range (2 * n)) as [-> _]; [lia|].
    rewrite Hq, length_conv_bits, length_take. lia.
Qed.

Lemma soft_agrees_with_hard_witness :
  ∃ coded res,
    conv_encode [1; 0; 1; 1] 4 (replicate 8 0) = Some coded
    ∧ viterbi_decode coded (2 * 4) (replicate 4 0) = Some res
    ∧ viterbi_decode_soft (llr_of_bit <$> coded) (2 * 4) (replicate 4 0)
      = Some res.
Proof.
  apply (soft_agrees_with_hard [1; 0; 1; 1]).
  - reflexivity.
  - lia.
  - repeat (apply Forall_cons_2; [unfold is_bit; lia|]). apply Forall_nil_2.
  - reflexivity.
  - simpl. lia.
Defined.

(** C10.  For every even-length coded input with [n_coded / 2 <= 256], the
    state [viterbi_decode] starts the traceback from has the minimum path
    metric of the 64 states after the last step, and is the lowest-numbered
    state with that metric. *)
Theorem final_state_lowest_minimum (coded : list Z) (n_coded : Z)
    (decoded : list Z) :
  Z.even n_coded = true → 2 ≤ n_coded → n_coded / 2 ≤ 256 →
  Z.of_nat (length coded) = n_coded →
  ∃ pm path,
    viterbi_forward metric_hard (recv_hard coded) (n_coded / 2) = Some (pm, path)
    ∧ viterbi_decode coded n_coded decoded
      = (d ← traceback path (n_coded / 2) (best_state pm) decoded;
         Some (n_coded / 2, d))
    ∧ 0 ≤ best_state pm < 64
    ∧ (∀ s, 0 ≤ s < 64 → pm_get pm (best_state pm) ≤ pm_get pm s)
    ∧ (∀ s, 0 ≤ s < 64 → pm_get pm s = pm_get pm (best_state pm) →
            best_state pm ≤ s).
Proof.
  intros Heven Hn Hcap Hlen.
  assert (1 ≤ Z.quot n_coded 2) as Hq
    by (rewrite quot_2_even by lia; Z.div_mod_to_equations; lia).
  destruct (max_len_of_range n_coded Hq) as [Hmax Hm].
  rewrite quot_2_even in Hmax by lia.
  rewrite Z.min_l in Hmax by lia. rewrite <- Hmax.
  destruct (viterbi_forward_hard coded (max_len_of n_coded))
    as (pm & path & Hfwd & _);
    [lia | rewrite Hmax; Z.div_mod_to_equations; lia |].
  exists pm, path. split; [done|]. split.
  - unfold viterbi_decode. cbv zeta.
    destruct (Z.ltb_spec (Z.quot n_coded 2) 1); [lia|].
    rewrite Hfwd. done.
  - destruct (best_state_spec pm) as (Hb & Hmin & Hfirst).
    split; [done|]. split; [done|]. intros s Hs Heq.
    destruct (Z.le_gt_cases (best_state pm) s) as [|Hlt]; [done|].
    specialize (Hfirst s ltac:(lia)). lia.
Qed.

Lemma final_state_lowest_minimum_witness :
  ∃ pm path,
    viterbi_forward metric_hard (recv_hard [1; 1; 0; 1]) (4 / 2) = Some (pm, path)
    ∧ viterbi_decode [1; 1; 0; 1] 4 [0; 0]
      = (d ← traceback path (4 / 2) (best_state pm) [0; 0]; Some (4 / 2, d))
    ∧ 0 ≤ best_state pm < 64
    ∧ (∀ s, 0 ≤ s < 64 → pm_get pm (best_state pm) ≤ pm_get pm s)
    ∧ (∀ s, 0 ≤ s < 64 → pm_get pm s = pm_get pm (best_state pm) →
            best_state pm ≤ s).
Proof.
  apply (final_state_lowest_minimum [1; 1; 0; 1] 4 [0; 0]);
    [reflexivity | lia | change (4 / 2) with 2; lia | reflexivity].
Defined.

(** * The claim on the encoder *)

Lemma shift_in_spec (register b : Z) :
  is_bit b → shift_in register b = register_step_spec register b.
Proof.
  intros Hb. destruct (is_bit_land b Hb) as [E _].
  unfold shift_in, register_step_spec. rewrite E.
  change (CONV_STATES * 2 - 1) with (Z.ones 7).
  rewrite Z.land_ones by lia. done.
Qed.

Lemma enc_state_spec (x : list Z) :
  Forall is_bit x → enc_state x = register_spec x.
Proof.
  unfold enc_state, register_spec.
  induction x as [|b x IH] using rev_ind; intros Hx; [done|].
  apply Forall_app in Hx as [Hx Hb]. apply Forall_cons in Hb as [Hb _].
  rewrite !foldl_snoc, IH, shift_in_spec by done. done.
Qed.

(** On a register value the output bit of the source is the parity of the
    population count of the value ANDed with the generator. *)
Lemma expected_parity (v : Z) :
  0 ≤ v < 128 →
  expected CONV_G0 v = parity_spec (Z.land v G0_octal)
  ∧ expected CONV_G1 v = parity_spec (Z.land v G1_octal).
Proof.
  intros Hv.
  pose proof (range_forallb
    (λ v, (expected CONV_G0 v =? parity_spec (Z.land v G0_octal))
          && (expected CONV_G1 v =? parity_spec (Z.land v G1_octal)))
    128 ltac:(vm_compute; reflexivity) v Hv) as H.
  cbv beta in H. apply andb_true_iff in H as [H1 H2].
  apply Z.eqb_eq in H1, H2. split; assumption.
Qed.

(** C8.  For every input bit sequence of length [n >= 0], [conv_encode]
    overwrites exactly the first [2 * n] cells of [out]; the register starts
    at 0 and is updated as [((register << 1) | bit) mod 2^K]; and
    [out[2 * i]], [out[2 * i + 1]] are the parities of the population count
    of the register after bit [i] ANDed with 0133 and 0171 octal. *)
Theorem conv_encode_definition (x out : list Z) :
  Forall is_bit x → 2 * Z.of_nat (length x) ≤ Z.of_nat (length out) →
  ∃ out',
    conv_encode x (Z.of_nat (length x)) out = Some out'
    ∧ length out' = length out
    ∧ drop (2 * length x) out' = drop (2 * length x) out
    ∧ ∀ i : nat, (i < length x)%nat →
        out' !! (2 * i)%nat
        = Some (parity_spec (Z.land (register_spec (take (S i) x)) G0_octal))
        ∧ out' !! (2 * i + 1)%nat
          = Some (parity_spec (Z.land (register_spec (take (S i) x)) G1_octal)).
Proof.
  intros Hbits Hout.
  rewrite conv_encode_run by lia. eexists. split; [done|].
  rewrite Nat2Z.id, take_ge by lia.
  replace (Z.to_nat (2 * Z.of_nat (length x))) with (2 * length x)%nat by lia.
  pose proof (length_conv_bits 0 x) as Hl.
  split; [rewrite length_app, length_drop; lia|].
  split; [by rewrite drop_app_length'|].
  intros i Hi.
  destruct (conv_bits_lookup 0 x i Hi) as [H0 H1].
  rewrite !lookup_app_l by lia. rewrite H0, H1.
  fold (enc_state (take (S i) x)).
  destruct (expected_parity (enc_state (take (S i) x)) (enc_state_range _))
    as [-> ->].
  rewrite enc_state_spec by (by apply Forall_take). done.
Qed.

Lemma conv_encode_definition_witness :
  ∃ out',
    conv_encode [1; 0; 1; 1] (Z.of_nat (length [1; 0; 1; 1])) (replicate 8 0)
    = Some out'
    ∧ length out' = length (replicate 8 0)
    ∧ drop (2 * length [1; 0; 1; 1]) out'
      = drop (2 * length [1; 0; 1; 1]) (replicate 8 0)
    ∧ ∀ i : nat, (i < length [1; 0; 1; 1])%nat →
        out' !! (2 * i)%nat
        = Some (parity_spec
                  (Z.land (register_spec (take (S i) [1; 0; 1; 1])) G0_octal))
        ∧ out' !! (2 * i + 1)%nat
          = Some (parity_spec
                    (Z.land (register_spec (take (S i) [1; 0; 1; 1])) G1_octal)).
Proof.
  apply (conv_encode_definition [1; 0; 1; 1] (replicate 8 0)).
  - repeat (apply Forall_cons_2; [unfold is_bit; lia|]). apply Forall_nil_2.
  - simpl. lia.
Defined.

(** * The interleaver *)

Lemma rowmajor_divmod (n a b : Z) :
  0 ≤ b < n → (a * n + b) / n = a ∧ (a * n + b) `mod` n = b.
Proof.
  intros Hb. split.
  - rewrite Z.add_comm, Z.div_add by lia. rewrite Z.div_small; lia.
  - rewrite Z.add_comm, Z.mod_add by lia. apply Z.mod_small. lia.
Qed.

Lemma rowmajor_inj (n a b a' b' : Z) :
  0 ≤ b < n → 0 ≤ b' < n → a * n + b = a' * n + b' → a = a' ∧ b = b'.
Proof.
  intros Hb Hb' Heq.
  destruct (rowmajor_divmod n a b Hb) as [Hd Hm].
  destruct (rowmajor_divmod n a' b' Hb') as [Hd' Hm'].
  rewrite Heq in Hd, Hm. lia.
Qed.

Lemma rowmajor_range (n m a b : Z) :
  0 ≤ a < m → 0 ≤ b < n → 0 ≤ a * n + b < m * n.
Proof. intros Ha Hb. nia. Qed.

Lemma init_body_run (rows cols r c : Z) (tabs : list (option Z) * list (option Z)) :
  0 ≤ r < rows → 0 ≤ c < cols → init_inv rows cols r c tabs →
  ∃ tabs', init_body rows cols r c tabs = Some tabs'
           ∧ init_inv rows cols r (c + 1) tabs'.
Proof.
  intros Hr Hc. destruct tabs as [p q]. intros (Hlp & Hlq & Htab).
  cbn [fst snd] in *.
  pose proof (rowmajor_range cols rows r c Hr Hc) as Hw.
  pose proof (rowmajor_range rows cols c r Hc Hr) as Hrd.
  replace (cols * rows) with (rows * cols) in Hrd by lia.
  unfold init_body.
  rewrite store_Some by lia. cbn [mbind option_bind].
  rewrite store_Some by lia. cbn [mbind option_bind].
  eexists. split; [done|]. unfold init_inv. cbn [fst snd].
  rewrite !length_insert. split; [done|]. split; [done|].
  intros r' c' Hr' Hc' Hlt.
  destruct (decide (r' = r ∧ c' = c)) as [[-> ->]|Hne].
  - rewrite !list_lookup_insert_eq by lia. done.
  - assert (r' ≤ r) by lia.
    rewrite !list_lookup_insert_ne.
    + apply Htab; [done..|]. lia.
    + intros Heq. apply Z2Nat.inj in Heq; [|nia..].
      apply rowmajor_inj in Heq; lia.
    + intros Heq. apply Z2Nat.inj in Heq; [|nia..].
      apply rowmajor_inj in Heq; lia.
Qed.

Lemma init_row_run (rows cols r : Z) (tabs : list (option Z) * list (option Z)) :
  0 ≤ r < rows → 0 ≤ cols → init_inv rows cols r 0 tabs →
  ∃ tabs', for_loop cols (init_body rows cols r) tabs = Some tabs'
           ∧ init_inv rows cols (r + 1) 0 tabs'.
Proof.
  intros Hr Hcols Hinv.
  destruct (for_loop_inv (init_inv rows cols r) cols (init_body rows cols r) tabs)
    as (tabs' & Hrun & Hlp & Hlq & Htab); [done.. | |].
  - intros c st Hc Hst. by apply init_body_run.
  - exists tabs'. split; [done|]. split; [done|]. split; [done|].
    intros r' c' Hr' Hc' Hlt. apply Htab; [done..|]. lia.
Qed.

(** With both allocations succeeding [interleaver_init] is defined, returns
    0 and leaves every cell of the two tables written. *)
Lemma interleaver_init_run (rows cols : Z) :
  0 ≤ rows → 0 ≤ cols →
  ∃ p q,
    interleaver_init true true rows cols
    = Some (0, mkInterleaver rows cols (Some p) (Some q))
    ∧ init_inv rows cols rows 0 (p, q).
Proof.
  intros Hrows Hcols. unfold interleaver_init, malloc. cbv zeta.
  destruct (for_loop_inv (λ r, init_inv rows cols r 0) rows
              (λ r, for_loop cols (init_body rows cols r))
              (replicate (Z.to_nat (rows * cols)) None,
               replicate (Z.to_nat (rows * cols)) None))
    as ([p q] & Hrun & Hinv); [done | | |].
  - unfold init_inv. cbn [fst snd]. rewrite !length_replicate.
    split; [done|]. split; [done|]. intros; lia.
  - intros r st Hr Hst. by apply init_row_run.
  - exists p, q. rewrite Hrun. done.
Qed.

Lemma interleaver_init_ok (ok_perm ok_inv : bool) (rows cols : Z)
    (itl : Interleaver) :
  interleaver_init ok_perm ok_inv rows cols = Some (0, itl) →
  ok_perm = true ∧ ok_inv = true.
Proof.
  unfold interleaver_init, malloc. cbv zeta.
  destruct ok_perm, ok_inv; [done | discriminate..].
Qed.

(** The tables cell by cell, by index. *)
Lemma init_inv_index (rows cols : Z) (p q : list (option Z)) :
  0 ≤ rows → 0 ≤ cols → init_inv rows cols rows 0 (p, q) →
  ∀ i, 0 ≤ i < rows * cols →
    p !! Z.to_nat i = Some (Some (perm_index rows cols i))
    ∧ q !! Z.to_nat i = Some (Some (inv_index rows cols i))
    ∧ 0 ≤ perm_index rows cols i < rows * cols
    ∧ 0 ≤ inv_index rows cols i < rows * cols
    ∧ inv_index rows cols (perm_index rows cols i) = i
    ∧ perm_index rows cols (inv_index rows cols i) = i.
Proof.
  intros Hrows Hcols (_ & _ & Htab) i Hi. cbn [fst snd] in Htab.
  assert (0 < rows ∧ 0 < cols) as [Hr Hc] by nia.
  unfold perm_index, inv_index.
  pose proof (Z.mod_pos_bound i cols Hc) as Hmc.
  pose proof (Z.mod_pos_bound i rows Hr) as Hmr.
  pose proof (Z.div_mod i cols ltac:(lia)) as Hdc.
  pose proof (Z.div_mod i rows ltac:(lia)) as Hdr.
  assert (0 ≤ i / cols < rows) as Hqc.
  { split; [apply Z.div_pos; lia|]. apply Z.div_lt_upper_bound; lia. }
  assert (0 ≤ i / rows < cols) as Hqr.
  { split; [apply Z.div_pos; lia|]. apply Z.div_lt_upper_bound; nia. }
  destruct (Htab (i / cols) (i `mod` cols)) as [Hp _]; [lia..|].
  destruct (Htab (i `mod` rows) (i / rows)) as [_ Hq]; [lia..|].
  replace (i / cols * cols + i `mod` cols) with i in Hp by lia.
  replace (i / rows * rows + i `mod` rows) with i in Hq by lia.
  split; [done|]. split; [done|].
  split; [pose proof (rowmajor_range rows cols _ _ Hmc Hqc); lia|].
  split; [pose proof (rowmajor_range cols rows _ _ Hmr Hqr); lia|].
  destruct (rowmajor_divmod rows (i `mod` cols) (i / cols) Hqc) as [-> ->].
  destruct (rowmajor_divmod cols (i `mod` rows) (i / rows) Hqr) as [-> ->].
  lia.
Qed.

(** The loop of [interleaver_apply] and [interleaver_deapply] over a table
    whose first [m] cells hold an injective map [g] into [out]. *)
Lemma scatter_run (tb : list (option Z)) (g : Z → Z) (size n m : Z)
    (inp out : list Z) :
  m = Z.min n size → 0 ≤ m → m ≤ Z.of_nat (length inp) →
  (∀ i, 0 ≤ i < m →
     tb !! Z.to_nat i = Some (Some (g i)) ∧ 0 ≤ g i < Z.of_nat (length out)) →
  (∀ i i', 0 ≤ i < m → 0 ≤ i' < m → g i = g i' → i = i') →
  ∃ out',
    scatter (Some tb) size inp out n = Some out'
    ∧ length out' = length out
    ∧ (∀ i, 0 ≤ i < m → out' !! Z.to_nat (g i) = inp !! Z.to_nat i)
    ∧ (∀ j : nat, (∀ i, 0 ≤ i < m → Z.to_nat (g i) ≠ j) → out' !! j = out !! j).
Proof.
  intros -> Hm Hinp Htb Hinj. unfold scatter.
  destruct (for_loop_inv
    (λ k o, length o = length out
            ∧ (∀ i, 0 ≤ i < k → o !! Z.to_nat (g i) = inp !! Z.to_nat i)
            ∧ (∀ j : nat, (∀ i, 0 ≤ i < k → Z.to_nat (g i) ≠ j) →
                 o !! j = out !! j))
    (Z.min n size)
    (λ i out, table ← Some tb; scatter_body table inp i out) out)
    as (out' & Hrun & Hinv); [done | | | by exists out'].
  - split; [done|]. split; [intros; lia | done].
  - intros k o Hk (Hlen & Hdone & Hrest). cbn [mbind option_bind].
    destruct (Htb k Hk) as [Hg Hgr].
    destruct (lookup_lt_is_Some_2 inp (Z.to_nat k)) as [v Hv]; [lia|].
    unfold scatter_body, load_init.
    rewrite (load_Some inp k v) by (lia || done). cbn [mbind option_bind].
    rewrite (load_Some tb k (Some (g k))) by (lia || done).
    cbn [mjoin option_join mbind option_bind].
    rewrite store_Some by lia.
    eexists. split; [done|].
    split; [by rewrite length_insert|]. split.
    + intros i Hi. destruct (decide (i = k)) as [->|Hne].
      * rewrite list_lookup_insert_eq by lia. done.
      * rewrite list_lookup_insert_ne.
        { apply Hdone. lia. }
        intros Heq. apply Z2Nat.inj in Heq;
          [|pose proof (Htb i ltac:(lia)); lia..].
        apply Hne. symmetry. apply Hinj; [lia..|done].
    + intros j Hj. rewrite list_lookup_insert_ne by (apply Hj; lia).
      apply Hrest. intros i Hi. apply Hj. lia.
Qed.

(** What [interleaver_apply] and [interleaver_deapply] do on a whole block
    with the tables of [interleaver_init]: [out[perm[i]] = in[i]] and
    [out[inv[i]] = in[i]] for every index of the block. *)
Lemma scatter_block (rows cols : Z) (tb : list (option Z)) (g : Z → Z)
    (inp out : list Z) :
  Z.of_nat (length inp) = rows * cols → Z.of_nat (length out) = rows * cols →
  (∀ i, 0 ≤ i < rows * cols →
     tb !! Z.to_nat i = Some (Some (g i)) ∧ 0 ≤ g i < rows * cols) →
  (∀ i i', 0 ≤ i < rows * cols → 0 ≤ i' < rows * cols → g i = g i' → i = i') →
  ∃ out',
    scatter (Some tb) (rows * cols) inp out (rows * cols) = Some out'
    ∧ length out' = length out
    ∧ ∀ i, 0 ≤ i < rows * cols → out' !! Z.to_nat (g i) = inp !! Z.to_nat i.
Proof.
  intros Hinp Hout Htb Hinj.
  destruct (scatter_run tb g (rows * cols) (rows * cols) (rows * cols) inp out)
    as (out' & Hrun & Hlen & Hmoved & _); [lia.. | | done |].
  - intros i Hi. destruct (Htb i Hi). split; [done | lia].
  - by exists out'.
Qed.

Lemma interleaver_apply_mk (rows cols : Z) (p q : option (list (option Z)))
    (inp out : list Z) (n : Z) :
  interleaver_apply (mkInterleaver rows cols p q) inp out n
  = scatter p (rows * cols) inp out n.
Proof. reflexivity. Qed.

Lemma interleaver_deapply_mk (rows cols : Z) (p q : option (list (option Z)))
    (inp out : list Z) (n : Z) :
  interleaver_deapply (mkInterleaver rows cols p q) inp out n
  = scatter q (rows * cols) inp out n.
Proof. reflexivity. Qed.

(** * The claims on the interleaver *)

(** C5.  For all [rows >= 1] and [cols >= 1], a successfully constructed
    interleaver and every sequence [x] of length [rows * cols],
    [interleaver_deapply] on the result of [interleaver_apply] on [x]
    returns [x], whatever the output arrays held. *)
Theorem interleaver_roundtrip (ok_perm ok_inv : bool) (rows cols : Z)
    (itl : Interleaver) (x out1 out2 : list Z) :
  1 ≤ rows → 1 ≤ cols →
  interleaver_init ok_perm ok_inv rows cols = Some (0, itl) →
  Z.of_nat (length x) = rows * cols →
  Z.of_nat (length out1) = rows * cols →
  Z.of_nat (length out2) = rows * cols →
  ∃ y,
    interleaver_apply itl x out1 (rows * cols) = Some y
    ∧ interleaver_deapply itl y out2 (rows * cols) = Some x.
Proof.
  intros Hrows Hcols Hinit Hx Ho1 Ho2.
  destruct (interleaver_init_ok _ _ _ _ _ Hinit) as [-> ->].
  destruct (interleaver_init_run rows cols) as (p & q & Hrun & Hinv); [lia..|].
  rewrite Hrun in Hinit. injection Hinit as <-.
  pose proof (init_inv_index rows cols p q ltac:(lia) ltac:(lia) Hinv) as Hidx.
  rewrite interleaver_apply_mk.
  destruct (scatter_block rows cols p (perm_index rows cols) x out1)
    as (y & Hy & Hly & Hmy); [done.. | | |].
  { intros i Hi. destruct (Hidx i Hi) as (? & _ & ? & _). done. }
  { intros i i' Hi Hi' Heq.
    destruct (Hidx i Hi) as (_ & _ & _ & _ & <- & _).
    destruct (Hidx i' Hi') as (_ & _ & _ & _ & <- & _). by rewrite Heq. }
  destruct (scatter_block rows cols q (inv_index rows cols) y out2)
    as (z & Hz & Hlz & Hmz); [lia | done | | |].
  { intros i Hi. destruct (Hidx i Hi) as (_ & ? & _ & ? & _). done. }
  { intros i i' Hi Hi' Heq.
    destruct (Hidx i Hi) as (_ & _ & _ & _ & _ & <-).
    destruct (Hidx i' Hi') as (_ & _ & _ & _ & _ & <-). by rewrite Heq. }
  exists y. split; [done|]. rewrite interleaver_deapply_mk, Hz. f_equal.
  apply list_eq. intros k.
  destruct (decide (Z.of_nat k < rows * cols)) as [Hk|Hk].
  - destruct (Hidx (Z.of_nat k) ltac:(lia)) as (_ & _ & Hpr & _ & Hip & _).
    specialize (Hmz _ Hpr). rewrite Hip, Nat2Z.id in Hmz. rewrite Hmz.
    specialize (Hmy (Z.of_nat k) ltac:(lia)). by rewrite Nat2Z.id in Hmy.
  - rewrite !lookup_ge_None_2 by lia. done.
Qed.

Lemma interleaver_roundtrip_witness :
  ∃ y,
    interleaver_apply (mkInterleaver 2 3
        (Some [Some 0; Some 2; Some 4; Some 1; Some 3; Some 5])
        (Some [Some 0; Some 3; Some 1; Some 4; Some 2; Some 5]))
      [1; 0; 0; 1; 1; 1] (replicate 6 0) (2 * 3) = Some y
    ∧ interleaver_deapply (mkInterleaver 2 3
        (Some [Some 0; Some 2; Some 4; Some 1; Some 3; Some 5])
        (Some [Some 0; Some 3; Some 1; Some 4; Some 2; Some 5]))
      y (replicate 6 0) (2 * 3) = Some [1; 0; 0; 1; 1; 1].
Proof.
  apply (interleaver_roundtrip true true 2 3); [lia | lia | reflexivity..].
Defined.

(** C9, for dimensions that are not negative.  After a successful
    [interleaver_init] on [rows >= 0] by [cols >= 0], for every row [r] and
    column [c] of the block [perm[r * cols + c] = c * rows + r] and
    [inv[c * rows + r] = r * cols + c], and [perm] and [inv] are mutually
    inverse bijections on the indices below [rows * cols]. *)
Theorem interleaver_tables (ok_perm ok_inv : bool) (rows cols : Z)
    (itl : Interleaver) :
  0 ≤ rows → 0 ≤ cols →
  interleaver_init ok_perm ok_inv rows cols = Some (0, itl) →
  ∃ p q,
    perm itl = Some p ∧ inv itl = Some q
    ∧ Z.of_nat (length p) = rows * cols ∧ Z.of_nat (length q) = rows * cols
    ∧ (∀ r c, 0 ≤ r < rows → 0 ≤ c < cols →
         p !! Z.to_nat (r * cols + c) = Some (Some (c * rows + r))
         ∧ q !! Z.to_nat (c * rows + r) = Some (Some (r * cols + c)))
    ∧ (∀ i, 0 ≤ i < rows * cols →
         ∃ j, 0 ≤ j < rows * cols
              ∧ p !! Z.to_nat i = Some (Some j)
              ∧ q !! Z.to_nat j = Some (Some i))
    ∧ (∀ j, 0 ≤ j < rows * cols →
         ∃ i, 0 ≤ i < rows * cols
              ∧ q !! Z.to_nat j = Some (Some i)
              ∧ p !! Z.to_nat i = Some (Some j)).
Proof.
  intros Hrows Hcols Hinit.
  destruct (interleaver_init_ok _ _ _ _ _ Hinit) as [-> ->].
  destruct (interleaver_init_run rows cols Hrows Hcols) as (p & q & Hrun & Hinv).
  rewrite Hrun in Hinit. injection Hinit as <-.
  pose proof (init_inv_index rows cols p q Hrows Hcols Hinv) as Hidx.
  destruct Hinv as (Hlp & Hlq & Htab). cbn [fst snd] in *.
  exists p, q. split; [done|]. split; [done|].
  split; [nia|]. split; [nia|]. split.
  - intros r c Hr Hc. apply Htab; lia.
  - split.
    + intros i Hi. destruct (Hidx i Hi) as (Hp & _ & Hpr & _ & Hip & _).
      exists (perm_index rows cols i). split; [done|]. split; [done|].
      destruct (Hidx _ Hpr) as (_ & Hq & _). by rewrite Hip in Hq.
    + intros j Hj. destruct (Hidx j Hj) as (_ & Hq & _ & Hir & _ & Hpi).
      exists (inv_index rows cols j). split; [done|]. split; [done|].
      destruct (Hidx _ Hir) as (Hp & _). by rewrite Hpi in Hp.
Qed.

Lemma interleaver_tables_witness :
  ∃ p q,
    Some [Some 0; Some 2; Some 4; Some 1; Some 3; Some 5] = Some p
    ∧ Some [Some 0; Some 3; Some 1; Some 4; Some 2; Some 5] = Some q
    ∧ Z.of_nat (length p) = 2 * 3 ∧ Z.of_nat (length q) = 2 * 3
    ∧ (∀ r c, 0 ≤ r < 2 → 0 ≤ c < 3 →
         p !! Z.to_nat (r * 3 + c) = Some (Some (c * 2 + r))
         ∧ q !! Z.to_nat (c * 2 + r) = Some (Some (r * 3 + c)))
    ∧ (∀ i, 0 ≤ i < 2 * 3 →
         ∃ j, 0 ≤ j < 2 * 3
              ∧ p !! Z.to_nat i = Some (Some j)
              ∧ q !! Z.to_nat j = Some (Some i))
    ∧ (∀ j, 0 ≤ j < 2 * 3 →
         ∃ i, 0 ≤ i < 2 * 3
              ∧ q !! Z.to_nat j = Some (Some i)
              ∧ p !! Z.to_nat i = Some (Some j)).
Proof.
  apply (interleaver_tables true true 2 3
           (mkInterleaver 2 3
              (Some [Some 0; Some 2; Some 4; Some 1; Some 3; Some 5])
              (Some [Some 0; Some 3; Some 1; Some 4; Some 2; Some 5])));
    [lia | lia | reflexivity].
Defined.

(** C9 as stated fails: [interleaver_init] does not validate its
    dimensions, and on -2 rows and -3 columns it succeeds (returns 0) with
    tables of (-2) * (-3) = 6 cells of which both loops write none.  So
    [perm] holds no value at position 0 of the range below [rows * cols],
    and is no bijection on it. *)
Lemma interleaver_tables_counterexample :
  interleaver_init true true (-2) (-3)
  = Some (0, mkInterleaver (-2) (-3) (Some (replicate 6 None))
                                     (Some (replicate 6 None)))
  ∧ 0 ≤ 0 < (-2) * (-3)
  ∧ ¬ ∃ j, 0 ≤ j < (-2) * (-3)
           ∧ replicate 6 (@None Z) !! Z.to_nat 0 = Some (Some j)
           ∧ replicate 6 (@None Z) !! Z.to_nat j = Some (Some 0).
Proof.
  split; [vm_compute; reflexivity|]. split; [lia|].
  intros (j & _ & Hp & _). vm_compute in Hp. discriminate Hp.
Qed.

(** The distance between the images of two positions of the interleaved
    domain less than [L <= rows] apart. *)
Lemma inv_index_separated (rows cols L j1 j2 : Z) :
  1 ≤ rows → 1 ≤ cols → L ≤ rows →
  0 ≤ j1 → j1 < j2 → j2 < rows * cols → j2 - j1 < L →
  Z.min cols ((rows - L + 1) * cols - 1)
  ≤ Z.abs (inv_index rows cols j1 - inv_index rows cols j2).
Proof.
  intros Hrows Hcols HL H1 H12 H2 Hrun. unfold inv_index.
  pose proof (Z.mod_pos_bound j1 rows ltac:(lia)) as Hm1.
  pose proof (Z.mod_pos_bound j2 rows ltac:(lia)) as Hm2.
  pose proof (Z.div_mod j1 rows ltac:(lia)) as Hd1.
  pose proof (Z.div_mod j2 rows ltac:(lia)) as Hd2.
  set (r1 := j1 `mod` rows) in *. set (c1 := j1 / rows) in *.
  set (r2 := j2 `mod` rows) in *. set (c2 := j2 / rows) in *.
  clearbody r1 c1 r2 c2.
  assert (c2 = c1 ∨ c2 = c1 + 1) as [-> | ->] by nia.
  - assert (r1 < r2) by nia.
    assert (cols ≤ (r2 - r1) * cols) by nia. lia.
  - assert (rows - L + 1 ≤ r1 - r2) by nia.
    assert ((rows - L + 1) * cols ≤ (r1 - r2) * cols) by nia. lia.
Qed.

(** C6, as the code has it.  For [rows >= 1], [cols >= 1] and [L <= rows],
    every contiguous run of [L] positions of the interleaved domain is moved
    by [interleaver_deapply] to distinct positions, any two of them at least
    [min (cols, (rows - L + 1) * cols - 1)] apart, hence at least
    [cols - 1] apart: at least 6 apart for 8 rows, 6 columns and runs
    of 6. *)
Theorem burst_dispersion (rows cols L : Z) :
  1 ≤ rows → 1 ≤ cols → L ≤ rows →
  burst_separated rows cols L (Z.min cols ((rows - L + 1) * cols - 1))
  ∧ cols - 1 ≤ Z.min cols ((rows - L + 1) * cols - 1).
Proof.
  intros Hrows Hcols HL. split; [|nia].
  intros ok_perm ok_inv itl q Hinit Hq j1 j2 a b H1 H12 H2 Hrun Ha Hb.
  destruct (interleaver_init_ok _ _ _ _ _ Hinit) as [-> ->].
  destruct (interleaver_init_run rows cols) as (p & q' & Hrun' & Hinv); [lia..|].
  rewrite Hrun' in Hinit. injection Hinit as <-. injection Hq as ->.
  pose proof (init_inv_index rows cols p q ltac:(lia) ltac:(lia) Hinv) as Hidx.
  destruct (Hidx j1 ltac:(lia)) as (_ & Ha' & _ & _ & _ & Hp1).
  destruct (Hidx j2 ltac:(lia)) as (_ & Hb' & _ & _ & _ & Hp2).
  rewrite Ha in Ha'. rewrite Hb in Hb'.
  injection Ha' as ->. injection Hb' as ->.
  split.
  - intros Heq. rewrite Heq in Hp1. lia.
  - by apply inv_index_separated.
Qed.

Lemma burst_dispersion_witness :
  burst_separated 8 6 6 (Z.min 6 ((8 - 6 + 1) * 6 - 1))
  ∧ 6 - 1 ≤ Z.min 6 ((8 - 6 + 1) * 6 - 1).
Proof. apply (burst_dispersion 8 6 6); lia. Defined.

(** C6 as stated fails in its own scenario: with 8 rows and 6 columns the
    neighbouring positions 10 and 11 of the interleaved domain are moved
    to 13 and 19, which are 6 apart, not 7 or more. *)
Lemma burst_dispersion_counterexample : ¬ burst_separated 8 6 6 (8 - 1).
Proof.
  intros H.
  destruct (interleaver_init true true 8 6) as [[rc itl]|] eqn:Hinit;
    [|vm_compute in Hinit; discriminate].
  vm_compute in Hinit. injection Hinit as <- <-.
  destruct (H true true _ _ eq_refl eq_refl 10 11 13 19) as [_ Hsep];
    [lia.. | reflexivity | reflexivity |].
  vm_compute in Hsep. apply Hsep. reflexivity.
Qed.

(** * Further properties of the encoder *)

Lemma population_count_step (x : Z) :
  0 < x → population_count x = Z.land x 1 + population_count (Z.shiftr x 1).
Proof.
  intros Hx. destruct x as [|p|p]; [lia | | lia].
  destruct p as [q|q|]; cbn; reflexivity.
Qed.

Lemma popcount_loop_correct (fuel : nat) (x c : Z) :
  0 ≤ x < 2 ^ Z.of_nat fuel →
  popcount_loop fuel x c = c + population_count x.
Proof.
  revert x c. induction fuel as [|fuel IH]; intros x c Hx.
  - assert (x = 0) as -> by (change (2 ^ Z.of_nat 0) with 1 in Hx; lia).
    simpl. lia.
  - cbn [popcount_loop]. destruct (Z.eqb_spec x 0) as [->|Hne]; [simpl; lia|].
    rewrite IH.
    + rewrite (population_count_step x) by lia. lia.
    + rewrite Z.shiftr_div_pow2 by lia. change (2 ^ 1) with 2.
      rewrite Nat2Z.inj_succ, Z.pow_succ_r in Hx by lia.
      split; [apply Z.div_pos; lia | apply Z.div_lt_upper_bound; lia].
Qed.

(** [popcount] returns the number of set bits of every 32-bit value: the
    loop of the source is over within the 32 iterations the model runs. *)
Theorem popcount_counts_set_bits (x : Z) :
  0 ≤ x < 2 ^ 32 → popcount x = population_count x.
Proof.
  intros Hx. unfold popcount. rewrite popcount_loop_correct; [lia|].
  change (Z.of_nat 32) with 32. done.
Qed.

Lemma popcount_counts_set_bits_witness : popcount 4294967295 = population_count 4294967295.
Proof. apply (popcount_counts_set_bits 4294967295). lia. Defined.

Lemma expected_full_state_inj (s a b : Z) :
  0 ≤ s < 64 → 0 ≤ a < 2 → 0 ≤ b < 2 →
  expected CONV_G0 (full_state s a) = expected CONV_G0 (full_state s b) → a = b.
Proof.
  intros Hs Ha Hb Heq. destruct (expected_complement s Hs) as [Hc _].
  assert (a = 0 ∨ a = 1) as [-> | ->] by lia;
    (assert (b = 0 ∨ b = 1) as [-> | ->] by lia); congruence.
Qed.

Lemma cons2_inv {A} (a b c d : A) (l k : list A) :
  a :: b :: l = c :: d :: k → a = c ∧ b = d ∧ l = k.
Proof. intros [= -> -> ->]. done. Qed.

Lemma conv_bits_inj (state : Z) (x y : list Z) :
  0 ≤ state < 128 → Forall is_bit x → Forall is_bit y →
  conv_bits state x = conv_bits state y → x = y.
Proof.
  intros Hst Hx. revert state y Hst.
  induction Hx as [|a x Ha Hx IH]; intros state y Hst Hy Heq.
  - destruct y; [done | discriminate].
  - destruct Hy as [|b y Hb Hy]; [discriminate|].
    cbn [conv_bits] in Heq. cbv zeta in Heq.
    apply cons2_inv in Heq as (H0 & _ & Hrest).
    destruct (shift_in_full_state state a Hst) as [Ea _].
    destruct (shift_in_full_state state b Hst) as [Eb _].
    destruct (is_bit_land a Ha) as [La Ra]. destruct (is_bit_land b Hb) as [Lb Rb].
    rewrite Ea, Eb, La, Lb in H0.
    apply expected_full_state_inj in H0; [|apply land_63_range | done..].
    subst b. f_equal. apply (IH (shift_in state a)); [apply shift_in_range | done..].
Qed.

(** The encoder is injective: two bit sequences of the same length that it
    encodes to the same coded bits are equal. *)
Theorem conv_encode_injective (x y out out' : list Z) (n : Z) :
  n = Z.of_nat (length x) → n = Z.of_nat (length y) →
  Forall is_bit x → Forall is_bit y →
  Z.of_nat (length out) = 2 * n → Z.of_nat (length out') = 2 * n →
  conv_encode x n out = conv_encode y n out' → x = y.
Proof.
  intros Hx Hy Bx By Ho Ho' Heq.
  rewrite !conv_encode_run in Heq by lia. injection Heq as Heq.
  rewrite !drop_ge, !app_nil_r in Heq by lia.
  rewrite !take_ge in Heq by lia.
  apply (conv_bits_inj 0); [lia | done..].
Qed.

Lemma conv_encode_injective_witness : [1; 0; 1] = [1; 0; 1].
Proof.
  apply (conv_encode_injective [1; 0; 1] [1; 0; 1] (replicate 6 0) (replicate 6 5) 3);
    try reflexivity;
    repeat (apply Forall_cons_2; [unfold is_bit; lia|]); apply Forall_nil_2.
Defined.

Lemma shift_in_lxor (s1 s2 a b : Z) :
  shift_in (Z.lxor s1 s2) (Z.lxor a b)
  = Z.lxor (shift_in s1 a) (shift_in s2 b).
Proof.
  apply Z.bits_inj'. intros k Hk.
  rewrite Z.lxor_spec, !shift_in_testbit by done.
  destruct (k <? 7); [|done]. cbn [andb].
  destruct (k =? 0); by rewrite Z.lxor_spec.
Qed.

Lemma expected_lxor (u v : Z) :
  0 ≤ u < 128 → 0 ≤ v < 128 →
  expected CONV_G0 (Z.lxor u v)
  = Z.lxor (expected CONV_G0 u) (expected CONV_G0 v)
  ∧ expected CONV_G1 (Z.lxor u v)
    = Z.lxor (expected CONV_G1 u) (expected CONV_G1 v).
Proof.
  intros Hu Hv.
  pose proof (range2_forallb
    (λ u v,
       (expected CONV_G0 (Z.lxor u v)
          =? Z.lxor (expected CONV_G0 u) (expected CONV_G0 v))
       && (expected CONV_G1 (Z.lxor u v)
          =? Z.lxor (expected CONV_G1 u) (expected CONV_G1 v)))
    128 128 ltac:(vm_compute; reflexivity) u v Hu Hv) as H.
  cbv beta in H. apply andb_true_iff in H as [H1 H2].
  apply Z.eqb_eq in H1, H2. split; assumption.
Qed.

Lemma conv_bits_lxor (s1 s2 : Z) (x y : list Z) :
  0 ≤ s1 < 128 → 0 ≤ s2 < 128 → length x = length y →
  conv_bits (Z.lxor s1 s2) (xor_bits x y)
  = xor_bits (conv_bits s1 x) (conv_bits s2 y).
Proof.
  revert s1 s2 y. induction x as [|a x IH]; intros s1 s2 y H1 H2 Hlen.
  - by destruct y.
  - destruct y as [|b y]; [discriminate|]. simpl in Hlen.
    unfold xor_bits. cbn [zip_with conv_bits]. cbv zeta.
    fold (xor_bits x y).
    fold (xor_bits (conv_bits (shift_in s1 a) x) (conv_bits (shift_in s2 b) y)).
    rewrite shift_in_lxor.
    destruct (expected_lxor (shift_in s1 a) (shift_in s2 b)
                (shift_in_range _ _) (shift_in_range _ _)) as [-> ->].
    rewrite IH by (apply shift_in_range || lia). done.
Qed.

(** The code is linear over GF(2): the encoder's output for the bitwise
    sum of two inputs is the bitwise sum of its outputs for each. *)
Theorem conv_encode_linear (x y out : list Z) (n : Z) :
  n = Z.of_nat (length x) → n = Z.of_nat (length y) →
  Z.of_nat (length out) = 2 * n →
  ∃ cx cy,
    conv_encode x n out = Some cx ∧ conv_encode y n out = Some cy
    ∧ conv_encode (xor_bits x y) n out = Some (xor_bits cx cy).
Proof.
  intros Hx Hy Hout.
  assert (length (xor_bits x y) = length x) as Hl
    by (unfold xor_bits; rewrite length_zip_with; lia).
  rewrite !conv_encode_run by lia.
  rewrite !drop_ge, !app_nil_r, !take_ge by lia.
  eexists _, _. split; [done|]. split; [done|]. f_equal.
  change 0 with (Z.lxor 0 0) at 1. apply conv_bits_lxor; lia.
Qed.

Lemma conv_encode_linear_witness :
  ∃ cx cy,
    conv_encode [1; 0; 1] 3 (replicate 6 0) = Some cx
    ∧ conv_encode [0; 1; 1] 3 (replicate 6 0) = Some cy
    ∧ conv_encode (xor_bits [1; 0; 1] [0; 1; 1]) 3 (replicate 6 0)
      = Some (xor_bits cx cy).
Proof.
  apply (conv_encode_linear [1; 0; 1] [0; 1; 1] (replicate 6 0) 3); reflexivity.
Defined.

(** * The decoder as a maximum-likelihood search *)

Lemma foldr_add_app (l k : list Z) :
  foldr Z.add 0 (l ++ k) = foldr Z.add 0 l + foldr Z.add 0 k.
Proof. induction l as [|a l IH]; simpl; lia. Qed.

Lemma hamming_app (a b a' b' : list Z) :
  length a = length b →
  hamming (a ++ a') (b ++ b') = hamming a b + hamming a' b'.
Proof.
  intros Hl. unfold hamming. rewrite zip_with_app by done. apply foldr_add_app.
Qed.

Lemma hamming_range (a b : list Z) : 0 ≤ hamming a b ≤ Z.of_nat (length a).
Proof.
  unfold hamming. revert b. induction a as [|x a IH]; intros b; [simpl; lia|].
  destruct b as [|y b]; [simpl; lia|]. cbn [zip_with foldr length].
  pose proof (ne_int_range x y). specialize (IH b). lia.
Qed.

Lemma sigma_full (u : list Z) :
  sigma u (length u) = Z.land (enc_state u) (CONV_STATES - 1).
Proof. unfold sigma. by rewrite take_ge. Qed.

Lemma sigma_app_le (u v : list Z) (k : nat) :
  (k ≤ length u)%nat → sigma (u ++ v) k = sigma u k.
Proof. intros Hk. unfold sigma. by rewrite take_app_le. Qed.

(** One more input bit: the state, the coded pair and the distance. *)
Lemma snoc_step (coded u : list Z) (b c0 c1 : Z) (t : Z) :
  0 ≤ t → length u = Z.to_nat t → is_bit b →
  coded !! Z.to_nat (2 * t) = Some c0 →
  coded !! Z.to_nat (2 * t + 1) = Some c1 →
  sigma (u ++ [b]) (length (u ++ [b])) = next_state (sigma u (length u)) b
  ∧ ∀ pm,
      hamming (conv_bits 0 (u ++ [b]))
              (take (Z.to_nat (2 * (t + 1))) (received_bits coded))
      = hamming (conv_bits 0 u) (take (Z.to_nat (2 * t)) (received_bits coded))
        + (candidate metric_hard (Z.land c0 1, Z.land c1 1) pm
                     (sigma u (length u)) b
           - pm_get pm (sigma u (length u))).
Proof.
  intros Ht Hu Hb H0 H1.
  destruct (is_bit_land b Hb) as [Eb _].
  destruct (sigma_S (u ++ [b]) (length u) b) as [Hfull Hnext].
  { by rewrite list_lookup_middle. }
  rewrite (sigma_app_le u [b] (length u)), Eb in Hfull, Hnext by lia.
  rewrite take_ge in Hfull by (rewrite length_app; simpl; lia).
  split.
  { rewrite length_app. simpl.
    replace (length u + 1)%nat with (S (length u)) by lia. done. }
  intros pm.
  replace (Z.to_nat (2 * (t + 1))) with (S (S (Z.to_nat (2 * t)))) by lia.
  assert (received_bits coded !! Z.to_nat (2 * t) = Some (Z.land c0 1)) as R0
    by (unfold received_bits; by rewrite list_lookup_fmap, H0).
  assert (received_bits coded !! S (Z.to_nat (2 * t)) = Some (Z.land c1 1)) as R1.
  { unfold received_bits. rewrite list_lookup_fmap.
    replace (S (Z.to_nat (2 * t))) with (Z.to_nat (2 * t + 1)) by lia.
    by rewrite H1. }
  rewrite (take_S_r _ _ _ R1), (take_S_r _ _ _ R0), <- app_assoc.
  rewrite conv_bits_snoc. fold (enc_state u).
  change (shift_in (enc_state u) b) with (enc_state (u ++ [b])) || idtac.
  assert (shift_in (enc_state u) b = full_state (sigma u (length u)) b) as ->.
  { rewrite <- Hfull. unfold enc_state. by rewrite foldl_snoc. }
  rewrite hamming_app.
  - unfold candidate, metric_hard, hamming. cbn [fst snd zip_with foldr app]. lia.
  - rewrite length_conv_bits, length_take.
    apply lookup_lt_Some in R0. lia.
Qed.

Lemma snoc_decompose (u : list Z) (k : nat) :
  length u = S k → ∃ v b, u = v ++ [b] ∧ length v = k.
Proof.
  intros Hl. destruct (lookup_lt_is_Some_2 u k) as [b Hb]; [lia|].
  exists (take k u), b. split.
  - rewrite <- (take_S_r _ _ _ Hb). by rewrite take_ge by lia.
  - rewrite length_take. lia.
Qed.

(** The cell of a state after a step of the hard decoder is the cheapest
    candidate among its reachable predecessors, with that predecessor as
    survivor. *)
Lemma hard_cell_min (r : Z * Z) (pm : list Z) (row : path_row) (t : Z)
    (pm' : list Z) (row' : path_row) (ns : Z) :
  0 ≤ t ≤ 256 → pm_ok t pm → length row = 64%nat →
  viterbi_step metric_hard r pm row = (pm', row') → 0 ≤ ns < 64 →
  (∀ p, p = ns / 2 ∨ p = ns / 2 + 32 → pm_get pm p < VITERBI_INF →
        pm_get pm' ns ≤ candidate metric_hard r pm p (ns `mod` 2))
  ∧ (pm_get pm' ns < VITERBI_INF →
     ∃ p, (p = ns / 2 ∨ p = ns / 2 + 32) ∧ pm_get pm p < VITERBI_INF
          ∧ pm_get pm' ns = candidate metric_hard r pm p (ns `mod` 2)
          ∧ row' !! Z.to_nat ns = Some (Some p)).
Proof.
  intros Ht [Hlen Hpm] Hrow Hstep Hns.
  pose proof VITERBI_INF_big as Hbig. change (2 ^ 64) with 18446744073709551616 in Hbig.
  destruct (viterbi_step_cell metric_hard r pm row ns Hrow Hns) as [[_ Hl] Hc].
  rewrite Hstep in Hl, Hc. unfold cell_of in Hc. cbn [fst snd] in Hl, Hc.
  assert (0 ≤ ns / 2 < 64 ∧ 0 ≤ ns / 2 + 32 < 64) as [H0 H1]
    by (Z.div_mod_to_equations; lia).
  pose proof (Hpm _ H0). pose proof (Hpm _ H1).
  pose proof (candidate_hard_range r pm (ns / 2) (ns `mod` 2)).
  pose proof (candidate_hard_range r pm (ns / 2 + 32) (ns `mod` 2)).
  assert (∀ p, row' !!! Z.to_nat ns = Some p →
               row' !! Z.to_nat ns = Some (Some p)) as Hlk.
  { intros p <-. apply list_lookup_lookup_total_lt. lia. }
  split.
  - intros p [-> | ->] Hfin; cell_cases Hc; injection Hc as Hm Hr; lia.
  - intros Hfin. cell_cases Hc; injection Hc as Hm Hr; try lia;
      (eexists; split; [|split; [|split; [exact Hm | apply Hlk; exact Hr]]];
       [lia | lia]).
Qed.

Lemma ml_inv_init (coded : list Z) : ml_inv coded 0 (pm_init, path_init).
Proof.
  split; cbn [fst snd].
  - intros u _ Hu. destruct u; [|discriminate]. simpl.
    rewrite pm_init_get by (apply sigma_range). unfold hamming. simpl.
    by destruct (sigma [] 0 =? 0).
  - intros s Hs Hfin. rewrite pm_init_get in Hfin by done.
    destruct (Z.eqb_spec s 0) as [->|]; [|lia].
    exists []. split; [constructor|]. split; [done|]. split; [done|].
    split; [|intros; lia]. rewrite pm_init_get by lia. done.
Qed.

Lemma ml_inv_step (coded : list Z) (t c0 c1 : Z) (pm : list Z)
    (path : list path_row) (row : path_row) (pm' : list Z) (row' : path_row) :
  0 ≤ t < 256 →
  coded !! Z.to_nat (2 * t) = Some c0 →
  coded !! Z.to_nat (2 * t + 1) = Some c1 →
  fwd_inv t (pm, path) → ml_inv coded t (pm, path) →
  length row = 64%nat →
  viterbi_step metric_hard (Z.land c0 1, Z.land c1 1) pm row = (pm', row') →
  ml_inv coded (t + 1) (pm', <[Z.to_nat t := row']> path).
Proof.
  intros Ht H0 H1 (Hpm & Hpl & _) [Hlb Hach] Hrow Hstep. cbn [fst snd] in *.
  pose proof VITERBI_INF_big as Hbig. change (2 ^ 64) with 18446744073709551616 in Hbig.
  assert (0 ≤ t ≤ 256) as Ht' by lia.
  pose proof (λ ns, hard_cell_min _ pm row t pm' row' ns Ht' Hpm Hrow Hstep)
    as Hcell.
  split; cbn [fst snd].
  - intros u' Hbits Hlen.
    destruct (snoc_decompose u' (Z.to_nat t)) as (u & b & -> & Hu); [lia|].
    apply Forall_app in Hbits as [Hbu Hb]. apply Forall_cons in Hb as [Hb _].
    destruct (snoc_step coded u b c0 c1 t ltac:(lia) Hu Hb H0 H1) as [Hnext Hcost].
    rewrite Hnext, (Hcost pm).
    pose proof (sigma_range u (length u)) as Hσ.
    destruct (is_bit_land b Hb) as [_ Hbr].
    pose proof (next_state_range _ b Hσ Hbr) as Hns.
    destruct (Hcell _ Hns) as [Hle _].
    assert (b = next_state (sigma u (length u)) b `mod` 2
            ∧ (sigma u (length u) = next_state (sigma u (length u)) b / 2
               ∨ sigma u (length u) = next_state (sigma u (length u)) b / 2 + 32))
      as [Hbm Hp] by (apply next_state_pred; done).
    specialize (Hlb u Hbu Hu).
    pose proof (hamming_range (conv_bits 0 u)
                  (take (Z.to_nat (2 * t)) (received_bits coded))) as Hh.
    rewrite length_conv_bits in Hh.
    specialize (Hle (sigma u (length u)) Hp ltac:(lia)).
    rewrite <- Hbm in Hle. lia.
  - intros s Hs Hfin.
    destruct (Hcell s Hs) as [_ Hex].
    destruct (Hex Hfin) as (p & Hp & Hpfin & Hm & Hr).
    assert (0 ≤ p < 64 ∧ 0 ≤ s `mod` 2 < 2) as [Hpr Hbr]
      by (Z.div_mod_to_equations; lia).
    destruct (Hach p Hpr Hpfin) as (u & Hbu & Hu & Hσ & Hcost & Hrows).
    assert (is_bit (s `mod` 2)) as Hb by (unfold is_bit; lia).
    destruct (snoc_step coded u (s `mod` 2) c0 c1 t ltac:(lia) Hu Hb H0 H1)
      as [Hnext Hcost'].
    assert (s = next_state p (s `mod` 2)) as Hsn by (apply next_state_pred; done).
    exists (u ++ [s `mod` 2]).
    split; [apply Forall_app; split; [done | by apply Forall_singleton]|].
    split; [rewrite length_app; simpl; lia|].
    split; [rewrite Hnext, Hσ; done|].
    split; [rewrite (Hcost' pm), Hσ, Hcost, Hm; lia|].
    intros k Hk. destruct (decide (k = Z.to_nat t)) as [->|Hne].
    + exists row'. rewrite list_lookup_insert_eq by lia. split; [done|].
      rewrite <- Hu at 1 2.
      replace (S (length u)) with (length (u ++ [s `mod` 2]))
        by (rewrite length_app; simpl; lia).
      rewrite Hnext, sigma_app_le, Hσ, <- Hsn by lia. done.
    + destruct (Hrows k ltac:(lia)) as (row0 & Hr0 & Hr1).
      exists row0. rewrite list_lookup_insert_ne by done. split; [done|].
      rewrite !sigma_app_le by lia. done.
Qed.

(** The forward pass on any received bytes, with both invariants. *)
Lemma viterbi_forward_ml (coded : list Z) (max_len : Z) :
  0 ≤ max_len ≤ 256 → 2 * max_len ≤ Z.of_nat (length coded) →
  ∃ pm path,
    viterbi_forward metric_hard (recv_hard coded) max_len = Some (pm, path)
    ∧ fwd_inv max_len (pm, path) ∧ ml_inv coded max_len (pm, path).
Proof.
  intros Hm Hlen. unfold viterbi_forward.
  destruct (for_loop_inv (λ t st, fwd_inv t st ∧ ml_inv coded t st) max_len
              (forward_body metric_hard (recv_hard coded)) (pm_init, path_init))
    as ([pm path] & Hrun & Hinv & Hml); [lia | | | by exists pm, path].
  { split; [apply fwd_inv_init | apply ml_inv_init]. }
  intros t [pm path] Ht [Hinv Hml].
  destruct (recv_hard_Some coded t) as (c0 & c1 & H0 & H1 & Hr); [lia..|].
  destruct (forward_body_hard _ _ t pm path ltac:(lia) Hr Hinv)
    as (row & pm' & row' & Hrow & Hrl & Hstep & Hbody & Hinv').
  eexists. split; [exact Hbody|]. split; [done|].
  apply (ml_inv_step coded t c0 c1 pm path row); (done || lia).
Qed.

Lemma delayed_along (u : list Z) (n : nat) :
  Forall is_bit u → n = length u →
  (λ t : nat, out_bit (sigma u (S t))) <$> seq 0 n = delayed u n.
Proof.
  intros Hbits ->. unfold delayed. apply list_fmap_ext. intros i t Hi.
  apply lookup_seq in Hi as [Ht Hi]. simpl in Ht. subst i.
  rewrite out_bit_sigma by lia. destruct (t <? 5)%nat eqn:E; [done|].
  apply is_bit_land.
  eapply (Forall_lookup_1 _ _ (t - 5)%nat _ Hbits).
  apply list_lookup_lookup_total_lt. lia.
Qed.

(** On any received bytes the hard decoder finds an input sequence whose
    encoding is nearest in Hamming distance to the received hard bits, and
    returns that sequence delayed by five positions. *)
Theorem viterbi_decode_maximum_likelihood (coded : list Z) (n_coded : Z)
    (decoded : list Z) :
  1 ≤ Z.quot n_coded 2 →
  2 * max_len_of n_coded ≤ Z.of_nat (length coded) →
  max_len_of n_coded ≤ Z.of_nat (length decoded) →
  ∃ u,
    Forall is_bit u ∧ Z.of_nat (length u) = max_len_of n_coded
    ∧ (∀ v, Forall is_bit v → length v = length u →
         hamming (conv_bits 0 u)
                 (take (2 * length u) (received_bits coded))
         ≤ hamming (conv_bits 0 v)
                   (take (2 * length u) (received_bits coded)))
    ∧ viterbi_decode coded n_coded decoded
      = Some (max_len_of n_coded,
              delayed u (length u) ++ drop (length u) decoded).
Proof.
  intros Hq Hc Hd. destruct (max_len_of_range n_coded Hq) as [_ Hm].
  set (m := max_len_of n_coded) in *.
  destruct (viterbi_forward_ml coded m) as (pm & path & Hfwd & Hinv & Hlb & Hach);
    [lia | done |].
  cbn [fst snd] in *.
  destruct (best_state_spec pm) as (Hb & Hmin & _).
  destruct (best_state_reachable _ _ _ Hinv) as [_ Htr].
  assert (pm_get pm (best_state pm) < VITERBI_INF) as Hfin.
  { destruct Hinv as (_ & _ & _ & (s & Hs & Hsf) & _). cbn [fst snd] in *.
    specialize (Hmin s Hs). lia. }
  destruct (Hach _ Hb Hfin) as (u & Hbu & Hu & Hσ & Hcost & Hrows).
  exists u. split; [done|]. split; [lia|].
  replace (2 * length u)%nat with (Z.to_nat (2 * m)) by lia.
  split.
  - intros v Hbv Hv. rewrite Hcost.
    specialize (Hlb v Hbv ltac:(lia)).
    specialize (Hmin _ (sigma_range v (length v))). lia.
  - unfold viterbi_decode. cbv zeta.
    destruct (Z.ltb_spec (Z.quot n_coded 2) 1); [lia|].
    fold m. rewrite Hfwd. cbn [mbind option_bind].
    rewrite traceback_run by done. cbn [mbind option_bind].
    rewrite <- Hu in Hrows |- *.
    rewrite <- Hσ, (trace_bits_along path (sigma u)) by done.
    rewrite delayed_along by done. done.
Qed.

Lemma viterbi_decode_maximum_likelihood_witness :
  ∃ u,
    Forall is_bit u ∧ Z.of_nat (length u) = max_len_of 8
    ∧ (∀ v, Forall is_bit v → length v = length u →
         hamming (conv_bits 0 u)
                 (take (2 * length u) (received_bits [1; 1; 1; 0; 0; 1; 1; 0]))
         ≤ hamming (conv_bits 0 v)
                   (take (2 * length u) (received_bits [1; 1; 1; 0; 0; 1; 1; 0])))
    ∧ viterbi_decode [1; 1; 1; 0; 0; 1; 1; 0] 8 [7; 7; 7; 7]
      = Some (max_len_of 8, delayed u (length u) ++ drop (length u) [7; 7; 7; 7]).
Proof.
  apply (viterbi_decode_maximum_likelihood [1; 1; 1; 0; 0; 1; 1; 0] 8 [7; 7; 7; 7]).
  - change (Z.quot 8 2) with 4. lia.
  - change (max_len_of 8) with 4. simpl. lia.
  - change (max_len_of 8) with 4. simpl. lia.
Defined.

(** * Further properties of the decoders *)

(** On the saturated ratios of any received hard bits, of any length, the
    soft decoder is defined and returns what the hard decoder returns. *)
Theorem soft_matches_hard_on_any_bits (coded : list Z) (n_coded : Z)
    (decoded : list Z) :
  Forall is_bit coded → 1 ≤ Z.quot n_coded 2 →
  2 * max_len_of n_coded ≤ Z.of_nat (length coded) →
  max_len_of n_coded ≤ Z.of_nat (length decoded) →
  ∃ res,
    viterbi_decode coded n_coded decoded = Some res
    ∧ viterbi_decode_soft (llr_of_bit <$> coded) n_coded decoded = Some res.
Proof.
  intros Hbits Hq Hc Hd.
  destruct (viterbi_decode_run coded n_coded decoded Hq Hc Hd)
    as (pm & path & _ & Hrun).
  eexists. split; [exact Hrun|].
  rewrite soft_hard_agree by done. exact Hrun.
Qed.

Lemma soft_matches_hard_on_any_bits_witness :
  ∃ res,
    viterbi_decode [1; 0; 0; 0; 1; 1] 6 [7; 7; 7] = Some res
    ∧ viterbi_decode_soft (llr_of_bit <$> [1; 0; 0; 0; 1; 1]) 6 [7; 7; 7]
      = Some res.
Proof.
  apply (soft_matches_hard_on_any_bits [1; 0; 0; 0; 1; 1] 6 [7; 7; 7]).
  - repeat (apply Forall_cons_2; [unfold is_bit; lia|]). apply Forall_nil_2.
  - change (Z.quot 6 2) with 3. lia.
  - change (max_len_of 6) with 3. simpl. lia.
  - change (max_len_of 6) with 3. simpl. lia.
Defined.

(** With fewer than two coded bits, a negative count included, both
    decoders return 0 and neither read nor write an array. *)
Theorem viterbi_decode_nothing_to_decode (coded llr decoded : list Z)
    (n_coded : Z) :
  n_coded ≤ 1 →
  viterbi_decode coded n_coded decoded = Some (0, decoded)
  ∧ viterbi_decode_soft llr n_coded decoded = Some (0, decoded).
Proof.
  intros Hn.
  assert (Z.quot n_coded 2 ≤ Z.quot 1 2) as Hq by (apply Z.quot_le_mono; lia).
  change (Z.quot 1 2) with 0 in Hq.
  unfold viterbi_decode, viterbi_decode_soft. cbv zeta.
  destruct (Z.ltb_spec (Z.quot n_coded 2) 1); [done | lia].
Qed.

Lemma viterbi_decode_nothing_to_decode_witness :
  viterbi_decode [] (-3) [5] = Some (0, [5])
  ∧ viterbi_decode_soft [] (-3) [5] = Some (0, [5]).
Proof. apply (viterbi_decode_nothing_to_decode [] [] [5] (-3)). lia. Defined.

Lemma load_fmap {A B} (f : A → B) (l : list A) (i : Z) :
  load (f <$> l) i = f <$> load l i.
Proof. unfold load. case_decide; [apply list_lookup_fmap | done]. Qed.

(** The hard decoder looks at the low bit of each received byte only. *)
Theorem viterbi_decode_low_bits (coded decoded : list Z) (n_coded : Z) :
  viterbi_decode coded n_coded decoded
  = viterbi_decode (received_bits coded) n_coded decoded.
Proof.
  unfold viterbi_decode. cbv zeta.
  destruct (Z.quot n_coded 2 <? 1); [done|].
  assert (viterbi_forward metric_hard (recv_hard (received_bits coded))
            (max_len_of n_coded)
          = viterbi_forward metric_hard (recv_hard coded) (max_len_of n_coded))
    as ->; [|done].
  unfold viterbi_forward. apply for_loop_ext. intros t [pm path] _.
  unfold forward_body, recv_hard, received_bits. rewrite !load_fmap.
  destruct (load coded (2 * t)) as [c0|]; [|done].
  destruct (load coded (2 * t + 1)) as [c1|]; [|done].
  cbn [fmap option_fmap option_map mbind option_bind].
  by rewrite !land_1_idemp.
Qed.

(** Of an odd number of coded bits, three or more, the hard decoder ignores
    the last: it does what it does for one bit fewer. *)
Theorem viterbi_decode_odd_length (coded decoded : list Z) (n_coded : Z) :
  3 ≤ n_coded → Z.odd n_coded = true →
  viterbi_decode coded n_coded decoded
  = viterbi_decode coded (n_coded - 1) decoded.
Proof.
  intros Hn Hodd.
  assert (Z.quot n_coded 2 = Z.quot (n_coded - 1) 2) as Hq.
  { rewrite !Z.quot_div_nonneg by lia.
    apply Zodd_bool_iff in Hodd. apply Zodd_ex in Hodd as [k ->].
    replace (2 * k + 1 - 1) with (k * 2) by lia.
    replace (2 * k + 1) with (1 + k * 2) by lia.
    rewrite Z.div_add, Z.div_mul by lia. change (1 / 2) with 0. lia. }
  unfold viterbi_decode, max_len_of. cbv zeta. by rewrite Hq.
Qed.

Lemma viterbi_decode_odd_length_witness :
  viterbi_decode [3; 2; 255; 1; 9] 5 [7; 7]
  = viterbi_decode [3; 2; 255; 1; 9] (5 - 1) [7; 7].
Proof.
  apply (viterbi_decode_odd_length [3; 2; 255; 1; 9] [7; 7] 5); [lia | reflexivity].
Defined.

(** * Further properties of the interleaver *)

Lemma init_tables_scatter (rows cols : Z) (p q : list (option Z)) :
  0 ≤ rows → 0 ≤ cols → init_inv rows cols rows 0 (p, q) →
  (∀ i, 0 ≤ i < rows * cols →
     p !! Z.to_nat i = Some (Some (perm_index rows cols i))
     ∧ 0 ≤ perm_index rows cols i < rows * cols)
  ∧ (∀ i i', 0 ≤ i < rows * cols → 0 ≤ i' < rows * cols →
       perm_index rows cols i = perm_index rows cols i' → i = i')
  ∧ (∀ i, 0 ≤ i < rows * cols →
       q !! Z.to_nat i = Some (Some (inv_index rows cols i))
       ∧ 0 ≤ inv_index rows cols i < rows * cols)
  ∧ (∀ i i', 0 ≤ i < rows * cols → 0 ≤ i' < rows * cols →
       inv_index rows cols i = inv_index rows cols i' → i = i').
Proof.
  intros Hrows Hcols Hinv.
  pose proof (init_inv_index rows cols p q Hrows Hcols Hinv) as Hidx.
  split; [|split; [|split]].
  - intros i Hi. destruct (Hidx i Hi) as (? & _ & ? & _). done.
  - intros i i' Hi Hi' Heq.
    destruct (Hidx i Hi) as (_ & _ & _ & _ & <- & _).
    destruct (Hidx i' Hi') as (_ & _ & _ & _ & <- & _). by rewrite Heq.
  - intros i Hi. destruct (Hidx i Hi) as (_ & ? & _ & ? & _). done.
  - intros i i' Hi Hi' Heq.
    destruct (Hidx i Hi) as (_ & _ & _ & _ & _ & <-).
    destruct (Hidx i' Hi') as (_ & _ & _ & _ & _ & <-). by rewrite Heq.
Qed.

(** The round trip of a block through the two tables. *)
Lemma scatter_roundtrip (rows cols : Z) (p q : list (option Z))
    (x out1 out2 : list Z) :
  0 ≤ rows → 0 ≤ cols → init_inv rows cols rows 0 (p, q) →
  Z.of_nat (length x) = rows * cols →
  Z.of_nat (length out1) = rows * cols →
  Z.of_nat (length out2) = rows * cols →
  ∃ y, scatter (Some p) (rows * cols) x out1 (rows * cols) = Some y
       ∧ scatter (Some q) (rows * cols) y out2 (rows * cols) = Some x.
Proof.
  intros Hrows Hcols Hinv Hx Ho1 Ho2.
  pose proof (init_inv_index rows cols p q Hrows Hcols Hinv) as Hidx.
  destruct (init_tables_scatter rows cols p q Hrows Hcols Hinv)
    as (Hp & Hpi & Hq & Hqi).
  destruct (scatter_block rows cols p (perm_index rows cols) x out1)
    as (y & Hy & Hly & Hmy); [done..|].
  destruct (scatter_block rows cols q (inv_index rows cols) y out2)
    as (z & Hz & Hlz & Hmz); [lia | done..|].
  exists y. split; [done|]. rewrite Hz. f_equal.
  apply list_eq. intros k.
  destruct (decide (Z.of_nat k < rows * cols)) as [Hk|Hk].
  - destruct (Hidx (Z.of_nat k) ltac:(lia)) as (_ & _ & Hpr & _ & Hip & _).
    specialize (Hmz _ Hpr). rewrite Hip, Nat2Z.id in Hmz. rewrite Hmz.
    specialize (Hmy (Z.of_nat k) ltac:(lia)). by rewrite Nat2Z.id in Hmy.
  - rewrite !lookup_ge_None_2 by lia. done.
Qed.

(** [interleaver_apply] on any count [n]: it moves the first
    [min (n, rows * cols)] elements, [in[i]] to [out[perm[i]]], and leaves
    every other cell of [out] as it was.  A count beyond the block is
    clamped, a count of zero or less moves nothing. *)
Theorem interleaver_apply_partial (ok_perm ok_inv : bool) (rows cols n : Z)
    (itl : Interleaver) (x out : list Z) :
  0 ≤ rows → 0 ≤ cols →
  interleaver_init ok_perm ok_inv rows cols = Some (0, itl) →
  Z.min n (rows * cols) ≤ Z.of_nat (length x) →
  Z.of_nat (length out) = rows * cols →
  ∃ out',
    interleaver_apply itl x out n = Some out'
    ∧ length out' = length out
    ∧ (∀ i, 0 ≤ i < Z.min n (rows * cols) →
         out' !! Z.to_nat (perm_index rows cols i) = x !! Z.to_nat i)
    ∧ (∀ j : nat,
         (∀ i, 0 ≤ i < Z.min n (rows * cols) →
               Z.to_nat (perm_index rows cols i) ≠ j) →
         out' !! j = out !! j).
Proof.
  intros Hrows Hcols Hinit Hx Hout.
  destruct (interleaver_init_ok _ _ _ _ _ Hinit) as [-> ->].
  destruct (interleaver_init_run rows cols Hrows Hcols) as (p & q & Hrun & Hinv).
  rewrite Hrun in Hinit. injection Hinit as <-.
  destruct (init_tables_scatter rows cols p q Hrows Hcols Hinv)
    as (Hp & Hpi & _).
  rewrite interleaver_apply_mk.
  destruct (Z.le_gt_cases 0 n) as [Hn|Hn].
  - destruct (scatter_run p (perm_index rows cols) (rows * cols) n
                (Z.min n (rows * cols)) x out) as (out' & Hs & Hrest);
      [done | nia | done | | | by exists out'].
    + intros i Hi. destruct (Hp i ltac:(lia)). split; [done | lia].
    + intros i i' Hi Hi'. apply Hpi; lia.
  - exists out. unfold scatter. rewrite for_loop_end by lia.
    split; [done|]. split; [done|]. split; [intros; lia | done].
Qed.

Lemma interleaver_apply_partial_witness :
  ∃ out',
    interleaver_apply (mkInterleaver 2 3
        (Some [Some 0; Some 2; Some 4; Some 1; Some 3; Some 5])
        (Some [Some 0; Some 3; Some 1; Some 4; Some 2; Some 5]))
      [1; 1] (replicate 6 7) 2 = Some out'
    ∧ length out' = length (replicate 6 7)
    ∧ (∀ i, 0 ≤ i < Z.min 2 (2 * 3) →
         out' !! Z.to_nat (perm_index 2 3 i) = [1; 1] !! Z.to_nat i)
    ∧ (∀ j : nat,
         (∀ i, 0 ≤ i < Z.min 2 (2 * 3) → Z.to_nat (perm_index 2 3 i) ≠ j) →
         out' !! j = replicate 6 7 !! j).
Proof.
  apply (interleaver_apply_partial true true 2 3 2);
    [lia | lia | reflexivity | simpl; lia | reflexivity].
Defined.

(** [interleaver_init] returns -1 exactly when an allocation fails, and
    then writes no table; the block whose allocation succeeded stays in the
    handle, indeterminate. *)
Theorem interleaver_init_failure (ok_perm ok_inv : bool) (rows cols : Z) :
  ok_perm && ok_inv = false →
  interleaver_init ok_perm ok_inv rows cols
  = Some (-1, mkInterleaver rows cols
                (if ok_perm then Some (replicate (Z.to_nat (rows * cols)) None)
                 else None)
                (if ok_inv then Some (replicate (Z.to_nat (rows * cols)) None)
                 else None)).
Proof.
  intros Hok. unfold interleaver_init, malloc. cbv zeta.
  destruct ok_perm, ok_inv; [discriminate | done..].
Qed.

Lemma interleaver_init_failure_witness :
  interleaver_init true false 2 3
  = Some (-1, mkInterleaver 2 3
                (if true then Some (replicate (Z.to_nat (2 * 3)) None) else None)
                (if false then Some (replicate (Z.to_nat (2 * 3)) None) else None)).
Proof. apply (interleaver_init_failure true false 2 3). reflexivity. Defined.

Lemma for_loop_fails_at_0 {S} (n : Z) (body : Z → S → option S) (s : S) :
  1 ≤ n → body 0 s = None → for_loop n body s = None.
Proof.
  intros Hn Hb. unfold for_loop. rewrite seqZ_cons by lia. cbn [foldl mbind option_bind].
  rewrite Hb. generalize (seqZ (Z.succ 0) (Z.pred n)). intros l.
  induction l as [|i l IH]; [done | exact IH].
Qed.

(** The dimensions are not validated: for two negative dimensions
    [interleaver_init] allocates [rows * cols] cells, writes none of them
    and still returns 0, after which any [interleaver_apply] of one element
    or more reads an indeterminate cell. *)
Theorem interleaver_negative_dimensions (rows cols n : Z) (x out : list Z) :
  rows < 0 → cols < 0 → 1 ≤ n →
  ∃ itl,
    interleaver_init true true rows cols = Some (0, itl)
    ∧ perm itl = Some (replicate (Z.to_nat (rows * cols)) None)
    ∧ (0 < length (replicate (Z.to_nat (rows * cols)) (@None Z)))%nat
    ∧ interleaver_apply itl x out n = None.
Proof.
  intros Hrows Hcols Hn.
  unfold interleaver_init, malloc. cbv zeta.
  rewrite for_loop_end by lia. cbn [mbind option_bind].
  eexists. split; [done|]. cbn [perm]. split; [done|].
  assert (0 < rows * cols) as Hsize by nia.
  split; [rewrite length_replicate; lia|].
  rewrite interleaver_apply_mk.
  unfold scatter. apply for_loop_fails_at_0; [lia|].
  cbn [mbind option_bind]. unfold scatter_body, load_init.
  destruct (load x 0) as [v|]; [|done]. cbn [mbind option_bind].
  rewrite (load_Some _ 0 None); [done | lia |].
  apply lookup_replicate_2. lia.
Qed.

Lemma interleaver_negative_dimensions_witness :
  ∃ itl,
    interleaver_init true true (-2) (-3) = Some (0, itl)
    ∧ perm itl = Some (replicate (Z.to_nat (-2 * -3)) None)
    ∧ (0 < length (replicate (Z.to_nat (-2 * -3)) (@None Z)))%nat
    ∧ interleaver_apply itl [1; 0] (replicate 6 0) 2 = None.
Proof.
  apply (interleaver_negative_dimensions (-2) (-3) 2); lia.
Defined.

(** The inverse table of a [rows] by [cols] interleaver is the permutation
    table of a [cols] by [rows] one, and conversely: deinterleaving is
    interleaving with the dimensions exchanged. *)
Theorem interleaver_transpose (rows cols : Z) (itl1 itl2 : Interleaver) :
  0 ≤ rows → 0 ≤ cols →
  interleaver_init true true rows cols = Some (0, itl1) →
  interleaver_init true true cols rows = Some (0, itl2) →
  inv itl1 = perm itl2 ∧ perm itl1 = inv itl2
  ∧ ∀ x out n, interleaver_deapply itl1 x out n = interleaver_apply itl2 x out n.
Proof.
  intros Hrows Hcols H1 H2.
  destruct (interleaver_init_run rows cols Hrows Hcols) as (p1 & q1 & Hr1 & Hi1).
  destruct (interleaver_init_run cols rows Hcols Hrows) as (p2 & q2 & Hr2 & Hi2).
  rewrite Hr1 in H1. rewrite Hr2 in H2. injection H1 as <-. injection H2 as <-.
  pose proof (init_inv_index rows cols p1 q1 Hrows Hcols Hi1) as Hx1.
  pose proof (init_inv_index cols rows p2 q2 Hcols Hrows Hi2) as Hx2.
  destruct Hi1 as (Hlp1 & Hlq1 & _). destruct Hi2 as (Hlp2 & Hlq2 & _).
  cbn [fst snd perm inv] in *.
  assert (q1 = p2) as Hqp.
  { apply (list_eq_same_length _ _ (Z.to_nat (rows * cols)));
      [rewrite Hlp2; f_equal; lia | done |].
    intros i a b Hi Ha Hb.
    destruct (Hx1 (Z.of_nat i) ltac:(lia)) as (_ & Hq & _).
    destruct (Hx2 (Z.of_nat i) ltac:(lia)) as (Hp & _).
    rewrite Nat2Z.id in Hq, Hp. rewrite Ha in Hq. rewrite Hb in Hp.
    injection Hq as ->. injection Hp as ->. reflexivity. }
  assert (p1 = q2) as Hpq.
  { apply (list_eq_same_length _ _ (Z.to_nat (rows * cols)));
      [rewrite Hlq2; f_equal; lia | done |].
    intros i a b Hi Ha Hb.
    destruct (Hx1 (Z.of_nat i) ltac:(lia)) as (Hp & _).
    destruct (Hx2 (Z.of_nat i) ltac:(lia)) as (_ & Hq & _).
    rewrite Nat2Z.id in Hq, Hp. rewrite Ha in Hp. rewrite Hb in Hq.
    injection Hq as ->. injection Hp as ->. reflexivity. }
  subst. split; [done|]. split; [done|]. intros x out n.
  rewrite interleaver_deapply_mk, interleaver_apply_mk.
  by rewrite (Z.mul_comm cols rows).
Qed.

Lemma interleaver_transpose_witness :
  inv (mkInterleaver 2 3
         (Some [Some 0; Some 2; Some 4; Some 1; Some 3; Some 5])
         (Some [Some 0; Some 3; Some 1; Some 4; Some 2; Some 5]))
  = perm (mkInterleaver 3 2
            (Some [Some 0; Some 3; Some 1; Some 4; Some 2; Some 5])
            (Some [Some 0; Some 2; Some 4; Some 1; Some 3; Some 5]))
  ∧ perm (mkInterleaver 2 3
            (Some [Some 0; Some 2; Some 4; Some 1; Some 3; Some 5])
            (Some [Some 0; Some 3; Some 1; Some 4; Some 2; Some 5]))
    = inv (mkInterleaver 3 2
             (Some [Some 0; Some 3; Some 1; Some 4; Some 2; Some 5])
             (Some [Some 0; Some 2; Some 4; Some 1; Some 3; Some 5]))
  ∧ ∀ x out n,
      interleaver_deapply (mkInterleaver 2 3
          (Some [Some 0; Some 2; Some 4; Some 1; Some 3; Some 5])
          (Some [Some 0; Some 3; Some 1; Some 4; Some 2; Some 5])) x out n
      = interleaver_apply (mkInterleaver 3 2
          (Some [Some 0; Some 3; Some 1; Some 4; Some 2; Some 5])
          (Some [Some 0; Some 2; Some 4; Some 1; Some 3; Some 5])) x out n.
Proof.
  apply (interleaver_transpose 2 3
           (mkInterleaver 2 3
              (Some [Some 0; Some 2; Some 4; Some 1; Some 3; Some 5])
              (Some [Some 0; Some 3; Some 1; Some 4; Some 2; Some 5]))
           (mkInterleaver 3 2
              (Some [Some 0; Some 3; Some 1; Some 4; Some 2; Some 5])
              (Some [Some 0; Some 2; Some 4; Some 1; Some 3; Some 5])));
    [lia | lia | reflexivity | reflexivity].
Defined.

(** After [interleaver_free] the handle keeps its dimensions but holds two
    null pointers: applying it to one element or more dereferences null. *)
Theorem interleaver_use_after_free (itl : Interleaver) (x out : list Z) (n : Z) :
  1 ≤ n → 1 ≤ rows itl * cols itl →
  interleaver_apply (interleaver_free itl) x out n = None
  ∧ interleaver_deapply (interleaver_free itl) x out n = None.
Proof.
  intros Hn Hsize. unfold interleaver_free.
  rewrite interleaver_apply_mk, interleaver_deapply_mk. unfold scatter.
  split; (apply for_loop_fails_at_0; [lia | done]).
Qed.

Lemma interleaver_use_after_free_witness :
  interleaver_apply
    (interleaver_free (mkInterleaver 1 2 (Some [Some 0; Some 1])
                                         (Some [Some 0; Some 1])))
    [1; 0] [0; 0] 2 = None
  ∧ interleaver_deapply
      (interleaver_free (mkInterleaver 1 2 (Some [Some 0; Some 1])
                                           (Some [Some 0; Some 1])))
      [1; 0] [0; 0] 2 = None.
Proof.
  apply (interleaver_use_after_free
           (mkInterleaver 1 2 (Some [Some 0; Some 1]) (Some [Some 0; Some 1]))
           [1; 0] [0; 0] 2); simpl; lia.
Defined.

(** * The chain of the transceiver

    Encoder, interleaver, deinterleaver and decoder in a row, as in the
    transceiver demonstration, without a channel in between. *)

(** A message of at most 256 bits that is encoded, interleaved over a block
    that holds its coded bits, deinterleaved and decoded comes out as the
    message delayed by five positions. *)
Theorem fec_chain_noiseless (ok_perm ok_inv : bool) (rows cols n : Z)
    (itl : Interleaver) (x padded out1 out2 decoded : list Z) :
  n = Z.of_nat (length x) → 1 ≤ n ≤ 256 → Forall is_bit x →
  1 ≤ rows → 1 ≤ cols → 2 * n ≤ rows * cols →
  interleaver_init ok_perm ok_inv rows cols = Some (0, itl) →
  Z.of_nat (length padded) = rows * cols →
  Z.of_nat (length out1) = rows * cols →
  Z.of_nat (length out2) = rows * cols →
  n ≤ Z.of_nat (length decoded) →
  ∃ coded y z,
    conv_encode x n padded = Some coded
    ∧ interleaver_apply itl coded out1 (rows * cols) = Some y
    ∧ interleaver_deapply itl y out2 (rows * cols) = Some z
    ∧ viterbi_decode z (2 * n) decoded
      = Some (n, delayed x (Z.to_nat n) ++ drop (Z.to_nat n) decoded).
Proof.
  intros Hn Hr Hbits Hrows Hcols Hfit Hinit Hpad Ho1 Ho2 Hdec.
  destruct (viterbi_decode_noiseless x n padded decoded Hn Hr ltac:(lia) Hdec)
    as (coded & Henc & Hdecode).
  assert (Z.of_nat (length coded) = rows * cols) as Hlc.
  { pose proof Henc as Hrun. rewrite conv_encode_run in Hrun by lia.
    injection Hrun as <-.
    rewrite length_app, length_conv_bits, length_take, length_drop. lia. }
  destruct (interleaver_init_ok _ _ _ _ _ Hinit) as [-> ->].
  destruct (interleaver_init_run rows cols) as (p & q & Hrun & Hinv); [lia..|].
  rewrite Hrun in Hinit. injection Hinit as <-.
  destruct (scatter_roundtrip rows cols p q coded out1 out2)
    as (y & Hy & Hz); [lia | lia | done..|].
  exists coded, y, coded.
  rewrite interleaver_apply_mk, interleaver_deapply_mk.
  split; [done|]. split; [done|]. split; [done|].
  rewrite Hdecode. do 3 f_equal. unfold delayed.
  apply list_fmap_ext. intros i t Hi.
  apply lookup_seq in Hi as [Ht Hi]. simpl in Ht. subst i.
  destruct (t <? 5)%nat; [done|]. apply is_bit_land.
  eapply (Forall_lookup_1 _ _ (t - 5)%nat _ Hbits).
  apply list_lookup_lookup_total_lt. lia.
Qed.

Lemma fec_chain_noiseless_witness :
  ∃ coded y z,
    conv_encode [1; 0; 1] 3 (replicate 6 0) = Some coded
    ∧ interleaver_apply (mkInterleaver 2 3
          (Some [Some 0; Some 2; Some 4; Some 1; Some 3; Some 5])
          (Some [Some 0; Some 3; Some 1; Some 4; Some 2; Some 5]))
        coded (replicate 6 0) (2 * 3) = Some y
    ∧ interleaver_deapply (mkInterleaver 2 3
          (Some [Some 0; Some 2; Some 4; Some 1; Some 3; Some 5])
          (Some [Some 0; Some 3; Some 1; Some 4; Some 2; Some 5]))
        y (replicate 6 0) (2 * 3) = Some z
    ∧ viterbi_decode z (2 * 3) [7; 7; 7]
      = Some (3, delayed [1; 0; 1] (Z.to_nat 3) ++ drop (Z.to_nat 3) [7; 7; 7]).
Proof.
  apply (fec_chain_noiseless true true 2 3 3); try reflexivity; try lia.
  repeat (apply Forall_cons_2; [unfold is_bit; lia|]). apply Forall_nil_2.
Defined.

(** * Parity *)

Lemma parity_of_snoc (l : list Z) (b : Z) :
  parity_of (l ++ [b]) = Z.lxor (parity_of l) (Z.land b 1).
Proof. unfold parity_of. by rewrite foldl_snoc. Qed.

Lemma parity_of_range (l : list Z) : 0 ≤ parity_of l < 2.
Proof.
  induction l as [|b l IH] using rev_ind; [unfold parity_of; simpl; lia|].
  rewrite parity_of_snoc. pose proof (land_1_range b).
  assert (parity_of l = 0 ∨ parity_of l = 1) as [-> | ->] by lia;
    (assert (Z.land b 1 = 0 ∨ Z.land b 1 = 1) as [-> | ->] by lia);
    rewrite ?Z.lxor_0_l, ?Z.lxor_0_r, ?Z.lxor_nilpotent; lia.
Qed.

Lemma parity_of_app (a b : list Z) :
  parity_of (a ++ b) = Z.lxor (parity_of a) (parity_of b).
Proof.
  induction b as [|c b IH] using rev_ind.
  - rewrite app_nil_r. unfold parity_of at 3. simpl. by rewrite Z.lxor_0_r.
  - by rewrite app_assoc, !parity_of_snoc, IH, Z.lxor_assoc.
Qed.

Lemma parity_of_flip (c : Z) :
  parity_of [Z.lxor c 1] = Z.lxor (parity_of [c]) 1.
Proof.
  unfold parity_of. cbn [foldl]. rewrite !Z.lxor_0_l.
  apply Z.bits_inj'. intros k Hk.
  rewrite Z.lxor_spec, !Z.land_spec, Z.lxor_spec.
  by destruct (Z.testbit c k), (Z.testbit 1 k).
Qed.

(** [parity_even] is defined on the first [n] bytes of an array that has
    them, and is the parity of their low bits. *)
Lemma parity_even_run (bits : list Z) (n : Z) :
  0 ≤ n ≤ Z.of_nat (length bits) →
  parity_even bits n = Some (parity_of (take (Z.to_nat n) bits)).
Proof.
  intros Hn. unfold parity_even.
  destruct (for_loop_inv (λ i p, p = parity_of (take (Z.to_nat i) bits)) n
              (λ i p, b ← load bits i; Some (Z.lxor p (Z.land b 1))) 0)
    as (p & -> & ->); [lia | done | | done].
  intros i p Hi ->.
  destruct (lookup_lt_is_Some_2 bits (Z.to_nat i)) as [b Hb]; [lia|].
  rewrite (load_Some bits i b) by (lia || done). cbn [mbind option_bind].
  eexists. split; [done|].
  replace (Z.to_nat (i + 1)) with (S (Z.to_nat i)) by lia.
  by rewrite (take_S_r _ _ b), parity_of_snoc.
Qed.

Lemma parity_encode_run (inp out : list Z) (n : Z) :
  0 ≤ n ≤ Z.of_nat (length inp) → n < Z.of_nat (length out) →
  parity_encode inp n out
  = Some (take (Z.to_nat n) inp
          ++ parity_of (take (Z.to_nat n) inp) :: drop (S (Z.to_nat n)) out).
Proof.
  intros Hn Hout. unfold parity_encode, memcpy.
  rewrite decide_True by lia. cbn [mbind option_bind].
  rewrite parity_even_run by lia. cbn [mbind option_bind].
  rewrite store_Some by (rewrite length_app, length_take, length_drop; lia).
  f_equal. rewrite insert_app_r_alt by (rewrite length_take; lia).
  rewrite length_take. replace (Z.to_nat n - Z.to_nat n `min` length inp)%nat
    with 0%nat by lia.
  f_equal.
  destruct (drop (Z.to_nat n) out) as [|w rest] eqn:Hd.
  - apply (f_equal length) in Hd. rewrite length_drop in Hd. simpl in Hd. lia.
  - simpl. f_equal.
    change (S (Z.to_nat n)) with (1 + Z.to_nat n)%nat.
    rewrite Nat.add_comm, <- drop_drop, Hd. done.
Qed.

(** A codeword of [parity_encode] passes [parity_check]. *)
Theorem parity_roundtrip (inp out : list Z) (n : Z) :
  0 ≤ n ≤ Z.of_nat (length inp) → n < Z.of_nat (length out) →
  ∃ codeword,
    parity_encode inp n out = Some codeword
    ∧ parity_check codeword (n + 1) = Some 0.
Proof.
  intros Hn Hout. rewrite parity_encode_run by done.
  eexists. split; [done|]. unfold parity_check.
  set (d := take (Z.to_nat n) inp).
  assert (length d = Z.to_nat n) as Hd by (unfold d; rewrite length_take; lia).
  rewrite parity_even_run by (rewrite length_app; simpl; lia).
  f_equal. replace (Z.to_nat (n + 1)) with (S (Z.to_nat n)) by lia.
  rewrite (take_S_r _ _ (parity_of d)) by (by rewrite list_lookup_middle).
  rewrite take_app_length' by done.
  rewrite parity_of_snoc. pose proof (parity_of_range d).
  assert (parity_of d = 0 ∨ parity_of d = 1) as [-> | ->] by lia; reflexivity.
Qed.

Lemma parity_roundtrip_witness :
  ∃ codeword,
    parity_encode [1; 0; 1; 1] 4 (replicate 5 0) = Some codeword
    ∧ parity_check codeword (4 + 1) = Some 0.
Proof. apply (parity_roundtrip [1; 0; 1; 1] (replicate 5 0) 4); simpl; lia. Defined.

(** Inverting the low bit of any one byte of a codeword makes
    [parity_check] return 1. *)
Theorem parity_detects_single_error (inp out : list Z) (n k : Z) :
  0 ≤ n ≤ Z.of_nat (length inp) → n < Z.of_nat (length out) → 0 ≤ k ≤ n →
  ∃ codeword c,
    parity_encode inp n out = Some codeword
    ∧ codeword !! Z.to_nat k = Some c
    ∧ parity_check (<[Z.to_nat k := Z.lxor c 1]> codeword) (n + 1) = Some 1.
Proof.
  intros Hn Hout Hk. rewrite parity_encode_run by done.
  set (d := take (Z.to_nat n) inp).
  assert (length d = Z.to_nat n) as Hd by (unfold d; rewrite length_take; lia).
  set (cw := d ++ parity_of d :: drop (S (Z.to_nat n)) out).
  assert (take (S (Z.to_nat n)) cw = d ++ [parity_of d]) as Hcw.
  { unfold cw. rewrite (take_S_r _ _ (parity_of d))
      by (by rewrite list_lookup_middle).
    by rewrite take_app_length'. }
  assert (parity_of (d ++ [parity_of d]) = 0) as Hzero.
  { rewrite parity_of_snoc. pose proof (parity_of_range d).
    assert (parity_of d = 0 ∨ parity_of d = 1) as [-> | ->] by lia;
      reflexivity. }
  destruct (lookup_lt_is_Some_2 cw (Z.to_nat k)) as [c Hc].
  { unfold cw. rewrite length_app. simpl. lia. }
  exists cw, c. split; [done|]. split; [done|].
  unfold parity_check.
  rewrite parity_even_run by (rewrite length_insert; unfold cw;
                              rewrite length_app; simpl; lia).
  f_equal. replace (Z.to_nat (n + 1)) with (S (Z.to_nat n)) by lia.
  rewrite take_insert_lt by lia. rewrite Hcw.
  assert ((d ++ [parity_of d]) !! Z.to_nat k = Some c) as Hc'.
  { rewrite <- Hcw. rewrite lookup_take_lt by lia. done. }
  rewrite <- (take_drop_middle _ _ _ Hc') in Hzero.
  rewrite insert_take_drop by (rewrite length_app; simpl; lia).
  rewrite parity_of_app in Hzero |- *.
  change (c :: drop (S (Z.to_nat k)) (d ++ [parity_of d]))
    with ([c] ++ drop (S (Z.to_nat k)) (d ++ [parity_of d])) in Hzero.
  change (Z.lxor c 1 :: drop (S (Z.to_nat k)) (d ++ [parity_of d]))
    with ([Z.lxor c 1] ++ drop (S (Z.to_nat k)) (d ++ [parity_of d])).
  rewrite parity_of_app in Hzero |- *.
  rewrite parity_of_flip.
  pose proof (parity_of_range (take (Z.to_nat k) (d ++ [parity_of d]))) as R1.
  pose proof (parity_of_range [c]) as R2.
  pose proof (parity_of_range (drop (S (Z.to_nat k)) (d ++ [parity_of d]))) as R3.
  revert Hzero.
  generalize (parity_of (take (Z.to_nat k) (d ++ [parity_of d]))),
             (parity_of [c]),
             (parity_of (drop (S (Z.to_nat k)) (d ++ [parity_of d]))) , R1, R2, R3.
  intros a b e Ra Rb Re.
  assert (a = 0 ∨ a = 1) as [-> | ->] by lia;
    (assert (b = 0 ∨ b = 1) as [-> | ->] by lia);
    (assert (e = 0 ∨ e = 1) as [-> | ->] by lia);
    rewrite ?Z.lxor_0_l, ?Z.lxor_0_r, ?Z.lxor_nilpotent, ?Z.lxor_0_l, ?Z.lxor_0_r;
    intros; (done || lia).
Qed.

Lemma parity_detects_single_error_witness :
  ∃ codeword c,
    parity_encode [1; 0; 1; 1] 4 (replicate 5 0) = Some codeword
    ∧ codeword !! Z.to_nat 2 = Some c
    ∧ parity_check (<[Z.to_nat 2 := Z.lxor c 1]> codeword) (4 + 1) = Some 1.
Proof.
  apply (parity_detects_single_error [1; 0; 1; 1] (replicate 5 0) 4 2); simpl; lia.
Defined.

(** * Hamming(7,4) *)

Ltac list_of_length l H :=
  repeat (destruct l as [|? l]; simpl in H; try lia).

Ltac bits_of H :=
  repeat match type of H with
         | Forall _ (_ :: _) =>
             let Hb := fresh "Hb" in
             apply Forall_cons_1 in H as [Hb H]; destruct Hb as [-> | ->]
         end; clear H.

Lemma position_cases (k : Z) :
  0 ≤ k < 7 → k = 0 ∨ k = 1 ∨ k = 2 ∨ k = 3 ∨ k = 4 ∨ k = 5 ∨ k = 6.
Proof. lia. Qed.

(** Decoding the codeword of four data bits returns -1 (no error) and the
    four bits, whatever the output arrays held before. *)
Theorem hamming74_roundtrip (data4 code7 out : list Z) :
  Forall is_bit data4 → length data4 = 4%nat →
  length code7 = 7%nat → length out = 4%nat →
  ∃ codeword,
    hamming74_encode data4 code7 = Some codeword
    ∧ Forall is_bit codeword
    ∧ take 4 codeword = data4
    ∧ hamming74_decode codeword out = Some (-1, data4).
Proof.
  intros Hbits H4 H7 Ho.
  list_of_length data4 H4. list_of_length code7 H7. list_of_length out Ho.
  bits_of Hbits;
    (eexists; split; [vm_compute; reflexivity|];
     split; [repeat (apply Forall_cons_2; [unfold is_bit; lia|]);
             apply Forall_nil_2|];
     split; vm_compute; reflexivity).
Qed.

Lemma hamming74_roundtrip_witness :
  ∃ codeword,
    hamming74_encode [1; 0; 1; 1] (replicate 7 9) = Some codeword
    ∧ Forall is_bit codeword
    ∧ take 4 codeword = [1; 0; 1; 1]
    ∧ hamming74_decode codeword (replicate 4 9) = Some (-1, [1; 0; 1; 1]).
Proof.
  apply (hamming74_roundtrip [1; 0; 1; 1] (replicate 7 9) (replicate 4 9));
    try reflexivity.
  repeat (apply Forall_cons_2; [unfold is_bit; lia|]). apply Forall_nil_2.
Defined.

(** When one bit of a codeword, at any position [k], is inverted, the
    decoder returns [k] and the four data bits. *)
Theorem hamming74_corrects_single_error (data4 code7 out : list Z) (k : Z) :
  Forall is_bit data4 → length data4 = 4%nat →
  length code7 = 7%nat → length out = 4%nat → 0 ≤ k < 7 →
  ∃ codeword,
    hamming74_encode data4 code7 = Some codeword
    ∧ hamming74_decode
        (<[Z.to_nat k := Z.lxor (codeword !!! Z.to_nat k) 1]> codeword) out
      = Some (k, data4).
Proof.
  intros Hbits H4 H7 Ho Hk.
  list_of_length data4 H4. list_of_length code7 H7. list_of_length out Ho.
  apply position_cases in Hk.
  bits_of Hbits;
    (eexists; split; [vm_compute; reflexivity|]);
    repeat (destruct Hk as [-> | Hk]; [vm_compute; reflexivity|]);
    subst k; vm_compute; reflexivity.
Qed.

Lemma hamming74_corrects_single_error_witness :
  ∃ codeword,
    hamming74_encode [1; 0; 1; 1] (replicate 7 9) = Some codeword
    ∧ hamming74_decode
        (<[Z.to_nat 5 := Z.lxor (codeword !!! Z.to_nat 5) 1]> codeword)
        (replicate 4 9)
      = Some (5, [1; 0; 1; 1]).
Proof.
  apply (hamming74_corrects_single_error [1; 0; 1; 1] (replicate 7 9)
           (replicate 4 9) 5); try reflexivity; try lia.
  repeat (apply Forall_cons_2; [unfold is_bit; lia|]). apply Forall_nil_2.
Defined.

(** When two bits of a codeword are inverted, the decoder does not report
    it: it returns a third position as the corrected one, and data that
    differ from the four bits encoded. *)
Theorem hamming74_miscorrects_double_error
    (data4 code7 out : list Z) (j k : Z) :
  Forall is_bit data4 → length data4 = 4%nat →
  length code7 = 7%nat → length out = 4%nat →
  0 ≤ j < 7 → 0 ≤ k < 7 → j ≠ k →
  ∃ codeword pos data,
    hamming74_encode data4 code7 = Some codeword
    ∧ hamming74_decode
        (<[Z.to_nat k := Z.lxor (codeword !!! Z.to_nat k) 1]>
           (<[Z.to_nat j := Z.lxor (codeword !!! Z.to_nat j) 1]> codeword))
        out
      = Some (pos, data)
    ∧ 0 ≤ pos < 7 ∧ pos ≠ j ∧ pos ≠ k ∧ data ≠ data4.
Proof.
  intros Hbits H4 H7 Ho Hj Hk Hjk.
  list_of_length data4 H4. list_of_length code7 H7. list_of_length out Ho.
  apply position_cases in Hj. apply position_cases in Hk.
  bits_of Hbits;
    (destruct Hj as [-> | [-> | [-> | [-> | [-> | [-> | ->]]]]]]);
    (destruct Hk as [-> | [-> | [-> | [-> | [-> | [-> | ->]]]]]]);
    try (exfalso; apply Hjk; reflexivity);
    (eexists; do 2 eexists; split; [vm_compute; reflexivity|];
     split; [vm_compute; reflexivity|];
     split; [lia|]; split; [lia|]; split; [lia|]; discriminate).
Qed.

Lemma hamming74_miscorrects_double_error_witness :
  ∃ codeword pos data,
    hamming74_encode [1; 0; 1; 1] (replicate 7 9) = Some codeword
    ∧ hamming74_decode
        (<[Z.to_nat 6 := Z.lxor (codeword !!! Z.to_nat 6) 1]>
           (<[Z.to_nat 4 := Z.lxor (codeword !!! Z.to_nat 4) 1]> codeword))
        (replicate 4 9)
      = Some (pos, data)
    ∧ 0 ≤ pos < 7 ∧ pos ≠ 4 ∧ pos ≠ 6 ∧ data ≠ [1; 0; 1; 1].
Proof.
  apply (hamming74_miscorrects_double_error [1; 0; 1; 1] (replicate 7 9)
           (replicate 4 9) 4 6); try reflexivity; try lia.
  repeat (apply Forall_cons_2; [unfold is_bit; lia|]). apply Forall_nil_2.
Defined.

(** * CRC *)

Lemma testbit_above (w a k : Z) :
  0 ≤ w → 0 ≤ a < 2 ^ w → w ≤ k → Z.testbit a k = false.
Proof.
  intros Hw Ha Hk. rewrite <- (Z.mod_small a (2 ^ w)) by lia.
  apply Z.mod_pow2_bits_high. lia.
Qed.

Lemma below_pow2 (w a : Z) :
  0 ≤ w → 0 ≤ a → (∀ k, w ≤ k → Z.testbit a k = false) → a < 2 ^ w.
Proof.
  intros Hw Ha Hbits.
  assert (a = a mod 2 ^ w) as ->.
  { apply Z.bits_inj'. intros k Hk. rewrite Z.testbit_mod_pow2 by lia.
    destruct (Z.ltb_spec k w); [done|]. by rewrite Hbits. }
  apply Z.mod_pos_bound. lia.
Qed.

Lemma land_pow2_testbit (a k : Z) :
  0 ≤ k → (Z.land a (2 ^ k) =? 0) = negb (Z.testbit a k).
Proof.
  intros Hk. destruct (Z.testbit a k) eqn:Hb; simpl.
  - apply Z.eqb_neq. intros H0. apply (f_equal (λ x, Z.testbit x k)) in H0.
    rewrite Z.land_spec, Hb, Z.pow2_bits_eqb, Z.eqb_refl, Z.bits_0 in H0 by lia.
    done.
  - apply Z.eqb_eq. apply Z.bits_inj'. intros i Hi.
    rewrite Z.land_spec, Z.pow2_bits_eqb, Z.bits_0 by lia.
    destruct (Z.eqb_spec k i) as [<-|]; [by rewrite Hb | by rewrite andb_false_r].
Qed.

(** ** The shift of a register *)

Lemma crc_shl_range (w poly crc : Z) : 0 ≤ w → 0 ≤ crc_shl w poly crc < 2 ^ w.
Proof. intros. unfold crc_shl. apply Z.mod_pos_bound. lia. Qed.

Lemma crc_shl_testbit (w poly crc k : Z) :
  0 ≤ w → 0 ≤ k →
  Z.testbit (crc_shl w poly crc) k
  = (k <? w) && xorb (Z.testbit crc (k - 1))
                     (Z.testbit crc (w - 1) && Z.testbit poly k).
Proof.
  intros Hw Hk. unfold crc_shl.
  rewrite Z.testbit_mod_pow2, Z.lxor_spec, Z.shiftl_spec by lia.
  by destruct (Z.testbit crc (w - 1)); rewrite ?Z.bits_0.
Qed.

Lemma crc_shl_small (w poly x : Z) :
  0 < w → 0 ≤ x < 2 ^ (w - 1) → crc_shl w poly x = 2 * x.
Proof.
  intros Hw Hx. unfold crc_shl.
  rewrite (testbit_above (w - 1) x (w - 1)) by lia.
  rewrite Z.lxor_0_r, Z.shiftl_mul_pow2 by lia.
  replace (2 ^ w) with (2 * 2 ^ (w - 1))
    by (rewrite <- Z.pow_succ_r by lia; f_equal; lia).
  rewrite Z.mod_small; lia.
Qed.

Lemma crc_shl_inj (w poly a b : Z) :
  0 < w → Z.testbit poly 0 = true →
  0 ≤ a < 2 ^ w → 0 ≤ b < 2 ^ w →
  crc_shl w poly a = crc_shl w poly b → a = b.
Proof.
  intros Hw Hp Ha Hb Heq.
  assert (∀ k, 0 ≤ k →
               Z.testbit (crc_shl w poly a) k = Z.testbit (crc_shl w poly b) k)
    as Hbits by (by intros; rewrite Heq).
  assert (Z.testbit a (w - 1) = Z.testbit b (w - 1)) as Htop.
  { specialize (Hbits 0 ltac:(lia)). rewrite !crc_shl_testbit in Hbits by lia.
    rewrite !Z.testbit_neg_r, Hp in Hbits by lia.
    destruct (Z.ltb_spec 0 w); [|lia]. simpl in Hbits.
    by destruct (Z.testbit a (w - 1)), (Z.testbit b (w - 1)). }
  apply Z.bits_inj'. intros k Hk.
  destruct (Z.lt_ge_cases k (w - 1)) as [Hlt | Hge].
  - specialize (Hbits (k + 1) ltac:(lia)).
    rewrite !crc_shl_testbit in Hbits by lia.
    replace (k + 1 - 1) with k in Hbits by lia. rewrite Htop in Hbits.
    destruct (Z.ltb_spec (k + 1) w); [|lia].
    simpl in Hbits. by apply xorb_move_l_r_2 in Hbits as ->;
      rewrite xorb_assoc, xorb_nilpotent, xorb_false_r.
  - destruct (Z.eq_dec k (w - 1)) as [-> | Hne]; [done|].
    rewrite (testbit_above w a k), (testbit_above w b k) by lia. done.
Qed.

Lemma crc_shr_range (poly crc : Z) :
  0 ≤ poly < 2 ^ 32 → 0 ≤ crc < 2 ^ 32 → 0 ≤ crc_shr poly crc < 2 ^ 32.
Proof.
  intros Hp Hc. unfold crc_shr.
  assert (0 ≤ Z.shiftr crc 1) by (apply Z.shiftr_nonneg; lia).
  assert (0 ≤ (if Z.testbit crc 0 then poly else 0))
    by (destruct (Z.testbit crc 0); lia).
  split; [apply Z.lxor_nonneg; lia|].
  apply below_pow2; [lia | apply Z.lxor_nonneg; lia|].
  intros k Hk. rewrite Z.lxor_spec, Z.shiftr_spec by lia.
  rewrite (testbit_above 32 crc (k + 1)) by lia.
  destruct (Z.testbit crc 0); [|by rewrite Z.bits_0].
  by rewrite (testbit_above 32 poly k) by lia.
Qed.

Lemma crc_shr_inj (poly a b : Z) :
  Z.testbit poly 31 = true → 0 ≤ poly < 2 ^ 32 →
  0 ≤ a < 2 ^ 32 → 0 ≤ b < 2 ^ 32 →
  crc_shr poly a = crc_shr poly b → a = b.
Proof.
  intros Hp Hpr Ha Hb Heq.
  assert (∀ k, 0 ≤ k → xorb (Z.testbit a (k + 1))
                             (Z.testbit a 0 && Z.testbit poly k)
                        = xorb (Z.testbit b (k + 1))
                               (Z.testbit b 0 && Z.testbit poly k)) as Hbits.
  { intros k Hk. apply (f_equal (λ x, Z.testbit x k)) in Heq.
    unfold crc_shr in Heq. rewrite !Z.lxor_spec, !Z.shiftr_spec in Heq by lia.
    by destruct (Z.testbit a 0), (Z.testbit b 0); rewrite ?Z.bits_0 in Heq. }
  assert (Z.testbit a 0 = Z.testbit b 0) as Hlow.
  { specialize (Hbits 31 ltac:(lia)).
    rewrite (testbit_above 32 a), (testbit_above 32 b), Hp in Hbits by lia.
    by destruct (Z.testbit a 0), (Z.testbit b 0). }
  apply Z.bits_inj'. intros k Hk.
  destruct (Z.eq_dec k 0) as [-> | Hne]; [done|].
  specialize (Hbits (k - 1) ltac:(lia)).
  replace (k - 1 + 1) with k in Hbits by lia. rewrite Hlow in Hbits.
  by destruct (Z.testbit a k), (Z.testbit b k), (Z.testbit b 0 && Z.testbit poly (k - 1)).
Qed.

(** ** The three registers as shifts *)

Lemma crc16_bit_shl (crc : Z) : crc16_bit crc = crc_shl 16 0x1021 crc.
Proof.
  unfold crc16_bit, crc_shl. change 0x8000 with (2 ^ 15).
  rewrite land_pow2_testbit, negb_involutive by lia. change (16 - 1) with 15.
  destruct (Z.testbit crc 15); cbv beta iota; [done | by rewrite Z.lxor_0_r].
Qed.

Lemma crc24_bit_shl (crc : Z) : crc24_bit crc = crc_shl 24 0xFFF409 crc.
Proof.
  unfold crc24_bit, crc_shl. change 0x800000 with (2 ^ 23).
  rewrite land_pow2_testbit, negb_involutive by lia. change (24 - 1) with 23.
  change 0xFFFFFF with (Z.ones 24). rewrite Z.land_ones by lia.
  destruct (Z.testbit crc 23); cbv beta iota;
    apply Z.bits_inj'; intros k Hk; rewrite !Z.testbit_mod_pow2 by lia;
    rewrite ?Z.lxor_spec, ?Z.testbit_mod_pow2, ?Z.bits_0 by lia;
    destruct (Z.ltb_spec k 24); try done;
    (destruct (Z.ltb_spec k 32); [|lia]); by rewrite ?xorb_false_r.
Qed.

Lemma crc32_bit_shr (crc : Z) : crc32_bit crc = crc_shr 0xEDB88320 crc.
Proof.
  unfold crc32_bit, crc_shr. change 1 with (2 ^ 0) at 1.
  rewrite land_pow2_testbit, negb_involutive by lia.
  destruct (Z.testbit crc 0); cbv beta iota; [done | by rewrite Z.lxor_0_r].
Qed.

Lemma foldl_bits (f : Z → Z) (x : Z) :
  foldl (λ crc _ : Z, f crc) x (seqZ 0 8) = Nat.iter 8 f x.
Proof. reflexivity. Qed.

Lemma iter_ext {A} (f g : A → A) (k : nat) (x : A) :
  (∀ a, f a = g a) → Nat.iter k f x = Nat.iter k g x.
Proof. intros Hfg. induction k as [|k IH]; simpl; [done|]. by rewrite IH, Hfg. Qed.

Lemma iter_keeps {A} (R : A → Prop) (f : A → A) (k : nat) (x : A) :
  (∀ a, R a → R (f a)) → R x → R (Nat.iter k f x).
Proof. intros Hf Hx. induction k as [|k IH]; simpl; auto. Qed.

Lemma iter_inj {A} (R : A → Prop) (f : A → A) (k : nat) (x y : A) :
  (∀ a, R a → R (f a)) → (∀ a b, R a → R b → f a = f b → a = b) →
  R x → R y → Nat.iter k f x = Nat.iter k f y → x = y.
Proof.
  intros Hf Hinj Hx Hy. induction k as [|k IH]; simpl; [done|].
  intros Heq. apply IH. apply Hinj; [by apply iter_keeps..|done].
Qed.

Lemma crc16_byte_shl (crc d : Z) :
  crc16_byte crc d
  = Nat.iter 8 (crc_shl 16 0x1021)
             (Z.lxor crc (Z.shiftl (d mod 2 ^ 16) 8) mod 2 ^ 16).
Proof.
  unfold crc16_byte. rewrite foldl_bits. apply iter_ext, crc16_bit_shl.
Qed.

Lemma crc24_byte_shl (crc d : Z) :
  crc24_byte crc d
  = Nat.iter 8 (crc_shl 24 0xFFF409) (Z.lxor crc (Z.shiftl d 16 mod 2 ^ 32)).
Proof.
  unfold crc24_byte. rewrite foldl_bits. apply iter_ext, crc24_bit_shl.
Qed.

Lemma crc32_byte_shr (crc d : Z) :
  crc32_byte crc d = Nat.iter 8 (crc_shr 0xEDB88320) (Z.lxor crc d).
Proof.
  unfold crc32_byte. rewrite foldl_bits. apply iter_ext, crc32_bit_shr.
Qed.

(** The loop over the bytes is a fold of the step over them. *)
Lemma crc_loop_run (step : Z → Z → Z) (init : Z) (data : list Z) (n : Z) :
  0 ≤ n ≤ Z.of_nat (length data) →
  for_loop n (λ i crc, d ← load data i; Some (step crc d)) init
  = Some (foldl step init (take (Z.to_nat n) data)).
Proof.
  intros Hn.
  destruct (for_loop_inv (λ i crc, crc = foldl step init (take (Z.to_nat i) data))
              n (λ i crc, d ← load data i; Some (step crc d)) init)
    as (crc & -> & ->); [lia | done | | done].
  intros i crc Hi ->.
  destruct (lookup_lt_is_Some_2 data (Z.to_nat i)) as [d Hd]; [lia|].
  rewrite (load_Some data i d) by (lia || done). cbn [mbind option_bind].
  eexists. split; [done|].
  replace (Z.to_nat (i + 1)) with (S (Z.to_nat i)) by lia.
  by rewrite (take_S_r _ _ d), foldl_snoc.
Qed.

(** A step that is injective in the register and in the byte tells apart
    two messages that differ in one byte. *)
Lemma fold_detects (R : Z → Prop) (step : Z → Z → Z) (init : Z)
    (pre post : list Z) (d d' : Z) :
  (∀ s b, R s → is_byte b → R (step s b)) →
  (∀ s s' b, R s → R s' → is_byte b → step s b = step s' b → s = s') →
  (∀ s b b', R s → is_byte b → is_byte b' → step s b = step s b' → b = b') →
  R init → Forall is_byte pre → Forall is_byte post →
  is_byte d → is_byte d' → d ≠ d' →
  foldl step init (pre ++ d :: post) ≠ foldl step init (pre ++ d' :: post).
Proof.
  intros Hkeep Hinj_s Hinj_b Hinit Hpre Hpost Hd Hd' Hne.
  rewrite !foldl_app. cbn [foldl].
  assert (R (foldl step init pre)) as Hs.
  { clear -Hkeep Hinit Hpre. revert init Hinit.
    induction Hpre as [|b pre Hb _ IH]; intros init Hinit; simpl; auto. }
  set (s := foldl step init pre) in *.
  assert (step s d ≠ step s d') as Hstep by (intros H; by apply Hinj_b in H).
  assert (R (step s d)) as H1 by auto. assert (R (step s d')) as H2 by auto.
  revert Hstep H1 H2. generalize (step s d), (step s d'). clear -Hkeep Hinj_s Hpost.
  induction Hpost as [|b post Hb _ IH]; intros x y Hxy Hx Hy; simpl; [done|].
  apply IH; auto. intros H. by apply Hinj_s in H.
Qed.

Lemma crc_shl_iter_small (w poly : Z) (k : nat) (x : Z) :
  0 < w → 0 ≤ x → 2 ^ Z.of_nat k * x < 2 ^ w →
  Nat.iter k (crc_shl w poly) x = 2 ^ Z.of_nat k * x.
Proof.
  intros Hw Hx. induction k as [|k IH]; intros Hlt; simpl Nat.iter.
  - change (Z.of_nat 0) with 0. lia.
  - rewrite Nat2Z.inj_succ, Z.pow_succ_r in Hlt |- * by lia.
    assert (2 ^ w = 2 * 2 ^ (w - 1)) as Hpow
      by (rewrite <- Z.pow_succ_r by lia; f_equal; lia).
    assert (0 < 2 ^ Z.of_nat k) by (apply Z.pow_pos_nonneg; lia).
    rewrite IH by nia. rewrite crc_shl_small by nia. lia.
Qed.

Lemma lxor_range (w a b : Z) :
  0 ≤ w → 0 ≤ a < 2 ^ w → 0 ≤ b < 2 ^ w → 0 ≤ Z.lxor a b < 2 ^ w.
Proof.
  intros Hw Ha Hb. assert (0 ≤ Z.lxor a b) by (apply Z.lxor_nonneg; lia).
  split; [done|]. apply below_pow2; [done..|].
  intros k Hk. rewrite Z.lxor_spec.
  by rewrite (testbit_above w a k), (testbit_above w b k) by lia.
Qed.

Lemma lxor_cancel_r (a b m : Z) : Z.lxor a m = Z.lxor b m → a = b.
Proof.
  intros H. apply (f_equal (λ x, Z.lxor x m)) in H.
  by rewrite !Z.lxor_assoc, Z.lxor_nilpotent, !Z.lxor_0_r in H.
Qed.

Lemma lxor_cancel_l (a m m' : Z) : Z.lxor a m = Z.lxor a m' → m = m'.
Proof. rewrite !(Z.lxor_comm a). apply lxor_cancel_r. Qed.

Lemma lxor_mod (w a b : Z) :
  0 ≤ w → Z.lxor a b mod 2 ^ w = Z.lxor (a mod 2 ^ w) (b mod 2 ^ w).
Proof.
  intros Hw. apply Z.bits_inj'. intros k Hk.
  rewrite Z.lxor_spec, !Z.testbit_mod_pow2, Z.lxor_spec by lia.
  by destruct (k <? w).
Qed.

(** ** CRC-16 *)

Lemma crc16_byte_range (s b : Z) : 0 ≤ crc16_byte s b < 2 ^ 16.
Proof.
  rewrite crc16_byte_shl.
  apply (iter_keeps (λ x, 0 ≤ x < 2 ^ 16)).
  - intros. apply crc_shl_range. lia.
  - apply Z.mod_pos_bound. lia.
Qed.

Lemma crc16_iter_inj (x y : Z) :
  0 ≤ x < 2 ^ 16 → 0 ≤ y < 2 ^ 16 →
  Nat.iter 8 (crc_shl 16 0x1021) x = Nat.iter 8 (crc_shl 16 0x1021) y → x = y.
Proof.
  apply (iter_inj (λ x, 0 ≤ x < 2 ^ 16)).
  - intros. apply crc_shl_range. lia.
  - intros a b Ha Hb. by apply crc_shl_inj.
Qed.

Lemma crc16_byte_inj_reg (s s' b : Z) :
  0 ≤ s < 2 ^ 16 → 0 ≤ s' < 2 ^ 16 →
  crc16_byte s b = crc16_byte s' b → s = s'.
Proof.
  intros Hs Hs'. rewrite !crc16_byte_shl. intros H.
  apply crc16_iter_inj in H; [|apply Z.mod_pos_bound; lia..].
  rewrite !lxor_mod in H by lia. apply lxor_cancel_r in H.
  by rewrite !Z.mod_small in H by lia.
Qed.

Lemma crc16_byte_inj_byte (s b b' : Z) :
  is_byte b → is_byte b' → crc16_byte s b = crc16_byte s b' → b = b'.
Proof.
  unfold is_byte. intros Hb Hb'. rewrite !crc16_byte_shl. intros H.
  apply crc16_iter_inj in H; [|apply Z.mod_pos_bound; lia..].
  rewrite !lxor_mod in H by lia. apply lxor_cancel_l in H.
  rewrite (Z.mod_small b), (Z.mod_small b'), !Z.shiftl_mul_pow2 in H by lia.
  rewrite !Z.mod_small in H by lia. lia.
Qed.

Lemma crc16_byte_top (s : Z) :
  0 ≤ s < 2 ^ 16 → crc16_byte s (Z.shiftr s 8) = s mod 2 ^ 8 * 2 ^ 8.
Proof.
  intros Hs. rewrite crc16_byte_shl.
  assert (Z.lxor s (Z.shiftl (Z.shiftr s 8 mod 2 ^ 16) 8) mod 2 ^ 16
          = s mod 2 ^ 8) as ->.
  { apply Z.bits_inj'. intros k Hk.
    rewrite !Z.testbit_mod_pow2, Z.lxor_spec, Z.shiftl_spec by lia.
    destruct (Z.ltb_spec k 8).
    - rewrite (Z.testbit_neg_r _ (k - 8)) by lia.
      destruct (Z.ltb_spec k 16); [|lia]. simpl. by rewrite xorb_false_r.
    - rewrite Z.testbit_mod_pow2, Z.shiftr_spec by lia.
      replace (k - 8 + 8) with k by lia.
      destruct (Z.ltb_spec (k - 8) 16); [|lia].
      rewrite andb_true_l, xorb_nilpotent. by rewrite andb_false_r. }
  pose proof (Z.mod_pos_bound s (2 ^ 8) ltac:(lia)).
  rewrite crc_shl_iter_small by (simpl; lia). simpl. lia.
Qed.

Lemma crc16_run (data : list Z) (n : Z) :
  0 ≤ n ≤ Z.of_nat (length data) →
  crc16_ccitt data n = Some (foldl crc16_byte 0xFFFF (take (Z.to_nat n) data)).
Proof. apply crc_loop_run. Qed.

Lemma crc16_fold_range (l : list Z) (init : Z) :
  0 ≤ init < 2 ^ 16 → 0 ≤ foldl crc16_byte init l < 2 ^ 16.
Proof.
  revert init. induction l as [|b l IH]; intros init Hinit; simpl; [done|].
  apply IH, crc16_byte_range.
Qed.

(** The CRC-16 of a message followed by its own CRC-16, high byte
    first, is 0. *)
Theorem crc16_residue (data : list Z) :
  ∃ c,
    crc16_ccitt data (Z.of_nat (length data)) = Some c
    ∧ 0 ≤ c < 2 ^ 16
    ∧ crc16_ccitt (data ++ [Z.shiftr c 8; Z.land c 0xFF])
                  (Z.of_nat (length data) + 2) = Some 0.
Proof.
  pose proof (crc16_fold_range data 0xFFFF ltac:(lia)) as Hc.
  exists (foldl crc16_byte 0xFFFF data).
  rewrite !crc16_run by (rewrite ?length_app; simpl; lia).
  rewrite Nat2Z.id, firstn_all. split; [done|]. split; [done|].
  f_equal. rewrite take_ge by (rewrite length_app; simpl; lia).
  rewrite foldl_app. cbn [foldl].
  set (c := foldl crc16_byte 0xFFFF data) in *.
  rewrite crc16_byte_top by done.
  pose proof (Z.mod_pos_bound c (2 ^ 8) ltac:(lia)) as Hlo.
  assert (Z.land c 0xFF = Z.shiftr (c mod 2 ^ 8 * 2 ^ 8) 8) as ->.
  { change 0xFF with (Z.ones 8). rewrite Z.land_ones, Z.shiftr_div_pow2 by lia.
    by rewrite Z.div_mul by lia. }
  rewrite crc16_byte_top by lia.
  by rewrite Z.mod_mul by lia.
Qed.

(** A message in which one byte is replaced by another value has a
    different CRC-16. *)
Theorem crc16_detects_byte_error (data : list Z) (n i d d' : Z) :
  Forall is_byte data → 0 ≤ n ≤ Z.of_nat (length data) → 0 ≤ i < n →
  data !! Z.to_nat i = Some d → is_byte d' → d' ≠ d →
  ∃ c c',
    crc16_ccitt data n = Some c
    ∧ crc16_ccitt (<[Z.to_nat i := d']> data) n = Some c'
    ∧ c ≠ c'.
Proof.
  intros Hdata Hn Hi Hd Hd' Hne.
  rewrite !crc16_run by (rewrite ?length_insert; lia).
  do 2 eexists. split; [done|]. split; [done|].
  rewrite take_insert_lt by lia.
  assert (take (Z.to_nat n) data !! Z.to_nat i = Some d) as Hd2
    by (rewrite lookup_take_lt by lia; done).
  assert (Forall is_byte (take (Z.to_nat n) data)) as Hbytes
    by by apply Forall_take.
  revert Hd2 Hbytes. generalize (take (Z.to_nat n) data). intros l Hl Hbytes.
  rewrite insert_take_drop by (by eapply lookup_lt_Some).
  rewrite <- (take_drop_middle l _ _ Hl) at 1.
  assert (is_byte d) as Hbd by (by eapply Forall_lookup_1 in Hbytes).
  apply (fold_detects (λ s, 0 ≤ s < 2 ^ 16)); auto.
  - intros. apply crc16_byte_range.
  - intros s s' b Hs Hs' _. by apply crc16_byte_inj_reg.
  - intros s b b' _. apply crc16_byte_inj_byte.
  - lia.
  - by apply Forall_take.
  - by apply Forall_drop.
Qed.

Lemma crc16_detects_byte_error_witness :
  ∃ c c',
    crc16_ccitt [1; 2; 3] 3 = Some c
    ∧ crc16_ccitt (<[Z.to_nat 1 := 5]> [1; 2; 3]) 3 = Some c'
    ∧ c ≠ c'.
Proof.
  apply (crc16_detects_byte_error [1; 2; 3] 3 1 2 5);
    try reflexivity; try (unfold is_byte; simpl; lia).
  repeat (apply Forall_cons_2; [unfold is_byte; lia|]). apply Forall_nil_2.
Defined.


(** ** CRC-24 *)

Lemma crc24_byte_range (s b : Z) : 0 ≤ crc24_byte s b < 2 ^ 24.
Proof.
  rewrite crc24_byte_shl.
  rewrite Nat.iter_succ. apply crc_shl_range. lia.
Qed.

Lemma crc24_start_range (s b : Z) :
  0 ≤ s < 2 ^ 24 → is_byte b →
  0 ≤ Z.lxor s (Z.shiftl b 16 mod 2 ^ 32) < 2 ^ 24.
Proof.
  unfold is_byte. intros Hs Hb. apply lxor_range; [lia | done |].
  rewrite Z.shiftl_mul_pow2, Z.mod_small by lia. lia.
Qed.

Lemma crc24_iter_inj (x y : Z) :
  0 ≤ x < 2 ^ 24 → 0 ≤ y < 2 ^ 24 →
  Nat.iter 8 (crc_shl 24 0xFFF409) x = Nat.iter 8 (crc_shl 24 0xFFF409) y →
  x = y.
Proof.
  apply (iter_inj (λ x, 0 ≤ x < 2 ^ 24)).
  - intros. apply crc_shl_range. lia.
  - intros a b Ha Hb. by apply crc_shl_inj.
Qed.

Lemma crc24_byte_inj_reg (s s' b : Z) :
  0 ≤ s < 2 ^ 24 → 0 ≤ s' < 2 ^ 24 → is_byte b →
  crc24_byte s b = crc24_byte s' b → s = s'.
Proof.
  intros Hs Hs' Hb. rewrite !crc24_byte_shl. intros H.
  apply crc24_iter_inj in H; [|by apply crc24_start_range..].
  by apply lxor_cancel_r in H.
Qed.

Lemma crc24_byte_inj_byte (s b b' : Z) :
  0 ≤ s < 2 ^ 24 → is_byte b → is_byte b' →
  crc24_byte s b = crc24_byte s b' → b = b'.
Proof.
  intros Hs Hb Hb'. rewrite !crc24_byte_shl. intros H.
  apply crc24_iter_inj in H; [|by apply crc24_start_range..].
  apply lxor_cancel_l in H. unfold is_byte in *.
  rewrite !Z.shiftl_mul_pow2, !Z.mod_small in H by lia. lia.
Qed.

Lemma crc24_byte_top (s : Z) :
  0 ≤ s < 2 ^ 24 → crc24_byte s (Z.shiftr s 16) = s mod 2 ^ 16 * 2 ^ 8.
Proof.
  intros Hs. rewrite crc24_byte_shl.
  assert (Z.lxor s (Z.shiftl (Z.shiftr s 16) 16 mod 2 ^ 32) = s mod 2 ^ 16)
    as ->.
  { apply Z.bits_inj'. intros k Hk.
    rewrite !Z.testbit_mod_pow2, Z.lxor_spec, Z.testbit_mod_pow2,
      Z.shiftl_spec by lia.
    destruct (Z.ltb_spec k 16).
    - rewrite (Z.testbit_neg_r _ (k - 16)) by lia.
      by rewrite andb_false_r, xorb_false_r.
    - rewrite Z.shiftr_spec by lia. replace (k - 16 + 16) with k by lia.
      destruct (Z.ltb_spec k 32).
      + by rewrite andb_true_l, xorb_nilpotent.
      + by rewrite (testbit_above 24 s k) by lia. }
  pose proof (Z.mod_pos_bound s (2 ^ 16) ltac:(lia)).
  rewrite crc_shl_iter_small by (simpl; lia). simpl. lia.
Qed.

Lemma crc24_run (data : list Z) (n : Z) :
  0 ≤ n ≤ Z.of_nat (length data) →
  crc24_adsb data n = Some (foldl crc24_byte 0 (take (Z.to_nat n) data)).
Proof. apply crc_loop_run. Qed.

Lemma crc24_fold_range (l : list Z) (init : Z) :
  0 ≤ init < 2 ^ 24 → 0 ≤ foldl crc24_byte init l < 2 ^ 24.
Proof.
  revert init. induction l as [|b l IH]; intros init Hinit; simpl; [done|].
  apply IH, crc24_byte_range.
Qed.

(** The CRC-24 of a message followed by the three bytes of its own
    CRC-24, highest first, is 0. *)
Theorem crc24_residue (data : list Z) :
  ∃ c,
    crc24_adsb data (Z.of_nat (length data)) = Some c
    ∧ 0 ≤ c < 2 ^ 24
    ∧ crc24_adsb (data ++ [Z.shiftr c 16;
                           Z.land (Z.shiftr c 8) 0xFF;
                           Z.land c 0xFF])
                 (Z.of_nat (length data) + 3) = Some 0.
Proof.
  pose proof (crc24_fold_range data 0 ltac:(lia)) as Hc.
  exists (foldl crc24_byte 0 data).
  rewrite !crc24_run by (rewrite ?length_app; simpl; lia).
  rewrite Nat2Z.id, firstn_all. split; [done|]. split; [done|].
  f_equal. rewrite take_ge by (rewrite length_app; simpl; lia).
  rewrite foldl_app. cbn [foldl].
  set (c := foldl crc24_byte 0 data) in *.
  rewrite crc24_byte_top by done.
  pose proof (Z.mod_pos_bound c (2 ^ 16) ltac:(lia)) as Hlo.
  pose proof (Z.mod_pos_bound c (2 ^ 8) ltac:(lia)) as Hlo8.
  change 0xFF with (Z.ones 8). rewrite !Z.land_ones, !Z.shiftr_div_pow2 by lia.
  assert ((c / 2 ^ 8) mod 2 ^ 8 = Z.shiftr (c mod 2 ^ 16 * 2 ^ 8) 16) as ->.
  { rewrite Z.shiftr_div_pow2 by lia. clearbody c.
    change (2 ^ 8) with 256. change (2 ^ 16) with 65536.
    Z.div_mod_to_equations. lia. }
  rewrite crc24_byte_top by lia.
  assert ((c mod 2 ^ 16 * 2 ^ 8) mod 2 ^ 16 = c mod 2 ^ 8 * 2 ^ 8) as ->.
  { clearbody c. change (2 ^ 8) with 256. change (2 ^ 16) with 65536.
    Z.div_mod_to_equations. lia. }
  set (s2 := c mod 2 ^ 8 * 2 ^ 8 * 2 ^ 8).
  assert (c mod 2 ^ 8 = Z.shiftr s2 16) as ->.
  { rewrite Z.shiftr_div_pow2 by lia. unfold s2. clearbody c.
    change (2 ^ 8) with 256. change (2 ^ 16) with 65536.
    Z.div_mod_to_equations. lia. }
  rewrite crc24_byte_top by (unfold s2; lia).
  f_equal. unfold s2. clearbody c.
  change (2 ^ 8) with 256. change (2 ^ 16) with 65536.
  Z.div_mod_to_equations. lia.
Qed.

(** A message in which one byte is replaced by another value has a
    different CRC-24. *)
Theorem crc24_detects_byte_error (data : list Z) (n i d d' : Z) :
  Forall is_byte data → 0 ≤ n ≤ Z.of_nat (length data) → 0 ≤ i < n →
  data !! Z.to_nat i = Some d → is_byte d' → d' ≠ d →
  ∃ c c',
    crc24_adsb data n = Some c
    ∧ crc24_adsb (<[Z.to_nat i := d']> data) n = Some c'
    ∧ c ≠ c'.
Proof.
  intros Hdata Hn Hi Hd Hd' Hne.
  rewrite !crc24_run by (rewrite ?length_insert; lia).
  do 2 eexists. split; [done|]. split; [done|].
  rewrite take_insert_lt by lia.
  assert (take (Z.to_nat n) data !! Z.to_nat i = Some d) as Hd2
    by (rewrite lookup_take_lt by lia; done).
  assert (Forall is_byte (take (Z.to_nat n) data)) as Hbytes
    by by apply Forall_take.
  revert Hd2 Hbytes. generalize (take (Z.to_nat n) data). intros l Hl Hbytes.
  rewrite insert_take_drop by (by eapply lookup_lt_Some).
  rewrite <- (take_drop_middle l _ _ Hl) at 1.
  assert (is_byte d) as Hbd by (by eapply Forall_lookup_1 in Hbytes).
  apply (fold_detects (λ s, 0 ≤ s < 2 ^ 24)); auto.
  - intros. apply crc24_byte_range.
  - intros s s' b Hs Hs' Hb. by apply crc24_byte_inj_reg.
  - intros s b b' Hs. by apply crc24_byte_inj_byte.
  - lia.
  - by apply Forall_take.
  - by apply Forall_drop.
Qed.

Lemma crc24_detects_byte_error_witness :
  ∃ c c',
    crc24_adsb [1; 2; 3] 3 = Some c
    ∧ crc24_adsb (<[Z.to_nat 1 := 5]> [1; 2; 3]) 3 = Some c'
    ∧ c ≠ c'.
Proof.
  apply (crc24_detects_byte_error [1; 2; 3] 3 1 2 5);
    try reflexivity; try (unfold is_byte; simpl; lia).
  repeat (apply Forall_cons_2; [unfold is_byte; lia|]). apply Forall_nil_2.
Defined.


(** ** CRC-32 *)

Lemma crc32_byte_range (s b : Z) :
  0 ≤ s < 2 ^ 32 → is_byte b → 0 ≤ crc32_byte s b < 2 ^ 32.
Proof.
  unfold is_byte. intros Hs Hb. rewrite crc32_byte_shr.
  apply (iter_keeps (λ x, 0 ≤ x < 2 ^ 32)).
  - intros. apply crc_shr_range; lia.
  - apply lxor_range; lia.
Qed.

Lemma crc32_iter_inj (x y : Z) :
  0 ≤ x < 2 ^ 32 → 0 ≤ y < 2 ^ 32 →
  Nat.iter 8 (crc_shr 0xEDB88320) x = Nat.iter 8 (crc_shr 0xEDB88320) y →
  x = y.
Proof.
  apply (iter_inj (λ x, 0 ≤ x < 2 ^ 32)).
  - intros. apply crc_shr_range; lia.
  - intros a b Ha Hb. apply crc_shr_inj; [done | lia | done..].
Qed.

Lemma crc32_run (data : list Z) (n : Z) :
  0 ≤ n ≤ Z.of_nat (length data) →
  crc32 data n
  = Some (Z.lxor (foldl crc32_byte 0xFFFFFFFF (take (Z.to_nat n) data))
                 0xFFFFFFFF).
Proof.
  intros Hn. unfold crc32.
  by rewrite (crc_loop_run crc32_byte 0xFFFFFFFF data n Hn).
Qed.

(** A message in which one byte is replaced by another value has a
    different CRC-32. *)
Theorem crc32_detects_byte_error (data : list Z) (n i d d' : Z) :
  Forall is_byte data → 0 ≤ n ≤ Z.of_nat (length data) → 0 ≤ i < n →
  data !! Z.to_nat i = Some d → is_byte d' → d' ≠ d →
  ∃ c c',
    crc32 data n = Some c
    ∧ crc32 (<[Z.to_nat i := d']> data) n = Some c'
    ∧ c ≠ c'.
Proof.
  intros Hdata Hn Hi Hd Hd' Hne.
  rewrite !crc32_run by (rewrite ?length_insert; lia).
  do 2 eexists. split; [done|]. split; [done|].
  intros Heq. apply lxor_cancel_r in Heq. revert Heq.
  rewrite take_insert_lt by lia.
  assert (take (Z.to_nat n) data !! Z.to_nat i = Some d) as Hd2
    by (rewrite lookup_take_lt by lia; done).
  assert (Forall is_byte (take (Z.to_nat n) data)) as Hbytes
    by by apply Forall_take.
  revert Hd2 Hbytes. generalize (take (Z.to_nat n) data). intros l Hl Hbytes.
  rewrite insert_take_drop by (by eapply lookup_lt_Some).
  rewrite <- (take_drop_middle l _ _ Hl) at 1.
  assert (is_byte d) as Hbd by (by eapply Forall_lookup_1 in Hbytes).
  apply (fold_detects (λ s, 0 ≤ s < 2 ^ 32)); auto.
  - intros. by apply crc32_byte_range.
  - intros s s' b Hs Hs' Hb. rewrite !crc32_byte_shr. intros H.
    apply crc32_iter_inj in H; [|unfold is_byte in Hb; apply lxor_range; lia..].
    by apply lxor_cancel_r in H.
  - intros s b b' Hs Hb Hb'. rewrite !crc32_byte_shr. intros H.
    apply crc32_iter_inj in H;
      [|unfold is_byte in Hb, Hb'; apply lxor_range; lia..].
    by apply lxor_cancel_l in H.
  - lia.
  - by apply Forall_take.
  - by apply Forall_drop.
Qed.

Lemma crc32_detects_byte_error_witness :
  ∃ c c',
    crc32 [1; 2; 3] 3 = Some c
    ∧ crc32 (<[Z.to_nat 1 := 5]> [1; 2; 3]) 3 = Some c'
    ∧ c ≠ c'.
Proof.
  apply (crc32_detects_byte_error [1; 2; 3] 3 1 2 5);
    try reflexivity; try (unfold is_byte; simpl; lia).
  repeat (apply Forall_cons_2; [unfold is_byte; lia|]). apply Forall_nil_2.
Defined.


(** * Run-length encoding *)

Lemma rle_expand_pairs_app (k : nat) (l r : list Z) (j : nat) :
  length l = (2 * k)%nat →
  rle_expand_pairs (k + j) (l ++ r)
  = rle_expand_pairs k l ++ rle_expand_pairs j r.
Proof.
  revert l. induction k as [|k IH]; intros l Hl.
  - destruct l; [done | discriminate].
  - destruct l as [|c [|v l]]; simpl in Hl; try lia.
    cbn [Nat.add rle_expand_pairs app]. rewrite IH by lia.
    by rewrite app_assoc.
Qed.

Lemma rle_expand_snoc (l : list Z) (c v : Z) (k : nat) :
  length l = (2 * k)%nat →
  rle_expand (l ++ [c; v]) = rle_expand l ++ replicate (Z.to_nat c) v.
Proof.
  intros Hl. unfold rle_expand. rewrite length_app, Hl. simpl length.
  replace ((2 * k + 2) / 2)%nat with (k + 1)%nat
    by (apply Nat.div_unique with 0%nat; lia).
  replace ((2 * k) / 2)%nat with k
    by (apply Nat.div_unique with 0%nat; lia).
  rewrite rle_expand_pairs_app by done. simpl. by rewrite app_nil_r.
Qed.

(** A last byte without a partner stands for nothing. *)
Lemma rle_expand_take_odd (l : list Z) (k : nat) :
  rle_expand (take (2 * k + 1) l) = rle_expand (take (2 * k) l).
Proof.
  unfold rle_expand.
  destruct (decide (2 * k + 1 ≤ length l)%nat) as [Hle|Hgt].
  - rewrite !length_take.
    replace ((2 * k + 1) `min` length l)%nat with (2 * k + 1)%nat by lia.
    replace ((2 * k) `min` length l)%nat with (2 * k)%nat by lia.
    replace ((2 * k + 1) / 2)%nat with k
      by (apply Nat.div_unique with 1%nat; lia).
    replace ((2 * k) / 2)%nat with k
      by (apply Nat.div_unique with 0%nat; lia).
    destruct (lookup_lt_is_Some_2 l (2 * k)%nat) as [x Hx]; [lia|].
    replace (2 * k + 1)%nat with (S (2 * k)) by lia.
    rewrite (take_S_r _ _ x) by done.
    rewrite <- (Nat.add_0_r k) at 1.
    rewrite rle_expand_pairs_app by (rewrite length_take; lia).
    simpl. by rewrite app_nil_r.
  - rewrite !take_ge by lia. done.
Qed.

Lemma rle_written_fit (e out : list Z) (max_out : Z) :
  Z.of_nat (length e) ≤ max_out →
  rle_written e out max_out = e ++ drop (length e) out.
Proof.
  intros He. unfold rle_written. rewrite take_ge by lia.
  by replace (length e `min` Z.to_nat max_out)%nat with (length e) by lia.
Qed.

Lemma rle_written_full (e f out : list Z) (max_out : Z) :
  max_out ≤ Z.of_nat (length e) →
  rle_written (e ++ f) out max_out = rle_written e out max_out.
Proof.
  intros He. unfold rle_written. rewrite take_app_le by lia.
  rewrite length_app. f_equal. f_equal. lia.
Qed.

Lemma replicate_snoc {A} (n : nat) (x : A) :
  replicate (S n) x = replicate n x ++ [x].
Proof. induction n as [|n IH]; [done|]. simpl. by rewrite <- IH. Qed.

(** The inner loop of the decoder appends [count] copies of [val] to what
    is written, and returns -1 at the first one that does not fit. *)
Lemma rle_fill_run (e out : list Z) (max_out count val : Z) :
  0 ≤ count → max_out ≤ Z.of_nat (length out) →
  Z.of_nat (length e) ≤ max_out →
  rle_fill count val max_out
    (Running (Z.of_nat (length e)) (rle_written e out max_out))
  = Some (let e' := e ++ replicate (Z.to_nat count) val in
          if decide (Z.of_nat (length e') ≤ max_out)
          then Running (Z.of_nat (length e')) (rle_written e' out max_out)
          else Returned (-1) (rle_written e' out max_out)).
Proof.
  intros Hc Hmax He. unfold rle_fill.
  set (body := λ (_ : Z) (st : flow), _).
  destruct (for_loop_inv
    (λ j st, st = let e' := e ++ replicate (Z.to_nat j) val in
                  if decide (Z.of_nat (length e') ≤ max_out)
                  then Running (Z.of_nat (length e')) (rle_written e' out max_out)
                  else Returned (-1) (rle_written e' out max_out))
    count body (Running (Z.of_nat (length e)) (rle_written e out max_out)))
    as (st & -> & ->); [done | | | done].
  - cbn zeta. change (Z.to_nat 0) with 0%nat. simpl replicate.
    rewrite app_nil_r. by rewrite decide_True by lia.
  - intros j st Hj ->. cbn zeta.
    replace (Z.to_nat (j + 1)) with (S (Z.to_nat j)) by lia.
    rewrite replicate_snoc, app_assoc.
    set (e1 := e ++ replicate (Z.to_nat j) val).
    rewrite (length_app e1). simpl length.
    destruct (decide (Z.of_nat (length e1) ≤ max_out)) as [Hfit|Hfull];
      unfold body.
    + destruct (decide (Z.of_nat (length e1) >= max_out)) as [Hge|Hlt].
      * eexists. split; [done|]. rewrite decide_False by lia.
        by rewrite rle_written_full by lia.
      * rewrite rle_written_fit by lia.
        replace (drop (length e1) out)
          with (drop (Z.to_nat (Z.of_nat (length e1))) out)
          by (by rewrite Nat2Z.id).
        rewrite store_next by lia. cbn [mbind option_bind].
        eexists. split; [done|]. rewrite decide_True by lia.
        rewrite rle_written_fit by (rewrite length_app; simpl; lia).
        rewrite length_app. simpl length. f_equal; [lia|].
        f_equal. f_equal. lia.
    + eexists. split; [done|]. rewrite decide_False by lia.
      by rewrite rle_written_full by lia.
Qed.

Lemma rle_expand_step (enc : list Z) (k : nat) (c v : Z) :
  enc !! (2 * k)%nat = Some c → enc !! (2 * k + 1)%nat = Some v →
  rle_expand (take (2 * k + 2) enc)
  = rle_expand (take (2 * k) enc) ++ replicate (Z.to_nat c) v.
Proof.
  intros Hc Hv.
  replace (2 * k + 2)%nat with (S (S (2 * k))) by lia.
  rewrite (take_S_r _ _ v) by (rewrite <- Hv; f_equal; lia).
  rewrite (take_S_r _ _ c) by done.
  rewrite <- app_assoc. apply (rle_expand_snoc _ _ _ k).
  apply lookup_lt_Some in Hc. rewrite length_take. lia.
Qed.

Lemma rle_decode_run (data out : list Z) (n max_out : Z) :
  Forall is_byte (take (Z.to_nat n) data) →
  0 ≤ n ≤ Z.of_nat (length data) →
  0 ≤ max_out ≤ Z.of_nat (length out) →
  rle_decode data n out max_out
  = Some (let e := rle_expand (take (Z.to_nat n) data) in
          if decide (Z.of_nat (length e) ≤ max_out)
          then (Z.of_nat (length e), e ++ drop (length e) out)
          else (-1, take (Z.to_nat max_out) e ++ drop (Z.to_nat max_out) out)).
Proof.
  intros Hbytes Hn Hmax. unfold rle_decode.
  set (body := λ (k : Z) (st : flow), _).
  assert (0 ≤ n / 2) as Hhalf by (apply Z.div_pos; lia).
  destruct (for_loop_inv
    (λ k st, st = let e := rle_expand (take (2 * Z.to_nat k) data) in
                  if decide (Z.of_nat (length e) ≤ max_out)
                  then Running (Z.of_nat (length e)) (rle_written e out max_out)
                  else Returned (-1) (rle_written e out max_out))
    (n / 2) body (Running 0 out)) as (st & -> & ->); [done | | |].
  - cbn zeta. change (2 * Z.to_nat 0)%nat with 0%nat.
    rewrite take_0. unfold rle_expand. simpl.
    rewrite decide_True by lia. unfold rle_written.
    rewrite take_nil. simpl. by rewrite drop_0.
  - intros k st Hk ->. cbn zeta.
    assert (2 * k + 2 ≤ n) as Hk2
      by (pose proof (Z.mul_div_le n 2 ltac:(lia)); lia).
    destruct (lookup_lt_is_Some_2 data (2 * Z.to_nat k)) as [c Hc]; [lia|].
    destruct (lookup_lt_is_Some_2 data (2 * Z.to_nat k + 1)) as [v Hv]; [lia|].
    assert (is_byte c) as Hbc.
    { eapply (Forall_lookup_1 _ _ (2 * Z.to_nat k)%nat) in Hbytes; [done|].
      by rewrite lookup_take_lt by lia. }
    replace (2 * Z.to_nat (k + 1))%nat with (2 * Z.to_nat k + 2)%nat by lia.
    rewrite (rle_expand_step data _ c v) by done.
    set (e := rle_expand (take (2 * Z.to_nat k) data)).
    destruct (decide (Z.of_nat (length e) ≤ max_out)) as [Hfit|Hfull];
      unfold body.
    + rewrite (load_Some data (2 * k) c)
        by (try lia; rewrite <- Hc; f_equal; lia).
      cbn [mbind option_bind].
      rewrite (load_Some data (2 * k + 1) v)
        by (try lia; rewrite <- Hv; f_equal; lia).
      cbn [mbind option_bind].
      unfold is_byte in Hbc. rewrite rle_fill_run by lia.
      eexists. split; done.
    + eexists. split; [done|].
      rewrite decide_False by (rewrite length_app; lia).
      by rewrite rle_written_full by lia.
  - cbn [mbind option_bind]. f_equal. cbn zeta.
    assert (rle_expand (take (2 * Z.to_nat (n / 2)) data)
            = rle_expand (take (Z.to_nat n) data)) as ->.
    { destruct (Z.eq_dec (n mod 2) 0) as [Heven|Hodd].
      - f_equal. f_equal. pose proof (Z.div_mod n 2 ltac:(lia)). lia.
      - replace (Z.to_nat n) with (2 * Z.to_nat (n / 2) + 1)%nat.
        + by rewrite rle_expand_take_odd.
        + pose proof (Z.div_mod n 2 ltac:(lia)).
          pose proof (Z.mod_pos_bound n 2 ltac:(lia)). lia. }
    set (e := rle_expand (take (Z.to_nat n) data)).
    destruct (decide (Z.of_nat (length e) ≤ max_out)) as [Hfit|Hfull].
    + by rewrite rle_written_fit.
    + unfold rle_written. do 3 f_equal. lia.
Qed.

(** [rle_decode] writes the bytes that the pairs among the first [n] bytes
    of [data] stand for and returns their number; when they are more than
    [max_out], it returns -1 after writing the [max_out] that fit. *)
Theorem rle_decode_expands (data out : list Z) (n max_out : Z) :
  Forall is_byte (take (Z.to_nat n) data) →
  0 ≤ n ≤ Z.of_nat (length data) →
  0 ≤ max_out ≤ Z.of_nat (length out) →
  rle_decode data n out max_out
  = Some (let e := rle_expand (take (Z.to_nat n) data) in
          if decide (Z.of_nat (length e) ≤ max_out)
          then (Z.of_nat (length e), e ++ drop (length e) out)
          else (-1, take (Z.to_nat max_out) e ++ drop (Z.to_nat max_out) out)).
Proof. apply rle_decode_run. Qed.

Lemma rle_decode_expands_witness :
  rle_decode [2; 7; 1; 9] 4 (replicate 2 0) 2
  = Some (let e := rle_expand (take (Z.to_nat 4) [2; 7; 1; 9]) in
          if decide (Z.of_nat (length e) ≤ 2)
          then (Z.of_nat (length e), e ++ drop (length e) (replicate 2 0))
          else (-1, take (Z.to_nat 2) e ++ drop (Z.to_nat 2) (replicate 2 0))).
Proof.
  apply (rle_decode_expands [2; 7; 1; 9] (replicate 2 0) 4 2);
    try (simpl; lia).
  repeat (apply Forall_cons_2; [unfold is_byte; lia|]). apply Forall_nil_2.
Defined.


(** The run that starts at [i] is found: [count] bytes equal to [val], at
    most 255 and within the [n] bytes. *)
Lemma rle_run_spec (data : list Z) (n i val : Z) (fuel : nat) (count : Z) :
  256 ≤ Z.of_nat fuel + count → 1 ≤ count ≤ 255 → 0 ≤ i →
  i + count ≤ n ≤ Z.of_nat (length data) →
  (∀ j, 0 ≤ j < count → data !! Z.to_nat (i + j) = Some val) →
  ∃ c, rle_run fuel data n i val count = Some c
       ∧ count ≤ c ≤ 255 ∧ i + c ≤ n
       ∧ ∀ j, 0 ≤ j < c → data !! Z.to_nat (i + j) = Some val.
Proof.
  revert count. induction fuel as [|fuel IH]; intros count Hfuel Hc Hi Hn Hrun;
    [lia|].
  cbn [rle_run]. destruct (decide (i + count < n)) as [Hlt|Hge].
  - destruct (lookup_lt_is_Some_2 data (Z.to_nat (i + count))) as [d Hd];
      [lia|].
    rewrite (load_Some data (i + count) d) by (lia || done).
    cbn [mbind option_bind].
    destruct (decide (d = val)) as [->|Hne]; [|exists count; repeat split; (lia || done)].
    destruct (decide (count < 255)) as [H255|H255];
      [|exists count; repeat split; (lia || done)].
    destruct (IH (count + 1)) as (c & Hrun' & Hcc & Hcn & Hall); try lia.
    { intros j Hj. destruct (decide (j = count)) as [->|Hjc]; [done|].
      apply Hrun. lia. }
    exists c. repeat split; (lia || done).
  - exists count. repeat split; (lia || done).
Qed.

Lemma take_run (data : list Z) (i c val : Z) :
  0 ≤ i → 0 ≤ c → i + c ≤ Z.of_nat (length data) →
  (∀ j, 0 ≤ j < c → data !! Z.to_nat (i + j) = Some val) →
  take (Z.to_nat (i + c)) data
  = take (Z.to_nat i) data ++ replicate (Z.to_nat c) val.
Proof.
  intros Hi Hc Hlen Hrun. apply list_eq. intros k.
  destruct (decide (k < Z.to_nat i)%nat) as [Hk|Hk].
  - rewrite lookup_app_l by (rewrite length_take; lia).
    by rewrite !lookup_take_lt by lia.
  - rewrite lookup_app_r by (rewrite length_take; lia).
    rewrite length_take.
    replace (Z.to_nat i `min` length data)%nat with (Z.to_nat i) by lia.
    destruct (decide (k < Z.to_nat (i + c))%nat) as [Hk2|Hk2].
    + rewrite lookup_take_lt by lia.
      rewrite lookup_replicate_2 by lia.
      specialize (Hrun (Z.of_nat k - i) ltac:(lia)).
      rewrite <- Hrun. f_equal. lia.
    + rewrite lookup_take_ge by lia.
      symmetry. apply lookup_replicate_None. lia.
Qed.

Lemma take_two_stores (out : list Z) (pos : nat) (c v : Z) :
  (pos + 1 < length out)%nat →
  take (pos + 2) (<[(pos + 1)%nat := v]> (<[pos := c]> out))
  = take pos out ++ [c; v].
Proof.
  intros Hlen. replace (pos + 2)%nat with (S (S pos)) by lia.
  rewrite (take_S_r _ _ v)
    by (replace (S pos) with (pos + 1)%nat by lia;
        apply list_lookup_insert_eq; rewrite length_insert; lia).
  rewrite (take_S_r _ _ c)
    by (rewrite list_lookup_insert_ne by lia;
        apply list_lookup_insert_eq; lia).
  rewrite !take_insert_ge by lia. by rewrite <- app_assoc.
Qed.

Lemma rle_encode_loop_spec (data out0 : list Z) (n max_out : Z) (fuel : nat)
    (i pos p : Z) (out : list Z) :
  Forall is_byte data → n = Z.of_nat (length data) →
  2 * n ≤ max_out ≤ Z.of_nat (length out0) →
  n - i ≤ Z.of_nat fuel → 0 ≤ i ≤ n → pos = 2 * p → 0 ≤ p ≤ i →
  length out = length out0 →
  Forall is_byte (take (Z.to_nat pos) out) →
  rle_expand (take (Z.to_nat pos) out) = take (Z.to_nat i) data →
  drop (Z.to_nat pos) out = drop (Z.to_nat pos) out0 →
  ∃ m enc,
    rle_encode_loop fuel data n max_out i pos out = Some (m, enc)
    ∧ 0 ≤ m ≤ 2 * n ∧ length enc = length out0
    ∧ Forall is_byte (take (Z.to_nat m) enc)
    ∧ rle_expand (take (Z.to_nat m) enc) = data
    ∧ drop (Z.to_nat m) enc = drop (Z.to_nat m) out0.
Proof.
  intros Hbytes Hn Hmax. revert i pos p out.
  induction fuel as [|fuel IH];
    intros i pos p out Hfuel Hi Hpos Hp Hlen Hob Hexp Hrest.
  - cbn [rle_encode_loop]. rewrite decide_False by lia.
    exists pos, out. assert (i = n) as -> by lia.
    rewrite Hn, Nat2Z.id, firstn_all in Hexp.
    repeat split; (lia || done).
  - cbn [rle_encode_loop]. destruct (decide (i < n)) as [Hlt|Hge].
    + destruct (lookup_lt_is_Some_2 data (Z.to_nat i)) as [val Hval]; [lia|].
      rewrite (load_Some data i val) by (lia || done).
      cbn [mbind option_bind].
      destruct (rle_run_spec data n i val 255 1) as (c & -> & Hc & Hcn & Hrun);
        try lia.
      { intros j Hj. by replace (i + j) with i by lia. }
      cbn [mbind option_bind].
      rewrite decide_False by lia.
      rewrite Z.mod_small by lia.
      rewrite store_Some by lia. cbn [mbind option_bind].
      rewrite store_Some by (rewrite length_insert; lia).
      cbn [mbind option_bind].
      assert (is_byte val) as Hbv by (by eapply Forall_lookup_1 in Hbytes).
      assert (take (Z.to_nat (pos + 2))
                (<[Z.to_nat (pos + 1) := val]> (<[Z.to_nat pos := c]> out))
              = take (Z.to_nat pos) out ++ [c; val]) as Htake.
      { replace (Z.to_nat (pos + 2)) with (Z.to_nat pos + 2)%nat by lia.
        replace (Z.to_nat (pos + 1)) with (Z.to_nat pos + 1)%nat by lia.
        apply take_two_stores. lia. }
      apply (IH (i + c) (pos + 2) (p + 1)); try lia.
      * by rewrite !length_insert.
      * rewrite Htake. apply Forall_app. split; [done|].
        repeat apply Forall_cons_2; [unfold is_byte; lia | done | apply Forall_nil_2].
      * rewrite Htake.
        rewrite (rle_expand_snoc _ _ _ (Z.to_nat p))
          by (rewrite length_take; lia).
        rewrite Hexp. symmetry. apply take_run; try lia. done.
      * rewrite !drop_insert_lt by lia.
        replace (Z.to_nat (pos + 2)) with (Z.to_nat pos + 2)%nat by lia.
        by rewrite <- !drop_drop, Hrest.
    + exists pos, out. assert (i = n) as -> by lia.
      rewrite Hn, Nat2Z.id, firstn_all in Hexp.
      repeat split; (lia || done).
Qed.

(** Decoding what [rle_encode] wrote gives the data back: with [2 * n]
    bytes of room the encoder does not fail, whatever the runs are, and the
    decoder returns [n] and the [n] bytes. *)
Theorem rle_roundtrip (data out buf : list Z) (n max_out max_buf : Z) :
  Forall is_byte data → n = Z.of_nat (length data) →
  2 * n ≤ max_out ≤ Z.of_nat (length out) →
  n ≤ max_buf ≤ Z.of_nat (length buf) →
  ∃ m enc,
    rle_encode data n out max_out = Some (m, enc)
    ∧ 0 ≤ m ≤ 2 * n
    ∧ drop (Z.to_nat m) enc = drop (Z.to_nat m) out
    ∧ rle_decode enc m buf max_buf
      = Some (n, data ++ drop (length data) buf).
Proof.
  intros Hbytes Hn Hmax Hbuf. unfold rle_encode.
  destruct (rle_encode_loop_spec data out n max_out (Z.to_nat n) 0 0 0 out)
    as (m & enc & -> & Hm & Hlen & Hb & Hexp & Hrest); try (done || lia).
  exists m, enc. split; [done|]. split; [done|]. split; [done|].
  rewrite rle_decode_run by (done || lia).
  cbn zeta. rewrite Hexp. rewrite decide_True by lia.
  by rewrite Hn.
Qed.

Lemma rle_roundtrip_witness :
  ∃ m enc,
    rle_encode [5; 5; 5; 8] 4 (replicate 8 0) 8 = Some (m, enc)
    ∧ 0 ≤ m ≤ 2 * 4
    ∧ drop (Z.to_nat m) enc = drop (Z.to_nat m) (replicate 8 0)
    ∧ rle_decode enc m (replicate 4 0) 4
      = Some (4, [5; 5; 5; 8] ++ drop (length [5; 5; 5; 8]) (replicate 4 0)).
Proof.
  apply (rle_roundtrip [5; 5; 5; 8] (replicate 8 0) (replicate 4 0) 4 8 4);
    try reflexivity; try (simpl; lia).
  repeat (apply Forall_cons_2; [unfold is_byte; lia|]). apply Forall_nil_2.
Defined.

(** * Bits and bytes *)

(** [bit_errors] returns the Hamming distance of the low bits of the first
    [n] bytes of the two arrays. *)
Theorem bit_errors_hamming (a b : list Z) (n : Z) :
  0 ≤ n → n ≤ Z.of_nat (length a) → n ≤ Z.of_nat (length b) →
  bit_errors a b n
  = Some (hamming (received_bits (take (Z.to_nat n) a))
                  (received_bits (take (Z.to_nat n) b))).
Proof.
  intros Hn Ha Hb. unfold bit_errors.
  set (body := λ (i count : Z), _).
  destruct (for_loop_inv
    (λ i count, count = hamming (received_bits (take (Z.to_nat i) a))
                                (received_bits (take (Z.to_nat i) b)))
    n body 0) as (count & -> & ->); [done | done | | done].
  intros i count Hi ->. unfold body.
  destruct (lookup_lt_is_Some_2 a (Z.to_nat i)) as [x Hx]; [lia|].
  destruct (lookup_lt_is_Some_2 b (Z.to_nat i)) as [y Hy]; [lia|].
  rewrite (load_Some a i x), (load_Some b i y) by (lia || done).
  cbn [mbind option_bind]. eexists. split; [done|].
  replace (Z.to_nat (i + 1)) with (S (Z.to_nat i)) by lia.
  rewrite (take_S_r a _ x), (take_S_r b _ y) by done.
  unfold received_bits. rewrite !fmap_app.
  rewrite hamming_app by (rewrite !length_fmap, !length_take; lia).
  f_equal. unfold hamming, ne_int. simpl.
  destruct (decide (Z.land x 1 ≠ Z.land y 1)) as [Hne|Heq].
  - apply Z.eqb_neq in Hne. rewrite Hne. lia.
  - apply dec_stable in Heq. rewrite Heq, Z.eqb_refl. lia.
Qed.

Lemma bit_errors_hamming_witness :
  bit_errors [1; 0; 1] [1; 1; 0] 3
  = Some (hamming (received_bits (take (Z.to_nat 3) [1; 0; 1]))
                  (received_bits (take (Z.to_nat 3) [1; 1; 0]))).
Proof. apply (bit_errors_hamming [1; 0; 1] [1; 1; 0] 3); simpl; lia. Defined.


Lemma bits_step (bytes buf pre : list Z) (i b d : Z) :
  0 ≤ i → bytes !! Z.to_nat i = Some d →
  (length pre < length buf)%nat →
  (let '(pos, bits) := (Z.of_nat (length pre), pre ++ drop (length pre) buf) in
   d ← load bytes i;
   bits ← store bits pos (Z.land (Z.shiftr d b) 1);
   Some (pos + 1, bits))
  = Some (Z.of_nat (length (pre ++ [Z.land (Z.shiftr d b) 1])),
          (pre ++ [Z.land (Z.shiftr d b) 1])
          ++ drop (length (pre ++ [Z.land (Z.shiftr d b) 1])) buf).
Proof.
  intros Hi Hd Hlen. cbn beta iota zeta.
  rewrite (load_Some bytes i d) by done. cbn [mbind option_bind].
  replace (drop (length pre) buf)
    with (drop (Z.to_nat (Z.of_nat (length pre))) buf) by (by rewrite Nat2Z.id).
  rewrite store_next by lia. cbn [mbind option_bind].
  rewrite length_app. simpl length. do 2 f_equal; [lia|].
  do 2 f_equal. lia.
Qed.

Lemma bits_of_byte (bytes buf pre : list Z) (i d : Z) :
  0 ≤ i → bytes !! Z.to_nat i = Some d →
  (length pre + 8 ≤ length buf)%nat →
  for_down 8 (λ b '(pos, bits),
      d ← load bytes i;
      bits ← store bits pos (Z.land (Z.shiftr d b) 1);
      Some (pos + 1, bits))
    (Z.of_nat (length pre), pre ++ drop (length pre) buf)
  = Some (Z.of_nat (length (pre ++ byte_bits d)),
          (pre ++ byte_bits d) ++ drop (length (pre ++ byte_bits d)) buf).
Proof.
  intros Hi Hd Hlen. unfold for_down. change (Z.to_nat 8) with 8%nat.
  cbn [for_down_nat].
  do 8 (rewrite (bits_step bytes buf _ i _ d Hi Hd)
          by (rewrite ?length_app; simpl; lia);
        cbn [mbind option_bind]).
  unfold byte_bits. cbn [fmap list_fmap]. by rewrite <- !app_assoc.
Qed.

Lemma bits_from_bytes_run (bytes buf : list Z) (n : Z) :
  0 ≤ n ≤ Z.of_nat (length bytes) → 8 * n ≤ Z.of_nat (length buf) →
  bits_from_bytes bytes n buf
  = Some (concat (byte_bits <$> take (Z.to_nat n) bytes)
          ++ drop (Z.to_nat (8 * n)) buf).
Proof.
  intros Hn Hbuf. unfold bits_from_bytes.
  set (body := λ (i : Z) (st : Z * list Z), _).
  destruct (for_loop_inv
    (λ i st, st = (8 * i, concat (byte_bits <$> take (Z.to_nat i) bytes)
                          ++ drop (Z.to_nat (8 * i)) buf))
    n body (0, buf)) as (st & -> & ->); [lia | done | | done].
  intros i st Hi ->. unfold body.
  destruct (lookup_lt_is_Some_2 bytes (Z.to_nat i)) as [d Hd]; [lia|].
  set (pre := concat (byte_bits <$> take (Z.to_nat i) bytes)).
  assert (length pre = Z.to_nat (8 * i)) as Hpre.
  { unfold pre. clear -Hi Hn. 
    assert (∀ l : list Z, length (concat (byte_bits <$> l)) = (8 * length l)%nat)
      as Hall.
    { induction l as [|x l IH]; [done|].
      cbn [fmap list_fmap concat]. rewrite length_app, IH. simpl. lia. }
    rewrite Hall, length_take. lia. }
  assert ((8 * i, pre ++ drop (Z.to_nat (8 * i)) buf)
          = (Z.of_nat (length pre), pre ++ drop (length pre) buf)) as ->
    by (rewrite Hpre; f_equal; lia).
  rewrite (bits_of_byte bytes buf pre i d) by (lia || done).
  eexists. split; [done|].
  replace (Z.to_nat (i + 1)) with (S (Z.to_nat i)) by lia.
  rewrite (take_S_r _ _ d) by done.
  rewrite fmap_app, concat_app. cbn [fmap list_fmap concat].
  rewrite app_nil_r. fold pre.
  f_equal; [rewrite length_app; unfold byte_bits; simpl; lia|].
  f_equal. f_equal. rewrite length_app. unfold byte_bits. simpl. lia.
Qed.

Lemma testbit_low_bit (b s : Z) :
  Z.testbit (Z.land b 1) s = (s =? 0) && Z.testbit b 0.
Proof.
  rewrite Z.land_spec. change 1 with (2 ^ 0) at 1.
  destruct (Z.eqb_spec s 0) as [->|Hs].
  - by rewrite Z.pow2_bits_eqb, andb_true_r by lia.
  - destruct (Z.lt_ge_cases s 0).
    + by rewrite !Z.testbit_neg_r by lia.
    + rewrite Z.pow2_bits_eqb by lia.
      destruct (Z.eqb_spec 0 s); [lia|]. by rewrite andb_false_r.
Qed.

(** [bytes_from_bits] packs the low bits of [bits], most significant
    first, into the first [(nbits + 7) / 8] bytes, with zeros for the bits
    that a last, partial byte lacks. *)
Lemma bytes_from_bits_run (bits out : list Z) (nbits : Z) :
  0 ≤ nbits ≤ Z.of_nat (length bits) →
  (nbits + 7) / 8 ≤ Z.of_nat (length out) →
  ∃ res,
    bytes_from_bits bits nbits out = Some res
    ∧ length res = length out
    ∧ drop (Z.to_nat ((nbits + 7) / 8)) res
      = drop (Z.to_nat ((nbits + 7) / 8)) out
    ∧ ∀ k, 0 ≤ k < (nbits + 7) / 8 →
        ∃ x, res !! Z.to_nat k = Some x ∧ 0 ≤ x
             ∧ ∀ t, 0 ≤ t →
                 Z.testbit x t
                 = (t <? 8) && (8 * k + 7 - t <? nbits)
                   && Z.testbit (bits !!! Z.to_nat (8 * k + 7 - t)) 0.
Proof.
  intros Hn Hout. unfold bytes_from_bits.
  rewrite Z.quot_div_nonneg by lia.
  set (nb := (nbits + 7) / 8) in *.
  assert (0 ≤ nb) as Hnb by (apply Z.div_pos; lia).
  assert (nbits ≤ 8 * nb) as Hnb8.
  { unfold nb. pose proof (Z.div_mod (nbits + 7) 8 ltac:(lia)).
    pose proof (Z.mod_pos_bound (nbits + 7) 8 ltac:(lia)). lia. }
  unfold memset. rewrite decide_True by lia. cbn [mbind option_bind].
  set (body := λ (i : Z) (bytes : list Z), _).
  destruct (for_loop_inv
    (λ i bs,
       length bs = length out
       ∧ drop (Z.to_nat nb) bs = drop (Z.to_nat nb) out
       ∧ ∀ k, 0 ≤ k < nb →
           ∃ x, bs !! Z.to_nat k = Some x ∧ 0 ≤ x
                ∧ ∀ t, 0 ≤ t →
                    Z.testbit x t
                    = (t <? 8) && (8 * k + 7 - t <? i)
                      && Z.testbit (bits !!! Z.to_nat (8 * k + 7 - t)) 0)
    nbits body (replicate (Z.to_nat nb) 0 ++ drop (Z.to_nat nb) out))
    as (res & Hrun & Hres); [lia | | | by exists res].
  - split; [rewrite length_app, length_replicate, length_drop; lia|].
    split; [by rewrite drop_app_length' by (rewrite length_replicate; lia)|].
    intros k Hk. exists 0.
    split; [rewrite lookup_app_l by (rewrite length_replicate; lia);
            apply lookup_replicate_2; lia|].
    split; [done|]. intros t Ht. rewrite Z.bits_0.
    destruct (Z.ltb_spec t 8); [|done].
    destruct (Z.ltb_spec (8 * k + 7 - t) 0); [lia | done].
  - intros i bs Hi (Hlen & Hrest & Hbits). unfold body.
    rewrite Z.quot_div_nonneg, Z.rem_mod_nonneg by lia.
    pose proof (Z.div_mod i 8 ltac:(lia)) as Hdm.
    pose proof (Z.mod_pos_bound i 8 ltac:(lia)) as Hr.
    set (q := i / 8) in *. set (r := i mod 8) in *.
    assert (0 ≤ q < nb) as Hq by lia.
    destruct (lookup_lt_is_Some_2 bits (Z.to_nat i)) as [b Hb]; [lia|].
    rewrite (load_Some bits i b) by (lia || done). cbn [mbind option_bind].
    destruct (Hbits q Hq) as (x & Hx & Hx0 & Hxbits).
    rewrite (load_Some bs q x) by (lia || done). cbn [mbind option_bind].
    rewrite store_Some by lia. eexists. split; [done|].
    split; [by rewrite length_insert|].
    split; [by rewrite drop_insert_lt by lia|].
    intros k Hk. destruct (decide (k = q)) as [->|Hkq].
    + eexists. split; [apply list_lookup_insert_eq; lia|].
      split.
      { apply Z.lor_nonneg. split; [done|].
        apply Z.shiftl_nonneg, Z.land_nonneg. right. lia. }
      intros t Ht.
      rewrite Z.lor_spec, Hxbits, Z.shiftl_spec, testbit_low_bit by lia.
      destruct (Z.eqb_spec (t - (7 - r)) 0) as [Heq|Hne].
      * assert (8 * q + 7 - t = i) as -> by lia.
        rewrite (list_lookup_total_correct _ _ _ Hb).
        destruct (Z.ltb_spec t 8); [|lia].
        destruct (Z.ltb_spec i i); [lia|].
        destruct (Z.ltb_spec i (i + 1)); [|lia]. done.
      * rewrite andb_false_l, orb_false_r.
        destruct (Z.ltb_spec (8 * q + 7 - t) i),
                 (Z.ltb_spec (8 * q + 7 - t) (i + 1)); try lia; done.
    + destruct (Hbits k Hk) as (y & Hy & Hy0 & Hybits).
      exists y. split; [by rewrite list_lookup_insert_ne by lia|].
      split; [done|]. intros t Ht. rewrite Hybits by done.
      destruct (Z.ltb_spec t 8); [|done].
      destruct (Z.ltb_spec (8 * k + 7 - t) i),
               (Z.ltb_spec (8 * k + 7 - t) (i + 1)); try lia; done.
Qed.

Lemma length_byte_bits (d : Z) : length (byte_bits d) = 8%nat.
Proof. reflexivity. Qed.

Lemma length_concat_bits (l : list Z) :
  length (concat (byte_bits <$> l)) = (8 * length l)%nat.
Proof.
  induction l as [|x l IH]; [done|].
  cbn [fmap list_fmap concat]. rewrite length_app, IH, length_byte_bits.
  simpl. lia.
Qed.

Lemma byte_bits_lookup (d : Z) (j : nat) :
  (j < 8)%nat →
  byte_bits d !! j = Some (Z.land (Z.shiftr d (7 - Z.of_nat j)) 1).
Proof.
  intros Hj. do 8 (destruct j as [|j]; [reflexivity|]). lia.
Qed.

Lemma concat_bits_lookup (l : list Z) (k j : nat) (d : Z) :
  l !! k = Some d → (j < 8)%nat →
  concat (byte_bits <$> l) !! (8 * k + j)%nat
  = Some (Z.land (Z.shiftr d (7 - Z.of_nat j)) 1).
Proof.
  revert k. induction l as [|x l IH]; intros k Hk Hj; [done|].
  cbn [fmap list_fmap concat]. destruct k as [|k].
  - simpl in Hk. injection Hk as ->.
    rewrite lookup_app_l by (rewrite length_byte_bits; lia).
    replace (8 * 0 + j)%nat with j by lia. by apply byte_bits_lookup.
  - rewrite lookup_app_r by (rewrite length_byte_bits; lia).
    rewrite length_byte_bits.
    replace (8 * S k + j - 8)%nat with (8 * k + j)%nat by lia.
    by apply IH.
Qed.





Lemma bit_of_testbit (x s : Z) :
  0 ≤ s → Z.land (Z.shiftr x s) 1 = Z.b2z (Z.testbit x s).
Proof.
  intros Hs. change 1 with (Z.ones 1).
  rewrite Z.land_ones, Z.shiftr_div_pow2, Z.testbit_spec' by lia. done.
Qed.

(** Packing [nbits] bits into bytes and unpacking the bytes gives the low
    bits back, followed by the zeros that fill the last byte. *)
Theorem bits_bytes_roundtrip (bits out buf : list Z) (nbits : Z) :
  0 ≤ nbits ≤ Z.of_nat (length bits) →
  (nbits + 7) / 8 ≤ Z.of_nat (length out) →
  8 * ((nbits + 7) / 8) ≤ Z.of_nat (length buf) →
  ∃ bytes bits',
    bytes_from_bits bits nbits out = Some bytes
    ∧ bits_from_bytes bytes ((nbits + 7) / 8) buf = Some bits'
    ∧ take (Z.to_nat (8 * ((nbits + 7) / 8))) bits'
      = received_bits (take (Z.to_nat nbits) bits)
        ++ replicate (Z.to_nat (8 * ((nbits + 7) / 8) - nbits)) 0.
Proof.
  intros Hn Hout Hbuf.
  destruct (bytes_from_bits_run bits out nbits Hn Hout)
    as (res & -> & Hrl & Hrest & Hbits).
  set (nb := (nbits + 7) / 8) in *.
  assert (0 ≤ nb) as Hnb by (apply Z.div_pos; lia).
  assert (nbits ≤ 8 * nb) as Hnb8.
  { unfold nb. pose proof (Z.div_mod (nbits + 7) 8 ltac:(lia)).
    pose proof (Z.mod_pos_bound (nbits + 7) 8 ltac:(lia)). lia. }
  exists res. rewrite bits_from_bytes_run by lia.
  eexists. split; [done|]. split; [done|].
  set (packed := concat (byte_bits <$> take (Z.to_nat nb) res)).
  assert (length packed = Z.to_nat (8 * nb)) as Hlen
    by (unfold packed; rewrite length_concat_bits, length_take; lia).
  rewrite take_app_length' by done.
  apply list_eq. intros m.
  destruct (decide (m < Z.to_nat (8 * nb))%nat) as [Hm|Hm].
  - pose proof (Nat.div_mod_eq m 8) as Hdm.
    pose proof (Nat.mod_upper_bound m 8 ltac:(lia)) as Hj.
    set (k := (m / 8)%nat) in *. set (j := (m mod 8)%nat) in *.
    destruct (Hbits (Z.of_nat k) ltac:(lia)) as (x & Hx & Hx0 & Hxb).
    rewrite Nat2Z.id in Hx.
    rewrite Hdm. unfold packed.
    rewrite (concat_bits_lookup _ k j x)
      by (try done; rewrite lookup_take_lt by lia; done).
    rewrite bit_of_testbit, Hxb by lia.
    destruct (Z.ltb_spec (7 - Z.of_nat j) 8); [|lia].
    replace (8 * Z.of_nat k + 7 - (7 - Z.of_nat j)) with (Z.of_nat m) by lia.
    rewrite Nat2Z.id, andb_true_l. rewrite <- Hdm.
    destruct (Z.ltb_spec (Z.of_nat m) nbits) as [Hlt|Hge].
    + rewrite lookup_app_l
        by (unfold received_bits; rewrite length_fmap, length_take; lia).
      unfold received_bits. rewrite list_lookup_fmap, lookup_take_lt by lia.
      destruct (lookup_lt_is_Some_2 bits m ltac:(lia)) as [b Hb].
      rewrite Hb, (list_lookup_total_correct _ _ _ Hb).
      cbn [fmap option_fmap option_map]. f_equal.
      rewrite andb_true_l, <- (bit_of_testbit b 0) by lia.
      by rewrite Z.shiftr_0_r.
    + rewrite lookup_app_r
        by (unfold received_bits; rewrite length_fmap, length_take; lia).
      simpl. symmetry. apply lookup_replicate_2.
      unfold received_bits. rewrite length_fmap, length_take. lia.
  - rewrite lookup_ge_None_2 by lia. symmetry. apply lookup_ge_None_2.
    rewrite length_app, length_replicate. unfold received_bits.
    rewrite length_fmap, length_take. lia.
Qed.

Lemma bits_bytes_roundtrip_witness :
  ∃ bytes bits',
    bytes_from_bits [1; 0; 1] 3 (replicate 1 9) = Some bytes
    ∧ bits_from_bytes bytes ((3 + 7) / 8) (replicate 8 9) = Some bits'
    ∧ take (Z.to_nat (8 * ((3 + 7) / 8))) bits'
      = received_bits (take (Z.to_nat 3) [1; 0; 1])
        ++ replicate (Z.to_nat (8 * ((3 + 7) / 8) - 3)) 0.
Proof.
  apply (bits_bytes_roundtrip [1; 0; 1] (replicate 1 9) (replicate 8 9) 3);
    change ((3 + 7) / 8) with 1; simpl; lia.
Defined.


(** * Huffman coding with a given table *)

Lemma code_bits_succ (code : Z) (k : nat) :
  code_bits code (Z.of_nat (S k))
  = Z.land (Z.shiftr code (Z.of_nat k)) 1 :: code_bits code (Z.of_nat k).
Proof.
  unfold code_bits. rewrite seqZ_S, reverse_snoc, fmap_cons. done.
Qed.

Lemma length_code_bits (code len : Z) :
  length (code_bits code len) = Z.to_nat len.
Proof. unfold code_bits. by rewrite length_fmap, length_reverse, length_seqZ. Qed.

Lemma code_bits_lookup (code len b : Z) :
  0 ≤ b < len →
  code_bits code len !! Z.to_nat b
  = Some (Z.land (Z.shiftr code (len - 1 - b)) 1).
Proof.
  intros Hb. unfold code_bits. rewrite list_lookup_fmap.
  rewrite reverse_lookup by (rewrite length_seqZ; lia).
  rewrite length_seqZ.
  rewrite lookup_seqZ_lt by lia. simpl. do 3 f_equal. lia.
Qed.

Lemma code_bits_bits (code len : Z) : Forall is_bit (code_bits code len).
Proof.
  unfold code_bits. apply Forall_fmap, Forall_true. intros b. simpl.
  unfold is_bit. pose proof (land_1_range (Z.shiftr code b)). lia.
Qed.

(** The inner loop of the coder appends the code word. *)
Lemma huff_emit_run (code max_bits : Z) (buf : list Z) (k : nat)
    (pre : list Z) :
  (k ≤ 32)%nat → Z.of_nat (length pre) + Z.of_nat k ≤ max_bits →
  max_bits ≤ Z.of_nat (length buf) →
  for_down_nat k (huff_emit code max_bits)
    (Running (Z.of_nat (length pre)) (pre ++ drop (length pre) buf))
  = Some (let e := pre ++ code_bits code (Z.of_nat k) in
          Running (Z.of_nat (length e)) (e ++ drop (length e) buf)).
Proof.
  revert pre. induction k as [|k IH]; intros pre Hk Hfit Hmax.
  - cbn [for_down_nat]. cbn zeta. change (code_bits code (Z.of_nat 0)) with (@nil Z).
    by rewrite app_nil_r.
  - cbn [for_down_nat]. unfold huff_emit at 2.
    rewrite decide_False by lia. unfold huff_bit.
    rewrite decide_True by lia. cbn [mbind option_bind].
    replace (drop (length pre) buf)
      with (drop (Z.to_nat (Z.of_nat (length pre))) buf)
      by (by rewrite Nat2Z.id).
    rewrite store_next by lia. cbn [mbind option_bind].
    set (v := Z.land (Z.shiftr code (Z.of_nat k)) 1).
    replace (Z.of_nat (length pre) + 1) with (Z.of_nat (length (pre ++ [v])))
      by (rewrite length_app; simpl; lia).
    replace (Z.to_nat (Z.of_nat (length (pre ++ [v])))) with (length (pre ++ [v]))
      by lia.
    rewrite IH by (rewrite ?length_app; simpl; lia).
    cbn zeta. rewrite code_bits_succ. fold v.
    by rewrite <- !app_assoc.
Qed.

Lemma table_load (ht : HuffmanTable) (s : Z) :
  huff_table_ok ht → 0 ≤ s < n_symbols ht →
  load (lengths ht) s = Some (lengths ht !!! Z.to_nat s)
  ∧ load (codes ht) s = Some (codes ht !!! Z.to_nat s)
  ∧ 0 ≤ lengths ht !!! Z.to_nat s ≤ 32.
Proof.
  intros (Hn & Hc & Hl & Hlen & _) Hs.
  split; [|split; [|by apply Hlen]];
    (apply load_Some; [lia|]; apply list_lookup_lookup_total_lt; lia).
Qed.

Lemma concat_take_length {A B} (f : A → list B) (l : list A) (i : nat) :
  (length (concat (f <$> take i l)) ≤ length (concat (f <$> l)))%nat.
Proof.
  rewrite <- (take_drop i l) at 2.
  rewrite fmap_app, concat_app, length_app. lia.
Qed.

(** The coder writes the code words of the symbols one after the other. *)
Lemma huffman_encode_run (ht : HuffmanTable) (syms buf : list Z)
    (n max_bits : Z) :
  huff_table_ok ht → 0 ≤ n ≤ Z.of_nat (length syms) →
  Forall (λ s, 0 ≤ s < n_symbols ht) (take (Z.to_nat n) syms) →
  Z.of_nat (length (concat (sym_bits ht <$> take (Z.to_nat n) syms)))
  ≤ max_bits →
  max_bits ≤ Z.of_nat (length buf) →
  huffman_encode ht syms n buf max_bits
  = Some (let e := concat (sym_bits ht <$> take (Z.to_nat n) syms) in
          (Z.of_nat (length e), e ++ drop (length e) buf)).
Proof.
  intros Hok Hn Hsyms Hfit Hmax. unfold huffman_encode.
  set (body := λ (i : Z) (st : flow), _).
  destruct (for_loop_inv
    (λ i st, st = let e := concat (sym_bits ht <$> take (Z.to_nat i) syms) in
                  Running (Z.of_nat (length e)) (e ++ drop (length e) buf))
    n body (Running 0 buf)) as (st & -> & ->); [lia | done | | done].
  intros i st Hi ->. cbn zeta. unfold body.
  destruct (lookup_lt_is_Some_2 syms (Z.to_nat i)) as [sym Hsym]; [lia|].
  rewrite (load_Some syms i sym) by (lia || done). cbn [mbind option_bind].
  assert (0 ≤ sym < n_symbols ht) as Hs.
  { eapply (Forall_lookup_1 _ _ (Z.to_nat i)) in Hsyms; [done|].
    by rewrite lookup_take_lt by lia. }
  rewrite decide_False by lia.
  destruct (table_load ht sym Hok Hs) as (-> & -> & Hlen).
  cbn [mbind option_bind].
  set (pre := concat (sym_bits ht <$> take (Z.to_nat i) syms)).
  assert (concat (sym_bits ht <$> take (Z.to_nat (i + 1)) syms)
          = pre ++ sym_bits ht sym) as Hnext.
  { replace (Z.to_nat (i + 1)) with (S (Z.to_nat i)) by lia.
    rewrite (take_S_r _ _ sym) by done.
    rewrite fmap_app, concat_app. simpl. by rewrite app_nil_r. }
  assert (Z.of_nat (length (pre ++ sym_bits ht sym)) ≤ max_bits) as Hfit'.
  { rewrite <- Hnext.
    pose proof (concat_take_length (sym_bits ht) (take (Z.to_nat n) syms)
                  (Z.to_nat (i + 1))) as Hle.
    rewrite take_take in Hle.
    replace (Z.to_nat (i + 1) `min` Z.to_nat n)%nat
      with (Z.to_nat (i + 1)) in Hle by lia. lia. }
  unfold for_down.
  rewrite length_app in Hfit'. unfold sym_bits in Hfit' at 1.
  rewrite length_code_bits in Hfit'.
  rewrite huff_emit_run by lia.
  eexists. split; [done|]. cbn zeta. rewrite Hnext.
  rewrite Z2Nat.id by lia. done.
Qed.

(** The comparison loop of the decoder tells whether the code word is what
    the next [len] bits hold. *)
Lemma huff_match_run (code len : Z) (bits : list Z) (pos : Z) :
  0 ≤ len ≤ 32 → 0 ≤ pos → pos + len ≤ Z.of_nat (length bits) →
  huff_match code len bits pos
  = Some (bool_decide
            (take (Z.to_nat len) (drop (Z.to_nat pos) (received_bits bits))
             = code_bits code len)).
Proof.
  intros Hlen Hpos Hfit. unfold huff_match.
  set (body := λ (b : Z) (m : bool), _).
  set (A := drop (Z.to_nat pos) (received_bits bits)).
  set (B := code_bits code len).
  destruct (for_loop_inv
    (λ b m, m = bool_decide (take (Z.to_nat b) A = take (Z.to_nat b) B))
    len body true) as (m & -> & ->); [lia | | |].
  - change (Z.to_nat 0) with 0%nat. by rewrite !take_0, bool_decide_eq_true_2.
  - intros b m Hb ->. unfold body.
    destruct (lookup_lt_is_Some_2 bits (Z.to_nat (pos + b))) as [x Hx];
      [lia|].
    assert (A !! Z.to_nat b = Some (Z.land x 1)) as Ha.
    { unfold A, received_bits. rewrite lookup_drop, list_lookup_fmap.
      replace (Z.to_nat pos + Z.to_nat b)%nat with (Z.to_nat (pos + b)) by lia.
      by rewrite Hx. }
    pose proof (code_bits_lookup code len b Hb) as Hc. fold B in Hc.
    replace (Z.to_nat (b + 1)) with (S (Z.to_nat b)) by lia.
    rewrite (take_S_r A _ _ Ha), (take_S_r B _ _ Hc).
    case_bool_decide as Heq.
    + unfold huff_bit. rewrite decide_True by lia. cbn [mbind option_bind].
      rewrite (load_Some bits (pos + b) x) by (lia || done).
      cbn [mbind option_bind]. eexists. split; [done|].
      rewrite Heq. apply bool_decide_ext. split.
      * by intros ->.
      * intros H. apply app_inj_tail in H as [_ H]. done.
    + eexists. split; [done|]. symmetry. apply bool_decide_eq_false_2.
      intros H. apply app_inj_tail in H as [H _]. done.
  - f_equal. f_equal. unfold B.
    rewrite (take_ge (code_bits code len)) by (rewrite length_code_bits; lia).
    done.
Qed.

Lemma take_drop_take {A} (l : list A) (p k n : nat) :
  (p + k ≤ n)%nat → take k (drop p (take n l)) = take k (drop p l).
Proof.
  intros Hle. rewrite <- (take_drop n l) at 2.
  destruct (decide (n ≤ length l)%nat) as [Hn|Hn].
  - rewrite drop_app_le by (rewrite length_take; lia).
    rewrite take_app_le by (rewrite length_drop, length_take; lia). done.
  - rewrite (drop_ge l n) by lia. by rewrite app_nil_r.
Qed.

(** Where the bits that follow [pos] begin with the code word of [sym],
    the search of the decoder stops at [sym]: no code word of another
    symbol matches there. *)
Lemma huff_search_finds (ht : HuffmanTable) (bits : list Z) (nbits pos : Z)
    (nsyms : Z) (out : list Z) (sym : Z) (rest : list Z) :
  huff_table_ok ht → huff_coded ht sym →
  0 ≤ pos → nbits ≤ Z.of_nat (length bits) →
  drop (Z.to_nat pos) (take (Z.to_nat nbits) (received_bits bits))
  = sym_bits ht sym ++ rest →
  0 ≤ nsyms < Z.of_nat (length out) →
  huff_search ht bits nbits (false, pos, nsyms, out)
  = Some (true, pos + lengths ht !!! Z.to_nat sym, nsyms + 1,
          <[Z.to_nat nsyms := sym]> out).
Proof.
  intros Hok [Hsym Hpos_len] Hpos Hnbits Hstream Hns. unfold huff_search.
  set (len := lengths ht !!! Z.to_nat sym) in *.
  pose proof Hok as (Hn & Hcl & Hll & Hlens & Hprefix).
  assert (pos + len ≤ nbits) as Hfit.
  { apply (f_equal length) in Hstream. unfold received_bits in Hstream.
    rewrite length_drop, length_take, length_fmap, length_app in Hstream.
    unfold sym_bits in Hstream. rewrite length_code_bits in Hstream.
    fold len in Hstream. lia. }
  set (body := λ (s : Z) (st : bool * Z * Z * list Z), _).
  destruct (for_loop_inv
    (λ s st, st = if decide (s ≤ sym) then (false, pos, nsyms, out)
                  else (true, pos + len, nsyms + 1,
                        <[Z.to_nat nsyms := sym]> out))
    (n_symbols ht) body (false, pos, nsyms, out)) as (st & -> & ->);
    [lia | by rewrite decide_True by lia | | by rewrite decide_False by lia].
  intros s st Hs ->. destruct (decide (s ≤ sym)) as [Hle|Hgt]; unfold body.
  - destruct (table_load ht s Hok Hs) as (-> & Hcode & Hlen_s).
    cbn [mbind option_bind].
    set (len_s := lengths ht !!! Z.to_nat s) in *.
    destruct (decide (len_s = 0 ∨ pos + len_s > nbits)) as [Hskip|Hgo].
    + eexists. split; [done|]. rewrite decide_True; [done|].
      destruct (decide (s = sym)) as [->|]; [|lia].
      fold len in len_s. unfold len_s in Hskip. lia.
    + rewrite Hcode. cbn [mbind option_bind].
      rewrite huff_match_run by lia.
      rewrite <- (take_drop_take _ _ _ (Z.to_nat nbits)) by lia.
      rewrite Hstream. case_bool_decide as Hm; cbn [mbind option_bind].
      * assert (s = sym) as ->.
        { assert (sym_bits ht s `prefix_of` sym_bits ht sym ++ rest) as H1
            by (unfold sym_bits at 1; fold len_s; rewrite <- Hm;
                apply prefix_take).
          assert (sym_bits ht sym `prefix_of` sym_bits ht sym ++ rest) as H2
            by (by apply prefix_app_r).
          destruct (prefix_weak_total _ _ _ H1 H2) as [H|H].
          - apply Hprefix; (lia || done).
          - symmetry. apply Hprefix; (lia || done). }
        rewrite Z.mod_small by lia.
        rewrite store_Some by lia. cbn [mbind option_bind].
        eexists. split; [done|]. by rewrite decide_False by lia.
      * eexists. split; [done|]. rewrite decide_True; [done|].
        destruct (decide (s = sym)) as [->|]; [|lia].
        exfalso. apply Hm. unfold len_s. fold len.
        rewrite take_app_length'; [done|].
        unfold sym_bits. rewrite length_code_bits. done.
  - eexists. split; [done|]. by rewrite decide_False by lia.
Qed.

Lemma received_bits_of_bits (l : list Z) :
  Forall is_bit l → received_bits l = l.
Proof.
  intros Hl. unfold received_bits. induction Hl as [|b l Hb _ IH]; [done|].
  rewrite fmap_cons, IH. by destruct Hb as [-> | ->].
Qed.

Lemma huff_decode_loop_run (ht : HuffmanTable) (bits : list Z)
    (nbits max_syms : Z) (todo : list Z) :
  huff_table_ok ht → nbits ≤ Z.of_nat (length bits) →
  Forall (huff_coded ht) todo →
  ∀ (fuel : nat) (pos nsyms : Z) (out : list Z),
    (length todo ≤ fuel)%nat → 0 ≤ pos → 0 ≤ nsyms →
    nsyms + Z.of_nat (length todo) ≤ max_syms →
    max_syms ≤ Z.of_nat (length out) →
    drop (Z.to_nat pos) (take (Z.to_nat nbits) (received_bits bits))
    = concat (sym_bits ht <$> todo) →
    huff_decode_loop fuel ht bits nbits max_syms pos nsyms out
    = Some (nsyms + Z.of_nat (length todo),
            take (Z.to_nat nsyms) out ++ todo
            ++ drop (Z.to_nat nsyms + length todo) out).
Proof.
  intros Hok Hnbits Htodo.
  induction Htodo as [|sym todo Hsym _ IH];
    intros fuel pos nsyms out Hfuel Hpos Hns Hmax Hout Hstream.
  - assert (nbits ≤ pos) as Hend.
    { apply (f_equal length) in Hstream. unfold received_bits in Hstream.
      rewrite length_drop, length_take, length_fmap in Hstream.
      simpl in Hstream. lia. }
    assert (huff_decode_loop fuel ht bits nbits max_syms pos nsyms out
            = Some (nsyms, out)) as ->
      by (destruct fuel; cbn [huff_decode_loop]; by rewrite decide_False by lia).
    simpl. rewrite Z.add_0_r, Nat.add_0_r. by rewrite take_drop.
  - destruct fuel as [|fuel]; [simpl in Hfuel; lia|].
    cbn [huff_decode_loop]. simpl length in *.
    pose proof Hsym as [Hs Hlen].
    assert (pos < nbits) as Hlt.
    { apply (f_equal length) in Hstream. unfold received_bits in Hstream.
      rewrite length_drop, length_take, length_fmap in Hstream.
      cbn [fmap list_fmap concat] in Hstream.
      rewrite length_app in Hstream. unfold sym_bits in Hstream at 1.
      rewrite length_code_bits in Hstream. lia. }
    rewrite decide_True by lia.
    cbn [fmap list_fmap concat] in Hstream.
    rewrite (huff_search_finds ht bits nbits pos nsyms out sym _ Hok Hsym
               Hpos Hnbits Hstream) by lia.
    cbn [mbind option_bind].
    rewrite IH; try lia.
    + f_equal. f_equal; [lia|].
      replace (Z.to_nat (nsyms + 1)) with (S (Z.to_nat nsyms)) by lia.
      rewrite (take_S_r _ _ sym) by (apply list_lookup_insert_eq; lia).
      rewrite take_insert_ge by lia.
      rewrite drop_insert_lt by lia.
      rewrite <- app_assoc. simpl. do 4 f_equal. lia.
    + rewrite length_insert. lia.
    + destruct (table_load ht sym Hok Hs) as (_ & _ & Hl32).
      replace (Z.to_nat (pos + lengths ht !!! Z.to_nat sym))
        with (Z.to_nat pos + Z.to_nat (lengths ht !!! Z.to_nat sym))%nat by lia.
      rewrite <- drop_drop, Hstream.
      rewrite drop_app_length'; [done|].
      unfold sym_bits. by rewrite length_code_bits.
Qed.

(** Decoding what [huffman_encode] wrote gives the symbols back, for a
    table in which no code word is a prefix of another and a message of
    symbols that have a code word. *)
Theorem huffman_roundtrip (ht : HuffmanTable) (syms buf out : list Z)
    (n max_bits max_syms : Z) :
  huff_table_ok ht → n = Z.of_nat (length syms) →
  Forall (huff_coded ht) syms →
  Z.of_nat (length (concat (sym_bits ht <$> syms))) ≤ max_bits →
  max_bits ≤ Z.of_nat (length buf) →
  n ≤ max_syms → max_syms ≤ Z.of_nat (length out) →
  ∃ m bits,
    huffman_encode ht syms n buf max_bits = Some (m, bits)
    ∧ m = Z.of_nat (length (concat (sym_bits ht <$> syms)))
    ∧ huffman_decode ht bits m out max_syms
      = Some (n, syms ++ drop (length syms) out).
Proof.
  intros Hok Hn Hsyms Hfit Hmax Hns Hout.
  assert (take (Z.to_nat n) syms = syms) as Htake
    by (rewrite take_ge; [done | lia]).
  rewrite huffman_encode_run; try lia.
  - cbn zeta. rewrite Htake.
    set (e := concat (sym_bits ht <$> syms)) in *.
    do 2 eexists. split; [done|]. split; [done|].
    unfold huffman_decode.
    rewrite (huff_decode_loop_run ht _ _ max_syms syms); try (done || lia).
    + rewrite Hn. done.
    + rewrite length_app, length_drop. lia.
    + change (Z.to_nat 0) with 0%nat. rewrite drop_0.
      unfold received_bits. rewrite <- fmap_take.
      rewrite Nat2Z.id, take_app_length.
      apply received_bits_of_bits. unfold e.
      apply Forall_concat, Forall_fmap, Forall_true. intros s.
      apply code_bits_bits.
  - done.
  - rewrite Htake. eapply Forall_impl; [done|]. by intros s [Hs _].
  - by rewrite Htake.
Qed.

Lemma huffman_roundtrip_witness :
  ∃ m bits,
    huffman_encode
      (mkHuffmanTable 3 ([0; 2; 3] ++ replicate 253 0)
                        ([1; 2; 2] ++ replicate 253 0))
      [0; 2; 1] 3 (replicate 5 9) 5 = Some (m, bits)
    ∧ m = Z.of_nat (length (concat
            (sym_bits (mkHuffmanTable 3 ([0; 2; 3] ++ replicate 253 0)
                                        ([1; 2; 2] ++ replicate 253 0))
             <$> [0; 2; 1])))
    ∧ huffman_decode
        (mkHuffmanTable 3 ([0; 2; 3] ++ replicate 253 0)
                          ([1; 2; 2] ++ replicate 253 0))
        bits m (replicate 3 9) 3
      = Some (3, [0; 2; 1] ++ drop (length [0; 2; 1]) (replicate 3 9)).
Proof.
  apply (huffman_roundtrip
           (mkHuffmanTable 3 ([0; 2; 3] ++ replicate 253 0)
                             ([1; 2; 2] ++ replicate 253 0))
           [0; 2; 1] (replicate 5 9) (replicate 3 9) 3 5 3);
    try reflexivity; try (simpl; lia).
  - split; [simpl; lia|]. split; [reflexivity|]. split; [reflexivity|].
    split.
    + intros s Hs. simpl in Hs.
      assert (s = 0 ∨ s = 1 ∨ s = 2) as [-> | [-> | ->]] by lia; simpl; lia.
    + intros s s' Hs Hs' _ _ [k Hk]. simpl in Hs, Hs'.
      assert (s = 0 ∨ s = 1 ∨ s = 2) as [-> | [-> | ->]] by lia;
        (assert (s' = 0 ∨ s' = 1 ∨ s' = 2) as [-> | [-> | ->]] by lia);
        try reflexivity; vm_compute in Hk; discriminate Hk.
  - repeat (apply Forall_cons_2; [split; simpl; lia|]). apply Forall_nil_2.
Defined.
